(** * The ninja manifest lexer (src/lexer.in.cc), embedded in Rocq

    The lexer is written as re2c rule blocks inside C++ member functions.
    The embedding keeps that shape: every rule block is a list of regular
    expressions paired with the action of the rule, and one generic matcher
    gives the blocks the meaning re2c gives them (the longest match wins,
    the earlier rule wins a tie, one byte is read at a time and nothing is
    read once no rule can match any further).

    The buffer is the list of its bytes, terminating NUL included; pointers
    into it are offsets.  The generated scanner checks no bounds
    ([re2c:yyfill:enable = 0]), so the model says when a byte outside the
    buffer is read: that is an outcome of its own, next to returning.  The
    [for (;;)] loops take fuel, and the last section shows that the fuel
    they are started with always suffices. *)

From Stdlib Require Import List String Ascii Arith NArith ZArith Bool Lia.
From Stdlib Require DecimalString.
Import ListNotations.

Set Implicit Arguments.

(** ** Bytes *)

Definition NUL : ascii := "000"%char.
Definition LF : ascii := "010"%char.

Definition in_range (lo hi c : ascii) : bool :=
  (N_of_ascii lo <=? N_of_ascii c)%N && (N_of_ascii c <=? N_of_ascii hi)%N.

Definition not_LF (c : ascii) : bool := negb (Ascii.eqb c LF).

Definition is_space (c : ascii) : bool := Ascii.eqb " " c.

(** [a-zA-Z0-9_] *)
Definition simple_varname_char (c : ascii) : bool :=
  in_range "a" "z" c || in_range "A" "Z" c || in_range "0" "9" c
  || Ascii.eqb c "_".

(** [a-zA-Z0-9_.] *)
Definition varname_char (c : ascii) : bool :=
  simple_varname_char c || Ascii.eqb c ".".

(** ** Regular expressions and the re2c matcher *)

Module Re.

Inductive re : Type :=
| Void
| Eps
| Cls (p : ascii -> bool)
| Cat (a b : re)
| Alt (a b : re)
| Star (a : re).

Definition chr (c : ascii) : re := Cls (Ascii.eqb c).

Fixpoint lit (s : string) : re :=
  match s with
  | EmptyString => Eps
  | String c EmptyString => chr c
  | String c s' => Cat (chr c) (lit s')
  end.

Definition plus (a : re) : re := Cat a (Star a).

(** re2c's [.]: any byte except a newline. *)
Definition dot : re := Cls not_LF.

(** re2c's [[^]]: any byte. *)
Definition any : re := Cls (fun _ => true).

Fixpoint nullable (r : re) : bool :=
  match r with
  | Void => false
  | Eps => true
  | Cls _ => false
  | Cat a b => nullable a && nullable b
  | Alt a b => nullable a || nullable b
  | Star _ => true
  end.

Definition cat (a b : re) : re :=
  match a, b with
  | Void, _ => Void
  | _, Void => Void
  | Eps, _ => b
  | _, Eps => a
  | _, _ => Cat a b
  end.

Definition alt (a b : re) : re :=
  match a, b with
  | Void, _ => b
  | _, Void => a
  | _, _ => Alt a b
  end.

(** The residual of [r] after the byte [c]. *)
Fixpoint deriv (c : ascii) (r : re) : re :=
  match r with
  | Void => Void
  | Eps => Void
  | Cls p => if p c then Eps else Void
  | Cat a b => alt (cat (deriv c a) b) (if nullable a then deriv c b else Void)
  | Alt a b => alt (deriv c a) (deriv c b)
  | Star a => cat (deriv c a) (Star a)
  end.

(** [nonvoid r]: some word matches [r] (every class of the lexer has a
    member).  [more r]: some word of at least one byte matches [r], which is
    when the automaton has a transition left and reads the next byte. *)
Fixpoint nonvoid (r : re) : bool :=
  match r with
  | Void => false
  | Eps => true
  | Cls _ => true
  | Cat a b => nonvoid a && nonvoid b
  | Alt a b => nonvoid a || nonvoid b
  | Star _ => true
  end.

Fixpoint more (r : re) : bool :=
  match r with
  | Void => false
  | Eps => false
  | Cls _ => true
  | Cat a b => (more a && nonvoid b) || (nonvoid a && more b)
  | Alt a b => more a || more b
  | Star a => more a
  end.

(** The residual of [r] after the bytes [w]. *)
Definition deriv_word (w : list ascii) (r : re) : re :=
  fold_left (fun r c => deriv c r) w r.

(** [nul_free r]: no class of [r] has the NUL byte.  [nul_last r]: a NUL can
    only be the last byte of a match of [r]. *)
Fixpoint nul_free (r : re) : bool :=
  match r with
  | Void => true
  | Eps => true
  | Cls p => negb (p NUL)
  | Cat a b => nul_free a && nul_free b
  | Alt a b => nul_free a && nul_free b
  | Star a => nul_free a
  end.

Fixpoint nul_last (r : re) : bool :=
  match r with
  | Void => true
  | Eps => true
  | Cls _ => true
  | Cat a b => nul_free a && nul_last b
  | Alt a b => nul_last a && nul_last b
  | Star a => nul_free a
  end.

(** The words a regular expression matches. *)
Inductive matches : re -> list ascii -> Prop :=
| matches_eps : matches Eps []
| matches_cls p c : p c = true -> matches (Cls p) [c]
| matches_cat a b u v : matches a u -> matches b v -> matches (Cat a b) (u ++ v)
| matches_alt_l a b w : matches a w -> matches (Alt a b) w
| matches_alt_r a b w : matches b w -> matches (Alt a b) w
| matches_star_nil a : matches (Star a) []
| matches_star_app a u v :
    matches a u -> matches (Star a) v -> matches (Star a) (u ++ v).

Section Matcher.

Variable A : Type.

Inductive scan_result : Type :=
| Matched (a : A) (len : nat)
| Unmatched
| PastEnd.

Definition rules := list (re * A).

Definition step (c : ascii) (rs : rules) : rules :=
  map (fun ra => (deriv c (fst ra), snd ra)) rs.

Definition live (rs : rules) : bool :=
  existsb (fun ra => more (fst ra)) rs.

(** The first rule, in the order of the block, that accepts here. *)
Definition accepting (rs : rules) : option A :=
  option_map snd (find (fun ra => nullable (fst ra)) rs).

(** [run rs n acc s]: [n] bytes are consumed, [rs] are the residuals of the
    rules, [acc] is the last acceptance seen (re2c's YYMARKER backup) and
    [s] is the memory from the cursor on.  [s = []] is the end of the
    buffer: a read there is outside it. *)
Fixpoint run (rs : rules) (n : nat) (acc : option (A * nat)) (s : list ascii)
  : scan_result :=
  if live rs then
    match s with
    | [] => PastEnd
    | c :: s' =>
        let rs' := step c rs in
        let acc' := match accepting rs' with
                    | Some a => Some (a, S n)
                    | None => acc
                    end in
        run rs' (S n) acc' s'
    end
  else
    match acc with
    | Some (a, len) => Matched a len
    | None => Unmatched
    end.

Definition scan (rs : rules) (s : list ascii) : scan_result :=
  run rs 0 None s.

(** The acceptance on record after [k] more bytes that leave the residuals
    [rs] as they are. *)
Definition acc_after (rs : rules) (n k : nat) (acc : option (A * nat))
  : option (A * nat) :=
  match k with
  | 0 => acc
  | S _ => match accepting rs with
           | Some a => Some (a, n + k)
           | None => acc
           end
  end.

(** The rules of [rs] with every residual void, except that rule [k] has the
    residual [r]. *)
Fixpoint residual_at (k : nat) (r : re) (rs : rules) : rules :=
  match rs with
  | [] => []
  | (_, a) :: rs' =>
      match k with
      | 0 => (r, a) :: map (fun ra => (Void, snd ra)) rs'
      | S k' => (Void, a) :: residual_at k' r rs'
      end
  end.

(** The residuals of the rules after the bytes [w]. *)
Definition steps (w : list ascii) (rs : rules) : rules :=
  fold_left (fun rs c => step c rs) w rs.

(** Every rule stops at a NUL. *)
Definition stops_at_NUL (rs : rules) : Prop :=
  forall r a, In (r, a) rs -> nul_last r = true.

End Matcher.

Arguments Unmatched {A}.
Arguments PastEnd {A}.

End Re.

Import Re.

(** ** What a call can come to *)

Inductive outcome (A : Type) : Type :=
| Done (a : A)        (* the call returns *)
| OutOfBounds         (* a byte outside the buffer is read *)
| Undefined           (* no rule of a block matches, or the cursor is NULL *)
| OutOfFuel.          (* the loop was cut off by the model *)

Arguments OutOfBounds {A}.
Arguments Undefined {A}.
Arguments OutOfFuel {A}.

Definition bind {A B : Type} (m : outcome A) (k : A -> outcome B) : outcome B :=
  match m with
  | Done a => k a
  | OutOfBounds => OutOfBounds
  | Undefined => Undefined
  | OutOfFuel => OutOfFuel
  end.

Notation "x <- m ;; k" := (bind m (fun x => k))
  (at level 61, m at next level, right associativity).

(** ** The lexer state *)

Inductive Token : Type :=
| ERROR | BUILD | RULE | DEFAULT | IDENT | EQUALS | TEOF | INDENT
| COLON | PIPE | PIPE2 | NEWLINE | INCLUDE | SUBNINJA.

Definition Token_eqb (a b : Token) : bool :=
  match a, b with
  | ERROR, ERROR | BUILD, BUILD | RULE, RULE | DEFAULT, DEFAULT
  | IDENT, IDENT | EQUALS, EQUALS | TEOF, TEOF | INDENT, INDENT
  | COLON, COLON | PIPE, PIPE | PIPE2, PIPE2 | NEWLINE, NEWLINE
  | INCLUDE, INCLUDE | SUBNINJA, SUBNINJA => true
  | _, _ => false
  end.

(** [input_] is the memory of the buffer from [input_.str_] up to and
    including its terminating NUL; [ofs_] and [last_token_] are offsets into
    it, and [last_token_ = None] is the NULL pointer [Start] stores. *)
Record Lexer : Type := mkLexer {
  filename_ : string;
  input_ : list ascii;
  ofs_ : nat;
  last_token_ : option nat
}.

Definition Start (filename : string) (input : list ascii) : Lexer :=
  {| filename_ := filename; input_ := input; ofs_ := 0; last_token_ := None |}.

(** [Lexer::Lexer(const char* input)]: the C string and its terminator. *)
Definition new_Lexer (input : string) : Lexer :=
  Start "input" (list_ascii_of_string input ++ [NUL]).

Definition set_ofs (l : Lexer) (p : nat) : Lexer :=
  {| filename_ := filename_ l; input_ := input_ l; ofs_ := p;
     last_token_ := last_token_ l |}.

Definition set_last_token (l : Lexer) (p : nat) : Lexer :=
  {| filename_ := filename_ l; input_ := input_ l; ofs_ := ofs_ l;
     last_token_ := Some p |}.

(** [StringPiece(input_.str_ + start, len)] as a string. *)
Definition piece (input : list ascii) (start len : nat) : string :=
  string_of_list_ascii (firstn len (skipn start input)).

(** Every iteration of a scanning loop consumes a byte or leaves the loop, so
    one more iteration than the buffer has bytes is enough. *)
Definition fuel_of (input : list ascii) : nat := S (List.length input).

(** ** Lexer::TokenName *)

Definition TokenName (t : Token) : string :=
  match t with
  | ERROR => "lexing error"
  | BUILD => "'build'"
  | RULE => "'rule'"
  | DEFAULT => "'default'"
  | IDENT => "identifier"
  | EQUALS => "'='"
  | TEOF => "eof"
  | INDENT => "indent"
  | COLON => "':'"
  | PIPE => "'|'"
  | PIPE2 => "'||'"
  | NEWLINE => "newline"
  | INCLUDE => "'include'"
  | SUBNINJA => "'subninja'"
  end.

(** ** Lexer::Error *)

(** [c_str()] handed to [%s]: the bytes before the first NUL. *)
Fixpoint c_str (s : string) : string :=
  match s with
  | EmptyString => EmptyString
  | String c s' => if Ascii.eqb c NUL then EmptyString else String c (c_str s')
  end.

(** [line] and [col] are [int]s: 32 bits, two's complement.  [int_of_Z z]
    is the [int] that the arithmetic of the code leaves where the exact
    value is [z]: the increment of [line] and the conversion of the pointer
    difference to [col] are taken modulo 2^32. *)
Definition int_of_Z (z : Z) : Z :=
  ((z + 2147483648) mod 4294967296 - 2147483648)%Z.

(** [%d] of a line number. *)
Definition decimal (n : Z) : string :=
  DecimalString.NilEmpty.string_of_int (Z.to_int n).

Fixpoint take (n : nat) (s : string) : string :=
  match n, s with
  | S n', String c s' => String c (take n' s')
  | _, _ => EmptyString
  end.

(** [snprintf(buf, sizeof(buf), "%s:%d: ", ...)] with [char buf[1024]]: at
    most 1023 bytes are kept. *)
Definition snprintf_buf (filename : string) (line : Z) : string :=
  take 1023 (c_str filename ++ ":" ++ decimal line ++ ": ").

(** The first loop of [Error], over the bytes before [last_token_]: [p] is
    the offset of the byte looked at, [line] and [context] are the loop's
    variables. *)
Fixpoint line_and_context (bytes : list ascii) (p : nat) (line : Z)
  (context : nat) : Z * nat :=
  match bytes with
  | [] => (line, context)
  | c :: rest =>
      if Ascii.eqb c LF
      then line_and_context rest (S p) (int_of_Z (line + 1)) (S p)
      else line_and_context rest (S p) line context
  end.

(** [for (len = 0; len < 50; ++len) if (context[len] == 0 || context[len] ==
    '\n') break;], [n] being the iterations left; [None] when the loop reads
    past the buffer. *)
Fixpoint context_len (n : nat) (s : list ascii) : option nat :=
  match n with
  | 0 => Some 0
  | S n' =>
      match s with
      | [] => None
      | c :: s' =>
          if Ascii.eqb c NUL || Ascii.eqb c LF then Some 0
          else option_map S (context_len n' s')
      end
  end.

Fixpoint spaces (n : nat) : string :=
  match n with
  | 0 => EmptyString
  | S n' => String " " (spaces n')
  end.

(** [int line], the pointer [context] and [int col] of [last_token_], as
    [Error] computes them: [col = last_token_ ? last_token_ - context : 0]. *)
Definition position (l : Lexer) : outcome (Z * nat * Z) :=
  match last_token_ l with
  | None => Done (1%Z, 0, 0%Z)
  | Some t =>
      if t <=? List.length (input_ l) then
        let '(line, context) :=
          line_and_context (firstn t (input_ l)) 0 1%Z 0 in
        Done (line, context, int_of_Z (Z.of_nat t - Z.of_nat context))
      else OutOfBounds
  end.

(** [Error] returns false and stores the message in [*err]. *)
Definition Error (l : Lexer) (message : string) : outcome (bool * string) :=
  lcc <- position l ;;
  let '(line, context, col) := lcc in
  let err := (snprintf_buf (filename_ l) line ++ (message ++ String LF ""))%string in
  if (0 <? col)%Z then
    match context_len 50 (skipn context (input_ l)) with
    | None => OutOfBounds
    | Some len =>
        Done (false,
              (err ++ piece (input_ l) context len ++ String LF ""
                   ++ spaces (Z.to_nat col) ++ "^" ++ String LF "")%string)
    end
  else Done (false, err).

(** ** Lexer::UnreadToken *)

(** [ofs_ = last_token_].  After [Start] this stores the NULL pointer in
    [ofs_], which has no offset in the buffer: [None]. *)
Definition UnreadToken (l : Lexer) : option Lexer :=
  match last_token_ l with
  | Some t => Some (set_ofs l t)
  | None => None
  end.

(** ** Lexer::EatWhitespace *)

Inductive loop_action : Type := Continue | Break.

Definition EatWhitespace_rules : rules loop_action :=
  [ (plus (chr " "), Continue);
    (Cat (chr "$") (chr LF), Continue);
    (any, Break) ].

Fixpoint EatWhitespace_loop (fuel : nat) (l : Lexer) (p : nat)
  : outcome Lexer :=
  match fuel with
  | 0 => OutOfFuel
  | S fuel' =>
      let l := set_ofs l p in
      match scan EatWhitespace_rules (skipn p (input_ l)) with
      | Matched Continue n => EatWhitespace_loop fuel' l (p + n)
      | Matched Break _ => Done l
      | Unmatched => Undefined
      | PastEnd => OutOfBounds
      end
  end.

Definition EatWhitespace (l : Lexer) : outcome Lexer :=
  EatWhitespace_loop (fuel_of (input_ l)) l (ofs_ l).

(** ** Lexer::ReadToken *)

Inductive token_action : Type :=
| Skip                    (* continue *)
| Emit (token : Token).   (* token = ...; break *)

Definition ReadToken_rules : rules token_action :=
  [ (Cat (chr "#") (Cat (Star dot) (chr LF)), Skip);
    (chr LF,             Emit NEWLINE);
    (plus (chr " "),     Emit INDENT);
    (lit "build",        Emit BUILD);
    (lit "rule",         Emit RULE);
    (lit "default",      Emit DEFAULT);
    (lit "=",            Emit EQUALS);
    (lit ":",            Emit COLON);
    (lit "||",           Emit PIPE2);
    (lit "|",            Emit PIPE);
    (lit "include",      Emit INCLUDE);
    (lit "subninja",     Emit SUBNINJA);
    (plus (Cls varname_char), Emit IDENT);
    (chr NUL,            Emit TEOF);
    (any,                Emit ERROR) ].

(** The [for (;;)] of [ReadToken]: the token, [start] and [p] at the
    [break]. *)
Fixpoint ReadToken_loop (fuel : nat) (input : list ascii) (p : nat)
  : outcome (Token * nat * nat) :=
  match fuel with
  | 0 => OutOfFuel
  | S fuel' =>
      let start := p in
      match scan ReadToken_rules (skipn p input) with
      | Matched Skip n => ReadToken_loop fuel' input (p + n)
      | Matched (Emit token) n => Done (token, start, p + n)
      | Unmatched => Undefined
      | PastEnd => OutOfBounds
      end
  end.

Definition ReadToken (l : Lexer) : outcome (Token * Lexer) :=
  r <- ReadToken_loop (fuel_of (input_ l)) (input_ l) (ofs_ l) ;;
  let '(token, start, p) := r in
  let l := set_ofs (set_last_token l start) p in
  if negb (Token_eqb token NEWLINE) && negb (Token_eqb token TEOF)
  then l' <- EatWhitespace l ;; Done (token, l')
  else Done (token, l).

(** ** Lexer::PeekToken *)

(** [UnreadToken] runs after a [ReadToken], which has set [last_token_]. *)
Definition PeekToken (l : Lexer) (token : Token) : outcome (bool * Lexer) :=
  r <- ReadToken l ;;
  let '(t, l) := r in
  if Token_eqb t token then Done (true, l)
  else match UnreadToken l with
       | Some l' => Done (false, l')
       | None => Undefined
       end.

(** ** Lexer::ReadIdent *)

Inductive ident_action : Type := Assign | ReturnFalse.

Definition ReadIdent_rules : rules ident_action :=
  [ (plus (Cls varname_char), Assign);
    (any, ReturnFalse) ].

(** The loop body leaves the loop in both rules, so there is one pass.  The
    result is the returned bool, [*out] and the lexer. *)
Definition ReadIdent (l : Lexer) (out : string)
  : outcome (bool * string * Lexer) :=
  let p := ofs_ l in
  let start := p in
  match scan ReadIdent_rules (skipn p (input_ l)) with
  | Matched Assign n =>
      let p := p + n in
      let out := piece (input_ l) start (p - start) in
      l' <- EatWhitespace (set_ofs l p) ;;
      Done (true, out, l')
  | Matched ReturnFalse _ => Done (false, out, l)
  | Unmatched => Undefined
  | PastEnd => OutOfBounds
  end.

(** ** Lexer::ReadEvalString *)

Inductive TokenType : Type := RAW | SPECIAL.

(** Modelled from the spec: [EvalString] and [EvalString::Add] are declared
    in eval_env.h, which is not part of the sources; an evaluable string is
    the ordered sequence of its fragments and [Add] appends one at the end,
    without merging neighbours. *)
Definition EvalString : Type := list (TokenType * string).

Definition Add (eval : EvalString) (type : TokenType) (text : string)
  : EvalString :=
  eval ++ [(type, text)].

Inductive eval_action : Type :=
| RawRun          (* [^$ :\n|\000]+ *)
| Separator       (* [ :|\n] *)
| DollarDollar    (* "$$" *)
| DollarSpace     (* "$ " *)
| Continuation    (* "$\n"[ ]* *)
| BracedVar       (* "${"varname"}" *)
| SimpleVar       (* "$"simple_varname *)
| Sentinel        (* "\000" *)
| Other.          (* [^] *)

Definition raw_char (c : ascii) : bool :=
  negb (Ascii.eqb c "$" || Ascii.eqb c " " || Ascii.eqb c ":"
        || Ascii.eqb c LF || Ascii.eqb c "|" || Ascii.eqb c NUL).

Definition separator_char (c : ascii) : bool :=
  Ascii.eqb c " " || Ascii.eqb c ":" || Ascii.eqb c "|" || Ascii.eqb c LF.

Definition ReadEvalString_rules : rules eval_action :=
  [ (plus (Cls raw_char), RawRun);
    (Cls separator_char, Separator);
    (lit "$$", DollarDollar);
    (lit "$ ", DollarSpace);
    (Cat (chr "$") (Cat (chr LF) (Star (chr " "))), Continuation);
    (Cat (lit "${") (Cat (plus (Cls varname_char)) (chr "}")), BracedVar);
    (Cat (chr "$") (plus (Cls simple_varname_char)), SimpleVar);
    (chr NUL, Sentinel);
    (any, Other) ].

(** How one pass through the loop body ends. *)
Inductive eval_step : Type :=
| Again (eval : EvalString) (p : nat)             (* continue *)
| Stop (eval : EvalString) (start p : nat)        (* break *)
| Fail (eval : EvalString) (start : nat) (message : string).
                                   (* last_token_ = start; return Error(...) *)

Definition ReadEvalString_body (input : list ascii) (path : bool)
  (eval : EvalString) (p : nat) : outcome eval_step :=
  let start := p in
  match scan ReadEvalString_rules (skipn p input) with
  | Matched a n =>
      let p := p + n in
      match a with
      | RawRun => Done (Again (Add eval RAW (piece input start (p - start))) p)
      | Separator =>
          if path then Done (Stop eval start start)
          else
            match nth_error input start with
            | None => OutOfBounds
            | Some c =>
                if Ascii.eqb c LF then Done (Stop eval start p)
                else Done (Again (Add eval RAW (piece input start 1)) p)
            end
      | DollarDollar => Done (Again (Add eval RAW "$") p)
      | DollarSpace => Done (Again (Add eval RAW " ") p)
      | Continuation => Done (Again eval p)
      | BracedVar =>
          Done (Again (Add eval SPECIAL (piece input (start + 2) (p - start - 3))) p)
      | SimpleVar =>
          Done (Again (Add eval SPECIAL (piece input (start + 1) (p - start - 1))) p)
      | Sentinel => Done (Fail eval start "unexpected EOF")
      | Other => Done (Fail eval start "lexing error")
      end
  | Unmatched => Undefined
  | PastEnd => OutOfBounds
  end.

Fixpoint ReadEvalString_loop (fuel : nat) (input : list ascii) (path : bool)
  (eval : EvalString) (p : nat) : outcome eval_step :=
  match fuel with
  | 0 => OutOfFuel
  | S fuel' =>
      s <- ReadEvalString_body input path eval p ;;
      match s with
      | Again eval' p' => ReadEvalString_loop fuel' input path eval' p'
      | _ => Done s
      end
  end.

(** The result is the returned bool, [*eval], [*err] and the lexer. *)
Definition ReadEvalString (l : Lexer) (eval : EvalString) (path : bool)
  (err : string) : outcome (bool * EvalString * string * Lexer) :=
  s <- ReadEvalString_loop (fuel_of (input_ l)) (input_ l) path eval (ofs_ l) ;;
  match s with
  | Again _ _ => OutOfFuel
  | Fail eval start message =>
      let l := set_last_token l start in
      r <- Error l message ;;
      Done (fst r, eval, snd r, l)
  | Stop eval start p =>
      let l := set_ofs (set_last_token l start) p in
      if path
      then l' <- EatWhitespace l ;; Done (true, eval, err, l')
      else Done (true, eval, err, l)
  end.

(** ** Notions of the statements *)

(** The memory [s] ends with the terminating NUL of the buffer. *)
Definition terminated (s : list ascii) : Prop := exists t, s = t ++ [NUL].

(** The length of the longest prefix of [s] made of bytes in [f]. *)
Fixpoint span_len (f : ascii -> bool) (s : list ascii) : nat :=
  match s with
  | c :: s' => if f c then S (span_len f s') else 0
  | [] => 0
  end.

(** The number of newline bytes in [bytes]. *)
Fixpoint newlines (bytes : list ascii) : nat :=
  match bytes with
  | [] => 0
  | c :: rest => if Ascii.eqb c LF then S (newlines rest) else newlines rest
  end.

(** The keyword rules of [ReadToken]. *)
Definition keywords : list (string * Token) :=
  [ ("build", BUILD); ("rule", RULE); ("default", DEFAULT);
    ("include", INCLUDE); ("subninja", SUBNINJA) ]%string.

(** The escaping grammar in the words of the specification (section 4.2):
    the bytes of an escape, the byte that follows it, and the fragment the
    escape contributes ([None]: no fragment). *)
Inductive escape_spec : list ascii -> ascii -> option (TokenType * string) -> Prop :=
| escape_dollar c :
    escape_spec ["$"; "$"]%char c (Some (RAW, "$"%string))
| escape_space c :
    escape_spec ["$"; " "]%char c (Some (RAW, " "%string))
| escape_continuation w c :
    forallb is_space w = true -> is_space c = false ->
    escape_spec ("$"%char :: LF :: w) c None
| escape_braced name c :
    name <> [] -> forallb varname_char name = true ->
    escape_spec ("$"%char :: "{"%char :: name ++ ["}"%char]) c
                (Some (SPECIAL, string_of_list_ascii name))
| escape_simple name c :
    name <> [] -> forallb simple_varname_char name = true ->
    simple_varname_char c = false ->
    escape_spec ("$"%char :: name) c
                (Some (SPECIAL, string_of_list_ascii name)).

Definition add_fragment (eval : EvalString) (frag : option (TokenType * string))
  : EvalString :=
  match frag with
  | Some (type, text) => Add eval type text
  | None => eval
  end.

(** The fragments in [*eval] when the call is over. *)
Definition eval_of (o : outcome (bool * EvalString * string * Lexer))
  : option EvalString :=
  match o with
  | Done (_, eval, _, _) => Some eval
  | _ => None
  end.

(** The texts "foo\nbarbaz\n" and "a b\n". *)
Definition foo_barbaz : string :=
  ("foo" ++ String LF "barbaz" ++ String LF "")%string.

Definition a_b_newline : string := ("a b" ++ String LF "")%string.

(** ** Notions of the further statements *)

(** The bytes a token of each kind spans. *)
Definition token_byte (c : ascii) : bool :=
  varname_char c || Ascii.eqb c "#" || Ascii.eqb c LF || Ascii.eqb c " "
  || Ascii.eqb c "=" || Ascii.eqb c ":" || Ascii.eqb c "|" || Ascii.eqb c NUL.

Definition lexeme (t : Token) (w : list ascii) : Prop :=
  match t with
  | BUILD => w = list_ascii_of_string "build"
  | RULE => w = list_ascii_of_string "rule"
  | DEFAULT => w = list_ascii_of_string "default"
  | INCLUDE => w = list_ascii_of_string "include"
  | SUBNINJA => w = list_ascii_of_string "subninja"
  | IDENT =>
      w <> [] /\ forallb varname_char w = true
      /\ forall kw k, In (kw, k) keywords -> w <> list_ascii_of_string kw
  | INDENT => w <> [] /\ forallb is_space w = true
  | NEWLINE => w = [LF]
  | EQUALS => w = ["="%char]
  | COLON => w = [":"%char]
  | PIPE => w = ["|"%char]
  | PIPE2 => w = ["|"; "|"]%char
  | TEOF => w = [NUL]
  | ERROR => exists c, w = [c] /\ token_byte c = false
  end.

(** The bytes that would make a token of the kind [t] longer. *)
Definition extends (t : Token) (c : ascii) : bool :=
  match t with
  | IDENT | BUILD | RULE | DEFAULT | INCLUDE | SUBNINJA => varname_char c
  | INDENT => is_space c
  | PIPE => Ascii.eqb "|" c
  | _ => false
  end.

(** What [EatWhitespace] eats: spaces and [$]-newline pairs. *)
Inductive eaten : list ascii -> Prop :=
| eaten_nil : eaten []
| eaten_space w : eaten w -> eaten (" "%char :: w)
| eaten_continuation w : eaten w -> eaten ("$"%char :: LF :: w).

(** What a fragment of an evaluable string is made of: the text of a
    fragment is never empty, a SPECIAL fragment holds the bytes of a variable
    name, and a RAW fragment holds neither a newline nor a NUL. *)
Definition text_char (c : ascii) : bool :=
  negb (Ascii.eqb c LF || Ascii.eqb c NUL).

Definition fragment_ok (f : TokenType * string) : Prop :=
  list_ascii_of_string (snd f) <> []
  /\ match fst f with
     | RAW => forallb text_char (list_ascii_of_string (snd f)) = true
     | SPECIAL => forallb varname_char (list_ascii_of_string (snd f)) = true
     end.

(** The texts of the fragments, one after the other. *)
Fixpoint text_of (eval : EvalString) : string :=
  match eval with
  | [] => EmptyString
  | (_, text) :: eval' => (text ++ text_of eval')%string
  end.

(** A byte that stands for itself in a value: no [$], newline or NUL. *)
Definition plain_char (c : ascii) : bool :=
  negb (Ascii.eqb c "$" || Ascii.eqb c LF || Ascii.eqb c NUL).

(** The punctuation rules of [ReadToken]. *)
Definition punctuation : list (string * Token) :=
  [ ("=", EQUALS); (":", COLON); ("||", PIPE2); ("|", PIPE) ]%string.

(** Comment lines, one after the other: each is a [#], bytes other than a
    newline, and the newline. *)
Inductive comment_lines : list ascii -> Prop :=
| comment_lines_nil : comment_lines []
| comment_lines_cons w rest :
    forallb not_LF w = true -> comment_lines rest ->
    comment_lines ("#"%char :: w ++ LF :: rest).

(** The bytes of [s] before its first NUL, all of [s] if it has none. *)
Definition before_NUL (s : string) : string :=
  string_of_list_ascii
    (firstn (span_len (fun c => negb (Ascii.eqb c NUL)) (list_ascii_of_string s))
       (list_ascii_of_string s)).

(** The length of the token of the kind [t] at the start of [s]: the whole
    run of identifier bytes for an identifier or a keyword, the whole run
    of spaces for an indentation, two bytes for [||], one byte otherwise. *)
Definition token_len (t : Token) (s : list ascii) : nat :=
  match t with
  | IDENT | BUILD | RULE | DEFAULT | INCLUDE | SUBNINJA =>
      span_len varname_char s
  | INDENT => span_len is_space s
  | PIPE2 => 2
  | _ => 1
  end.

(** Where [ReadToken] leaves the lexer [l'] for a token of the kind [t] that
    ends at the offset [p]: the whitespace behind the token is eaten, unless
    the token is NEWLINE or TEOF. *)
Definition after_token (l : Lexer) (t : Token) (start p : nat) (l' : Lexer)
  : Prop :=
  if negb (Token_eqb t NEWLINE) && negb (Token_eqb t TEOF)
  then EatWhitespace (set_ofs (set_last_token l start) p) = Done l'
  else l' = set_ofs (set_last_token l start) p.

(** The loop of [ReadEvalString], started with the fragments [eval] at the
    offset [p], is at the top of a pass with the fragments [eval'] at the
    offset [p']: every pass in between went on to the next. *)
Inductive scanned (input : list ascii) (path : bool)
  : EvalString -> nat -> EvalString -> nat -> Prop :=
| scanned_here eval p : scanned input path eval p eval p
| scanned_pass eval p eval1 p1 eval' p' :
    ReadEvalString_body input path eval p = Done (Again eval1 p1) ->
    scanned input path eval1 p1 eval' p' ->
    scanned input path eval p eval' p'.

(** What a pass of the loop of [ReadEvalString] that goes on takes: the
    bytes, the byte that follows them and the fragment they add.  It is a
    run of plain text, as long as it goes, or, in non-path mode, a space, a
    colon or a pipe, or an escape. *)
Inductive pass_spec (path : bool)
  : list ascii -> ascii -> option (TokenType * string) -> Prop :=
| pass_text text c :
    text <> [] -> forallb raw_char text = true -> raw_char c = false ->
    pass_spec path text c (Some (RAW, string_of_list_ascii text))
| pass_separator s c :
    path = false -> In s [" "; ":"; "|"]%char ->
    pass_spec path [s] c (Some (RAW, String s EmptyString))
| pass_escape w c frag :
    escape_spec w c frag -> pass_spec path w c frag.

(** ** States of the automata that the proofs go through *)

(** The automaton of [EatWhitespace] inside a run of spaces. *)
Definition EatWhitespace_spaces : rules loop_action :=
  residual_at 0 (Star (chr " ")) EatWhitespace_rules.

(** The automaton of [ReadToken] inside an identifier that is no keyword and
    no prefix of one. *)
Definition ReadToken_ident : rules token_action :=
  residual_at 12 (Star (Cls varname_char)) ReadToken_rules.

(** The automaton of [ReadToken] inside a comment. *)
Definition ReadToken_comment : rules token_action :=
  residual_at 0 (Cat (Star dot) (chr LF)) ReadToken_rules.

(** The automaton of [ReadEvalString] in the spaces behind a [$]-newline. *)
Definition ReadEvalString_continuation : rules eval_action :=
  residual_at 4 (Star (chr " ")) ReadEvalString_rules.

(** The automaton of [ReadEvalString] inside the name of a [${...}]. *)
Definition ReadEvalString_braced : rules eval_action :=
  residual_at 5 (Cat (Star (Cls varname_char)) (chr "}")) ReadEvalString_rules.

(** The automaton of [ReadEvalString] inside the name of a [$name]. *)
Definition ReadEvalString_simple : rules eval_action :=
  residual_at 6 (Star (Cls simple_varname_char)) ReadEvalString_rules.

(** The automaton of [ReadEvalString] inside a run of plain text. *)
Definition ReadEvalString_raw : rules eval_action :=
  residual_at 0 (Star (Cls raw_char)) ReadEvalString_rules.

(** The automaton of [ReadToken] inside a run of spaces. *)
Definition ReadToken_spaces : rules token_action :=
  residual_at 2 (Star (chr " ")) ReadToken_rules.

(** The automaton of [ReadIdent] inside an identifier. *)
Definition ReadIdent_ident : rules ident_action :=
  residual_at 0 (Star (Cls varname_char)) ReadIdent_rules.

(** * Properties *)

Unset Implicit Arguments.

(** ** The matcher *)

Section MatcherFacts.

Variable A : Type.
Implicit Types (rs : rules A) (s w : list ascii) (acc : option (A * nat)).

Lemma run_cons rs n acc c s :
  run rs n acc (c :: s) =
  if live rs then
    run (step c rs) (S n)
        (match accepting (step c rs) with
         | Some a => Some (a, S n)
         | None => acc
         end) s
  else match acc with
       | Some (a, len) => Matched a len
       | None => Unmatched
       end.
Proof. reflexivity. Qed.

Lemma run_nil rs n acc :
  live rs = true -> run rs n acc [] = PastEnd.
Proof. intros H. simpl. now rewrite H. Qed.

Lemma run_dead rs n acc s :
  live rs = false ->
  run rs n acc s = match acc with
                   | Some (a, len) => Matched a len
                   | None => Unmatched
                   end.
Proof. intros H. destruct s; simpl; now rewrite H. Qed.

(** A run of bytes that keep the automaton in the state it is in. *)
Lemma run_stay (f : ascii -> bool) rs :
  live rs = true ->
  (forall c, f c = true -> step c rs = rs) ->
  forall w s n acc,
    forallb f w = true ->
    run rs n acc (w ++ s) =
    run rs (n + List.length w) (acc_after rs n (List.length w) acc) s.
Proof.
  intros Hlive Hstay w.
  induction w as [|c w IH]; intros s n acc Hw; simpl in Hw.
  - simpl. now rewrite Nat.add_0_r.
  - apply andb_true_iff in Hw as [Hc Hw].
    change ((c :: w) ++ s) with (c :: (w ++ s)).
    rewrite run_cons, Hlive, (Hstay c Hc), (IH s _ _ Hw).
    cbn [List.length].
    replace (S n + List.length w) with (n + S (List.length w)) by lia.
    f_equal.
    unfold acc_after.
    destruct (List.length w) as [|k]; destruct (accepting rs); trivial;
      do 2 f_equal; lia.
Qed.

Lemma run_stay_accepting (f : ascii -> bool) rs a :
  live rs = true ->
  (forall c, f c = true -> step c rs = rs) ->
  accepting rs = Some a ->
  forall w s n,
    forallb f w = true ->
    run rs n (Some (a, n)) (w ++ s) =
    run rs (n + List.length w) (Some (a, n + List.length w)) s.
Proof.
  intros Hlive Hstay Hacc w s n Hw.
  rewrite (run_stay f rs Hlive Hstay _ _ _ _ Hw). f_equal.
  unfold acc_after. rewrite Hacc.
  destruct (List.length w); [now rewrite Nat.add_0_r | reflexivity].
Qed.

Lemma run_stay_silent (f : ascii -> bool) rs :
  live rs = true ->
  (forall c, f c = true -> step c rs = rs) ->
  accepting rs = None ->
  forall w s n acc,
    forallb f w = true ->
    run rs n acc (w ++ s) = run rs (n + List.length w) acc s.
Proof.
  intros Hlive Hstay Hacc w s n acc Hw.
  rewrite (run_stay f rs Hlive Hstay _ _ _ _ Hw). f_equal.
  unfold acc_after. rewrite Hacc. now destruct (List.length w).
Qed.

(** A match is the acceptance on record or a later, longer one: the matcher
    never answers with a length it has not moved beyond. *)
Lemma run_matched rs s : forall n acc a len,
  run rs n acc s = Matched a len ->
  acc = Some (a, len) \/ n < len.
Proof.
  revert rs. induction s as [|c s IH]; intros rs n acc a len H.
  - simpl in H. destruct (live rs); [discriminate|].
    destruct acc as [[a' l']|]; [|discriminate].
    injection H as -> ->. now left.
  - rewrite run_cons in H. destruct (live rs).
    + apply IH in H. destruct (accepting (step c rs)).
      * destruct H as [H|H]; [injection H as -> <-|]; right; lia.
      * destruct H as [H|H]; [now left | right; lia].
    + destruct acc as [[a' l']|]; [|discriminate].
      injection H as -> ->. now left.
Qed.

Lemma scan_progress rs s a len :
  scan rs s = Matched a len -> 0 < len.
Proof.
  unfold scan. intros H. apply run_matched in H as [H|H]; [discriminate|lia].
Qed.

(** The matcher moves inside the memory it was given. *)
Lemma run_bound rs s : forall n acc a len,
  run rs n acc s = Matched a len ->
  acc = Some (a, len) \/ len <= n + List.length s.
Proof.
  revert rs. induction s as [|c s IH]; intros rs n acc a len H.
  - simpl in H. destruct (live rs); [discriminate|].
    destruct acc as [[a' l']|]; [|discriminate].
    injection H as -> ->. now left.
  - rewrite run_cons in H. destruct (live rs).
    + apply IH in H. cbn [List.length]. destruct (accepting (step c rs)).
      * destruct H as [H|H]; [injection H as -> <-|]; right; lia.
      * destruct H as [H|H]; [now left | right; lia].
    + destruct acc as [[a' l']|]; [|discriminate].
      injection H as -> ->. now left.
Qed.

Lemma scan_bound rs s a len :
  scan rs s = Matched a len -> len <= List.length s.
Proof.
  unfold scan. intros H. apply run_bound in H as [H|H]; [discriminate|lia].
Qed.

Lemma nonvoid_cat (x y : re) : nonvoid (cat x y) = nonvoid x && nonvoid y.
Proof.
  destruct x, y; simpl; rewrite ?andb_false_r, ?andb_true_r; reflexivity.
Qed.

Lemma nonvoid_alt (x y : re) : nonvoid (alt x y) = nonvoid x || nonvoid y.
Proof.
  destruct x, y; simpl; rewrite ?orb_false_r, ?orb_true_r; reflexivity.
Qed.

Lemma nullable_nonvoid (r : re) : nullable r = true -> nonvoid r = true.
Proof.
  induction r; simpl; intros H; try congruence.
  - apply andb_true_iff in H as [H1 H2]. now rewrite IHr1, IHr2.
  - apply orb_true_iff in H as [H|H]; [rewrite IHr1 | rewrite IHr2];
      auto using orb_true_r.
Qed.

(** A rule that cannot match stays so. *)
Lemma nonvoid_deriv c (r : re) : nonvoid r = false -> nonvoid (deriv c r) = false.
Proof.
  induction r; simpl; intros H; try congruence.
  - rewrite nonvoid_alt, nonvoid_cat.
    apply andb_false_iff in H as [H|H].
    + rewrite (IHr1 H). simpl.
      destruct (nullable r1) eqn:N; [|reflexivity].
      apply nullable_nonvoid in N. congruence.
    + rewrite H, andb_false_r. simpl.
      destruct (nullable r1); [now apply IHr2 | reflexivity].
  - rewrite nonvoid_alt. apply orb_false_iff in H as [H1 H2].
    now rewrite IHr1, IHr2.
Qed.

Lemma accepting_In rs a :
  accepting rs = Some a -> exists r, In (r, a) rs /\ nullable r = true.
Proof.
  unfold accepting. destruct (find _ rs) as [[r a']|] eqn:F; [|discriminate].
  simpl. intros H. injection H as <-.
  apply find_some in F as [Hin Hn]. now exists r.
Qed.

Lemma step_In c rs r a :
  In (r, a) (step c rs) -> exists r0, In (r0, a) rs /\ r = deriv c r0.
Proof.
  unfold step. intros H. apply in_map_iff in H as ([r0 a0] & E & Hin).
  simpl in E. injection E as <- <-. now exists r0.
Qed.

(** An action all of whose rules cannot match is never the answer, unless it
    was on record before. *)
Lemma run_void_rule a s : forall rs n acc len,
  (forall r, In (r, a) rs -> nonvoid r = false) ->
  run rs n acc s = Matched a len ->
  acc = Some (a, len).
Proof.
  induction s as [|c s IH]; intros rs n acc len Hv H.
  - simpl in H. destruct (live rs); [discriminate|].
    destruct acc as [[a' l']|]; [|discriminate]. now injection H as -> ->.
  - rewrite run_cons in H. destruct (live rs).
    + assert (Hv' : forall r, In (r, a) (step c rs) -> nonvoid r = false).
      { intros r Hin. apply step_In in Hin as (r0 & Hin & ->).
        apply nonvoid_deriv. now apply Hv. }
      apply (IH _ _ _ _ Hv') in H.
      destruct (accepting (step c rs)) as [a'|] eqn:Hacc; [|exact H].
      injection H as -> <-.
      apply accepting_In in Hacc as (r & Hin & Hn).
      apply nullable_nonvoid in Hn. rewrite (Hv' r Hin) in Hn. discriminate.
    + destruct acc as [[a' l']|]; [|discriminate]. now injection H as -> ->.
Qed.

Lemma more_nonvoid (r : re) : more r = true -> nonvoid r = true.
Proof.
  induction r; simpl; intros H; try congruence.
  - apply orb_true_iff in H as [H|H]; apply andb_true_iff in H as [H1 H2].
    + now rewrite IHr1, H2.
    + now rewrite H1, IHr2.
  - apply orb_true_iff in H as [H|H]; [rewrite IHr1 | rewrite IHr2];
      auto using orb_true_r.
Qed.

Lemma more_cat (x y : re) :
  more (cat x y) = (more x && nonvoid y) || (nonvoid x && more y).
Proof.
  destruct x, y; simpl;
    rewrite ?andb_false_r, ?andb_true_r, ?orb_false_r; reflexivity.
Qed.

Lemma more_alt (x y : re) : more (alt x y) = more x || more y.
Proof.
  destruct x, y; simpl; rewrite ?orb_false_r; reflexivity.
Qed.

Lemma nul_free_cat (x y : re) :
  nul_free x = true -> nul_free y = true -> nul_free (cat x y) = true.
Proof. destruct x, y; simpl; intros H1 H2; rewrite ?H1, ?H2; auto. Qed.

Lemma nul_free_alt (x y : re) :
  nul_free x = true -> nul_free y = true -> nul_free (alt x y) = true.
Proof. destruct x, y; simpl; intros H1 H2; rewrite ?H1, ?H2; auto. Qed.

Lemma nul_free_deriv c (r : re) :
  nul_free r = true -> nul_free (deriv c r) = true.
Proof.
  induction r; simpl; intros H; auto.
  - now destruct (p c).
  - apply andb_true_iff in H as [H1 H2].
    apply nul_free_alt; [apply nul_free_cat; auto|].
    destruct (nullable r1); auto.
  - apply andb_true_iff in H as [H1 H2]. apply nul_free_alt; auto.
  - apply nul_free_cat; auto.
Qed.

Lemma nul_free_nul_last (r : re) : nul_free r = true -> nul_last r = true.
Proof.
  induction r; simpl; intros H; auto;
    apply andb_true_iff in H as [H1 H2]; rewrite ?H1; auto.
  now rewrite IHr1, IHr2.
Qed.

Lemma nul_last_cat (x y : re) :
  nul_free x = true -> nul_last y = true -> nul_last (cat x y) = true.
Proof.
  intros H1 H2. pose proof (nul_free_nul_last x H1) as H3.
  destruct x, y; simpl in *; rewrite ?H1, ?H2; auto.
Qed.

Lemma nul_last_alt (x y : re) :
  nul_last x = true -> nul_last y = true -> nul_last (alt x y) = true.
Proof. destruct x, y; simpl; intros H1 H2; rewrite ?H1, ?H2; auto. Qed.

Lemma nul_last_deriv c (r : re) :
  nul_last r = true -> nul_last (deriv c r) = true.
Proof.
  induction r; simpl; intros H; auto.
  - now destruct (p c).
  - apply andb_true_iff in H as [H1 H2].
    apply nul_last_alt; [apply nul_last_cat; auto using nul_free_deriv|].
    destruct (nullable r1); auto.
  - apply andb_true_iff in H as [H1 H2]. apply nul_last_alt; auto.
  - apply nul_last_cat; auto using nul_free_deriv.
Qed.

(** After a NUL, a rule without NUL is dead, and a rule that stops at NUL has
    nothing left to read. *)
Lemma nul_free_deriv_NUL (r : re) :
  nul_free r = true -> nonvoid (deriv NUL r) = false.
Proof.
  induction r; simpl; intros H; auto.
  - apply negb_true_iff in H. now rewrite H.
  - apply andb_true_iff in H as [H1 H2].
    rewrite nonvoid_alt, nonvoid_cat, (IHr1 H1). simpl.
    destruct (nullable r1); auto.
  - apply andb_true_iff in H as [H1 H2].
    now rewrite nonvoid_alt, (IHr1 H1), (IHr2 H2).
  - now rewrite nonvoid_cat, (IHr H).
Qed.

Lemma nonvoid_false_more (r : re) : nonvoid r = false -> more r = false.
Proof.
  intros H. destruct (more r) eqn:M; [|reflexivity].
  apply more_nonvoid in M. congruence.
Qed.

Lemma nul_last_deriv_NUL (r : re) :
  nul_last r = true -> more (deriv NUL r) = false.
Proof.
  induction r; simpl; intros H; auto.
  - now destruct (p NUL).
  - apply andb_true_iff in H as [H1 H2].
    pose proof (nul_free_deriv_NUL r1 H1) as Hv.
    rewrite more_alt, more_cat, Hv, (nonvoid_false_more _ Hv). simpl.
    destruct (nullable r1); auto.
  - apply andb_true_iff in H as [H1 H2].
    now rewrite more_alt, (IHr1 H1), (IHr2 H2).
  - pose proof (nul_free_deriv_NUL r H) as Hv.
    rewrite more_cat, Hv, (nonvoid_false_more _ Hv). reflexivity.
Qed.

Lemma stops_at_NUL_step c rs :
  stops_at_NUL rs -> stops_at_NUL (step c rs).
Proof.
  intros H r a Hin. apply step_In in Hin as (r0 & Hin & ->).
  apply nul_last_deriv. now apply (H r0 a).
Qed.

Lemma stops_at_NUL_dead rs :
  stops_at_NUL rs -> live (step NUL rs) = false.
Proof.
  intros H. unfold live.
  destruct (existsb _ (step NUL rs)) eqn:E; [|reflexivity].
  apply existsb_exists in E as ([r a] & Hin & Hm). simpl in Hm.
  apply step_In in Hin as (r0 & Hin & ->).
  rewrite nul_last_deriv_NUL in Hm; [discriminate | now apply (H r0 a)].
Qed.

(** Rules that stop at a NUL never read behind the NUL that ends the
    memory. *)
Lemma run_terminated t : forall rs n acc,
  stops_at_NUL rs -> run rs n acc (t ++ [NUL]) <> PastEnd.
Proof.
  induction t as [|c t IH]; intros rs n acc Hrs; cbn [List.app];
    rewrite run_cons.
  - destruct (live rs).
    + rewrite run_dead by now apply stops_at_NUL_dead.
      destruct (accepting _); [discriminate|].
      destruct acc as [[a len]|]; discriminate.
    + destruct acc as [[a len]|]; discriminate.
  - destruct (live rs).
    + apply IH. now apply stops_at_NUL_step.
    + destruct acc as [[a len]|]; discriminate.
Qed.

(** With an acceptance on record the matcher answers with a match. *)
Lemma run_accepted s : forall rs n a len,
  run rs n (Some (a, len)) s <> Unmatched.
Proof.
  induction s as [|c s IH]; intros rs n a len.
  - simpl. destruct (live rs); discriminate.
  - rewrite run_cons. destruct (live rs); [|discriminate].
    destruct (accepting (step c rs)); apply IH.
Qed.

(** A block with a catch-all rule has a match for every byte. *)
Lemma scan_catch_all rs a c s :
  In (any, a) rs -> scan rs (c :: s) <> Unmatched.
Proof.
  intros Hin. unfold scan. rewrite run_cons.
  assert (Hlive : live rs = true).
  { unfold live. apply existsb_exists. now exists (any, a). }
  rewrite Hlive.
  destruct (accepting (step c rs)) as [a'|] eqn:Hacc; [apply run_accepted|].
  exfalso. unfold accepting in Hacc.
  destruct (find _ (step c rs)) as [ra|] eqn:F; [discriminate|].
  assert (Hn : nullable (fst (Eps, a)) = false); [|discriminate Hn].
  apply (find_none _ _ F (Eps, a)).
  unfold step. apply in_map_iff. now exists (any, a).
Qed.

Lemma deriv_word_cons c w (r : re) :
  deriv_word (c :: w) r = deriv_word w (deriv c r).
Proof. reflexivity. Qed.

(** The answer of the matcher is a match of one of its rules. *)
Lemma run_sound s : forall rs n acc a len,
  run rs n acc s = Matched a len ->
  acc = Some (a, len)
  \/ (n < len /\ len <= n + List.length s
      /\ exists r, In (r, a) rs
                   /\ nullable (deriv_word (firstn (len - n) s) r) = true).
Proof.
  induction s as [|c s IH]; intros rs n acc a len H.
  - simpl in H. destruct (live rs); [discriminate|].
    destruct acc as [[a' l']|]; [|discriminate].
    injection H as -> ->. now left.
  - rewrite run_cons in H. destruct (live rs).
    + apply IH in H. cbn [List.length].
      destruct H as [H|(Hn & Hl & r & Hin & Hr)].
      * destruct (accepting (step c rs)) as [a'|] eqn:Hacc; [|now left].
        injection H as -> <-. right.
        apply accepting_In in Hacc as (r & Hin & Hr).
        apply step_In in Hin as (r0 & Hin & ->).
        split; [lia|]. split; [lia|]. exists r0. split; [exact Hin|].
        replace (S n - n) with 1 by lia. exact Hr.
      * right. apply step_In in Hin as (r0 & Hin & ->).
        split; [lia|]. split; [lia|]. exists r0. split; [exact Hin|].
        replace (len - n) with (S (len - S n)) by lia. exact Hr.
    + destruct acc as [[a' l']|]; [|discriminate].
      injection H as -> ->. now left.
Qed.

Lemma nonvoid_deriv_word w : forall (r : re),
  nonvoid r = false -> nonvoid (deriv_word w r) = false.
Proof.
  induction w as [|c w IH]; intros r H; [exact H|].
  rewrite deriv_word_cons. apply IH. now apply nonvoid_deriv.
Qed.

Lemma nul_free_deriv_word w : forall (r : re),
  nul_free r = true -> In NUL w -> nonvoid (deriv_word w r) = false.
Proof.
  induction w as [|c w IH]; intros r Hr Hin; [contradiction|].
  rewrite deriv_word_cons. destruct Hin as [->|Hin].
  - apply nonvoid_deriv_word. now apply nul_free_deriv_NUL.
  - apply IH; [now apply nul_free_deriv | exact Hin].
Qed.

(** A match by rules without NUL ends before the NUL that ends the memory. *)
Lemma scan_before_NUL rs t a len :
  scan rs (t ++ [NUL]) = Matched a len ->
  (forall r, In (r, a) rs -> nul_free r = true) ->
  len <= List.length t.
Proof.
  unfold scan. intros H Hfree.
  apply run_sound in H as [H|(_ & Hl & r & Hin & Hr)]; [discriminate|].
  rewrite length_app in Hl. cbn in Hl.
  destruct (Nat.eq_dec len (S (List.length t))) as [->|]; [exfalso|lia].
  rewrite Nat.sub_0_r in Hr.
  replace (S (List.length t)) with (List.length (t ++ [NUL])) in Hr
    by (rewrite length_app; simpl; lia).
  rewrite firstn_all in Hr. apply nullable_nonvoid in Hr.
  rewrite nul_free_deriv_word in Hr; [discriminate | now apply Hfree |].
  apply in_or_app. right. now left.
Qed.

Lemma nullable_deriv_word_Cls w p :
  nullable (deriv_word w (Cls p)) = true -> List.length w = 1.
Proof.
  destruct w as [|c [|c' w]]; [discriminate | reflexivity |].
  rewrite !deriv_word_cons. intros H. apply nullable_nonvoid in H.
  rewrite nonvoid_deriv_word in H; [discriminate|].
  simpl. now destruct (p c).
Qed.

(** A match of a catch-all rule is one byte long. *)
Lemma scan_any_length rs s a len :
  scan rs s = Matched a len ->
  (forall r, In (r, a) rs -> r = any) ->
  len = 1.
Proof.
  unfold scan. intros H Hany.
  apply run_sound in H as [H|(_ & Hl & r & Hin & Hr)]; [discriminate|].
  rewrite (Hany r Hin) in Hr. apply nullable_deriv_word_Cls in Hr.
  rewrite length_firstn in Hr. lia.
Qed.

End MatcherFacts.

(** ** Memory *)

Lemma skipn_nth_error (input : list ascii) p c :
  nth_error input p = Some c -> skipn p input = c :: skipn (S p) input.
Proof.
  revert input. induction p as [|p IH]; intros [|x input] H; try discriminate.
  - injection H as ->. reflexivity.
  - simpl in H. apply IH in H. exact H.
Qed.

Lemma skipn_cons_nth_error (input : list ascii) p c s :
  skipn p input = c :: s -> nth_error input p = Some c /\ skipn (S p) input = s.
Proof.
  revert input. induction p as [|p IH]; intros [|x input] H; try discriminate.
  - injection H as -> ->. now split.
  - apply (IH input H).
Qed.

Lemma skipn_app_skipn (input : list ascii) p w s :
  skipn p input = w ++ s -> skipn (p + List.length w) input = s.
Proof.
  intros H. rewrite Nat.add_comm, <- skipn_skipn, H.
  rewrite skipn_app, skipn_all, Nat.sub_diag. reflexivity.
Qed.

Lemma piece_app (input : list ascii) p w s :
  skipn p input = w ++ s -> piece input p (List.length w) = string_of_list_ascii w.
Proof.
  intros H. unfold piece. rewrite H, firstn_app, firstn_all, Nat.sub_diag.
  simpl. now rewrite app_nil_r.
Qed.

Lemma span_len_app (f : ascii -> bool) w c s :
  forallb f w = true -> f c = false -> span_len f (w ++ c :: s) = List.length w.
Proof.
  intros Hw Hc. induction w as [|x w IH]; simpl in *.
  - now rewrite Hc.
  - apply andb_true_iff in Hw as [-> Hw]. now rewrite IH.
Qed.

Lemma span_split (f : ascii -> bool) s :
  (exists c, In c s /\ f c = false) ->
  exists w c r, s = w ++ c :: r /\ forallb f w = true /\ f c = false.
Proof.
  intros (c & Hin & Hc). induction s as [|x s IH]; [contradiction|].
  destruct (f x) eqn:Hx.
  - destruct Hin as [->|Hin]; [congruence|].
    destruct (IH Hin) as (w & c' & r & -> & Hw & Hc').
    exists (x :: w), c', r. simpl. now rewrite Hx, Hw.
  - now exists [], x, s.
Qed.

Lemma terminated_split (f : ascii -> bool) t :
  f NUL = false ->
  exists w c r t', t ++ [NUL] = w ++ c :: r /\ forallb f w = true /\ f c = false
                /\ c :: r = t' ++ [NUL] /\ List.length w + List.length t' = List.length t.
Proof.
  intros HN. induction t as [|x t IH].
  - exists [], NUL, [], []. simpl. auto.
  - destruct (f x) eqn:Hx.
    + destruct IH as (w & c & r & t' & E & Hw & Hc & Et & Hl).
      exists (x :: w), c, r, t'. simpl. rewrite E, Hx, Hw. repeat split; auto.
    + exists [], x, (t ++ [NUL]), (x :: t). simpl. repeat split; auto.
Qed.

Lemma skipn_length_le (input : list ascii) p s :
  skipn p input = s -> List.length s <= List.length input.
Proof. intros <-. rewrite length_skipn. lia. Qed.

Lemma set_ofs_set_ofs l p q : set_ofs (set_ofs l p) q = set_ofs l q.
Proof. reflexivity. Qed.

(** ** Evaluating the matcher on bytes that are known in part *)

Local Arguments Ascii.eqb !a !b.
Local Arguments varname_char !c /.
Local Arguments simple_varname_char !c /.
Local Arguments raw_char !c /.
Local Arguments separator_char !c /.
Local Arguments is_space !c /.
Local Arguments not_LF !c /.
Local Arguments in_range !lo !hi !c /.

Ltac eval_run := cbn -[run Nat.add].
Ltac step_run := cbn [List.app]; rewrite run_cons; eval_run.
Ltac stop_run := rewrite run_dead by reflexivity; eval_run.

(** ** EatWhitespace *)

Lemma EatWhitespace_spaces_stay c :
  is_space c = true -> step c EatWhitespace_spaces = EatWhitespace_spaces.
Proof.
  unfold is_space. intros H. eval_run. now rewrite H.
Qed.

Lemma scan_EatWhitespace_space w c rest :
  forallb is_space w = true -> is_space c = false ->
  scan EatWhitespace_rules (" "%char :: w ++ c :: rest)
  = Matched Continue (S (List.length w)).
Proof.
  intros Hw Hc. unfold scan. step_run.
  destruct w as [|x w].
  - step_run. unfold is_space in Hc. rewrite Hc. now stop_run.
  - simpl in Hw. apply andb_true_iff in Hw as [Hx Hw].
    step_run. unfold is_space in Hx, Hc. rewrite Hx. eval_run.
    change [(Star (chr " "), Continue); (Void, Continue); (Void, Break)]
      with EatWhitespace_spaces.
    rewrite (run_stay_accepting _ is_space EatWhitespace_spaces Continue
               eq_refl EatWhitespace_spaces_stay eq_refl _ _ _ Hw).
    step_run. rewrite Hc. now stop_run.
Qed.

Lemma scan_EatWhitespace_continuation rest :
  scan EatWhitespace_rules ("$"%char :: LF :: rest) = Matched Continue 2.
Proof. unfold scan. step_run. step_run. now stop_run. Qed.

Lemma scan_EatWhitespace_dollar c rest :
  Ascii.eqb LF c = false ->
  scan EatWhitespace_rules ("$"%char :: c :: rest) = Matched Break 1.
Proof.
  intros Hc. unfold scan. step_run. step_run. unfold LF in Hc.
  rewrite Hc. now stop_run.
Qed.

Lemma scan_EatWhitespace_other c rest :
  Ascii.eqb " " c = false -> Ascii.eqb "$" c = false ->
  scan EatWhitespace_rules (c :: rest) = Matched Break 1.
Proof.
  intros H1 H2. unfold scan. step_run. rewrite H1, H2. eval_run. now stop_run.
Qed.

(** On a buffer that ends with its NUL, [EatWhitespace] returns, with the
    cursor moved forward inside the buffer and nothing else changed. *)
Lemma EatWhitespace_loop_terminated fuel : forall l p t,
  skipn p (input_ l) = t ++ [NUL] ->
  List.length t < fuel ->
  exists p', EatWhitespace_loop fuel l p = Done (set_ofs l p')
             /\ p <= p' <= p + List.length t.
Proof.
  induction fuel as [|fuel IH]; intros l p t Hs Hf; [lia|].
  cbn [EatWhitespace_loop]. cbn [set_ofs input_]. rewrite Hs.
  destruct t as [|c t].
  - cbn [List.app]. rewrite scan_EatWhitespace_other by reflexivity.
    exists p. split; [reflexivity | lia].
  - cbn [List.app List.length] in *.
    destruct (Ascii.eqb " " c) eqn:Esp.
    + apply Ascii.eqb_eq in Esp. subst c.
      destruct (terminated_split is_space t eq_refl)
        as (w & c & r & t' & E & Hw & Hc & Et & Hl).
      rewrite E, scan_EatWhitespace_space by assumption.
      destruct (IH (set_ofs l p) (p + S (List.length w)) t') as (p' & Hp' & Hb).
      * cbn [set_ofs input_]. rewrite <- Et.
        apply (skipn_app_skipn (input_ l) p (" "%char :: w)).
        cbn [List.app]. now rewrite Hs, E.
      * lia.
      * exists p'. rewrite Hp', set_ofs_set_ofs. split; [reflexivity | lia].
    + destruct (Ascii.eqb "$" c) eqn:Edl.
      * apply Ascii.eqb_eq in Edl. subst c.
        destruct t as [|c t].
        -- cbn [List.app]. rewrite scan_EatWhitespace_dollar by reflexivity.
           exists p. split; [reflexivity | lia].
        -- cbn [List.app List.length] in *.
           destruct (Ascii.eqb LF c) eqn:Elf.
           ++ apply Ascii.eqb_eq in Elf. subst c.
              rewrite scan_EatWhitespace_continuation.
              destruct (IH (set_ofs l p) (p + 2) t) as (p' & Hp' & Hb).
              ** cbn [set_ofs input_].
                 apply (skipn_app_skipn (input_ l) p ["$"%char; LF]).
                 now rewrite Hs.
              ** lia.
              ** exists p'. rewrite Hp', set_ofs_set_ofs.
                 split; [reflexivity | lia].
           ++ rewrite scan_EatWhitespace_dollar by assumption.
              exists p. split; [reflexivity | lia].
      * rewrite scan_EatWhitespace_other by assumption.
        exists p. split; [reflexivity | lia].
Qed.

Lemma EatWhitespace_terminated l t :
  skipn (ofs_ l) (input_ l) = t ++ [NUL] ->
  exists p', EatWhitespace l = Done (set_ofs l p')
             /\ ofs_ l <= p' <= ofs_ l + List.length t.
Proof.
  intros Hs. apply EatWhitespace_loop_terminated; [exact Hs|].
  unfold fuel_of. apply skipn_length_le in Hs.
  rewrite length_app in Hs. simpl in Hs. lia.
Qed.

(** ** ReadToken *)

Lemma terminated_tail c rest :
  terminated (c :: rest) -> c <> NUL -> terminated rest.
Proof.
  intros [[|x t] E] Hc; simpl in E.
  - injection E as -> _. contradiction.
  - injection E as _ ->. now exists t.
Qed.

Lemma ReadToken_ident_stay c :
  varname_char c = true -> step c ReadToken_ident = ReadToken_ident.
Proof. intros H. eval_run. now rewrite H. Qed.

Lemma run_ReadToken_ident s n :
  terminated s ->
  run ReadToken_ident n (Some (Emit IDENT, n)) s
  = Matched (Emit IDENT) (n + span_len varname_char s).
Proof.
  intros [t ->].
  destruct (terminated_split varname_char t eq_refl)
    as (w & c & r & t' & E & Hw & Hc & _ & _).
  rewrite E, span_len_app by assumption.
  rewrite (run_stay_accepting _ varname_char ReadToken_ident (Emit IDENT)
             eq_refl ReadToken_ident_stay eq_refl _ _ _ Hw).
  step_run. rewrite Hc. now stop_run.
Qed.

Lemma scan_keyword kw k c rest :
  In (kw, k) keywords ->
  terminated (c :: rest) ->
  scan ReadToken_rules (list_ascii_of_string kw ++ c :: rest)
  = Matched (Emit (if varname_char c then IDENT else k))
            (String.length kw + span_len varname_char (c :: rest)).
Proof.
  intros Hin Ht.
  assert (Hrest : varname_char c = true -> terminated rest).
  { intros Hc. apply (terminated_tail c); [exact Ht|]. now intros ->. }
  cbn [span_len].
  simpl in Hin.
  repeat (destruct Hin as [Hin|Hin]; [injection Hin as <- <-|]);
    try contradiction;
    unfold scan; cbn [list_ascii_of_string String.length];
    destruct (varname_char c) eqn:Hc;
    repeat step_run; rewrite ?Hc; eval_run.
  all: try (now stop_run).
  all: etransitivity;
    [apply (run_ReadToken_ident rest _ (Hrest eq_refl)) | f_equal; lia].
Qed.

Lemma skipn_span_terminated (f : ascii -> bool) s :
  terminated s -> f NUL = false -> terminated (skipn (span_len f s) s).
Proof.
  intros [t ->] HN.
  destruct (terminated_split f t HN) as (w & c & r & t' & E & Hw & Hc & Et & _).
  rewrite E, span_len_app by assumption.
  rewrite skipn_app, skipn_all, Nat.sub_diag. simpl. rewrite Et. now exists t'.
Qed.

Lemma skipn_add (input : list ascii) p n s :
  skipn p input = s -> skipn (p + n) input = skipn n s.
Proof. intros <-. now rewrite skipn_skipn, Nat.add_comm. Qed.

Lemma keyword_token kw k :
  In (kw, k) keywords ->
  negb (Token_eqb k NEWLINE) && negb (Token_eqb k TEOF) = true.
Proof.
  simpl. intros H.
  repeat (destruct H as [H|H]; [now injection H as <- <-|]). contradiction.
Qed.

(** What [ReadToken] does after the loop, when the token is neither NEWLINE
    nor TEOF and the buffer is terminated. *)
Lemma ReadToken_after_loop l token start p :
  ReadToken_loop (fuel_of (input_ l)) (input_ l) (ofs_ l) = Done (token, start, p) ->
  negb (Token_eqb token NEWLINE) && negb (Token_eqb token TEOF) = true ->
  terminated (skipn p (input_ l)) ->
  exists l', ReadToken l = Done (token, l')
             /\ last_token_ l' = Some start /\ p <= ofs_ l'
             /\ input_ l' = input_ l /\ filename_ l' = filename_ l.
Proof.
  intros Hloop Htok [t Ht]. unfold ReadToken. rewrite Hloop. cbn [bind].
  rewrite Htok.
  destruct (EatWhitespace_terminated (set_ofs (set_last_token l start) p) t Ht)
    as (p' & -> & Hp').
  cbn [bind]. eexists. split; [reflexivity|]. cbn in *. repeat split; lia.
Qed.

(** C3.  [ReadToken] classifies the keywords [build], [rule], [default],
    [include] and [subninja] by the maximal-munch rule of identifiers.  With
    the cursor on a keyword in a NUL-terminated buffer: if the byte after the
    keyword is no identifier byte (letter, digit, underscore, dot), the
    token is the keyword's kind and spans the keyword; if it is an identifier
    byte, the token is one IDENT that spans the whole run of identifier
    bytes (so "builder" is one IDENT, not BUILD and then IDENT). *)
Theorem ReadToken_keyword_maximal_munch kw k l c rest :
  In (kw, k) keywords ->
  skipn (ofs_ l) (input_ l) = list_ascii_of_string kw ++ c :: rest ->
  terminated (c :: rest) ->
  let start := ofs_ l in
  (varname_char c = false ->
     ReadToken_loop (fuel_of (input_ l)) (input_ l) start
     = Done (k, start, start + String.length kw)
     /\ exists l', ReadToken l = Done (k, l')
                   /\ last_token_ l' = Some start
                   /\ start + String.length kw <= ofs_ l')
  /\
  (varname_char c = true ->
     let stop := start + String.length kw + span_len varname_char (c :: rest) in
     ReadToken_loop (fuel_of (input_ l)) (input_ l) start
     = Done (IDENT, start, stop)
     /\ exists l', ReadToken l = Done (IDENT, l')
                   /\ last_token_ l' = Some start
                   /\ stop <= ofs_ l').
Proof.
  intros Hin Hs Ht start.
  assert (Hloop :
    ReadToken_loop (fuel_of (input_ l)) (input_ l) start
    = Done (if varname_char c then IDENT else k, start,
            start + (String.length kw + span_len varname_char (c :: rest)))).
  { unfold fuel_of. cbn [ReadToken_loop]. subst start.
    now rewrite Hs, (scan_keyword kw k c rest Hin Ht). }
  assert (Hlen : List.length (list_ascii_of_string kw) = String.length kw).
  { clear. induction kw; simpl; congruence. }
  assert (Hterm : terminated
            (skipn (start + (String.length kw + span_len varname_char (c :: rest)))
                   (input_ l))).
  { rewrite Nat.add_assoc, <- Hlen.
    rewrite (skipn_add (input_ l) _ _ (c :: rest)).
    - now apply skipn_span_terminated.
    - now apply skipn_app_skipn. }
  split; intros Hc; rewrite Hc in Hloop.
  - cbn [span_len] in Hloop, Hterm. rewrite Hc in Hloop, Hterm.
    rewrite Nat.add_0_r in Hloop, Hterm. split; [exact Hloop|].
    destruct (ReadToken_after_loop l _ _ _ Hloop (keyword_token kw k Hin) Hterm)
      as (l' & H1 & H2 & H3 & _).
    now exists l'.
  - intros stop. subst stop. rewrite <- Nat.add_assoc. split; [exact Hloop|].
    destruct (ReadToken_after_loop l _ _ _ Hloop eq_refl Hterm)
      as (l' & H1 & H2 & H3 & _).
    now exists l'.
Qed.

Lemma ReadToken_keyword_maximal_munch_witness :
  (exists l', ReadToken (new_Lexer "build x") = Done (BUILD, l')
              /\ last_token_ l' = Some 0 /\ 5 <= ofs_ l')
  /\
  (exists l', ReadToken (new_Lexer "builder") = Done (IDENT, l')
              /\ last_token_ l' = Some 0 /\ 7 <= ofs_ l').
Proof.
  split.
  - apply (ReadToken_keyword_maximal_munch "build" BUILD (new_Lexer "build x")
             " "%char ["x"%char; NUL]).
    + simpl. auto.
    + reflexivity.
    + now exists [" "%char; "x"%char].
    + reflexivity.
  - apply (ReadToken_keyword_maximal_munch "build" BUILD (new_Lexer "builder")
             "e"%char ["r"%char; NUL]).
    + simpl. auto.
    + reflexivity.
    + now exists ["e"%char; "r"%char].
    + reflexivity.
Defined.

(** ** A comment that meets the end of the buffer *)

Lemma not_LF_sym c : not_LF c = true -> Ascii.eqb LF c = false.
Proof.
  unfold not_LF, LF. rewrite Ascii.eqb_sym. now destruct (Ascii.eqb _ c).
Qed.

Lemma ReadToken_comment_stay c :
  not_LF c = true -> step c ReadToken_comment = ReadToken_comment.
Proof.
  intros H. pose proof (not_LF_sym c H) as H'. unfold LF in H'.
  eval_run. now rewrite H, H'.
Qed.

(** The comment rule lets [.] match the terminating NUL as well: unless a
    newline comes first, the automaton is still reading when the memory of
    the buffer ends. *)
Lemma scan_unterminated_comment s :
  forallb not_LF s = true ->
  scan ReadToken_rules ("#"%char :: s) = PastEnd.
Proof.
  intros Hs. unfold scan. step_run.
  destruct s as [|c s]; [reflexivity|].
  simpl in Hs. apply andb_true_iff in Hs as [Hc Hs].
  pose proof (not_LF_sym c Hc) as Hc'. unfold LF in Hc'.
  step_run. rewrite Hc, Hc'. eval_run.
  rewrite <- (app_nil_r s).
  change (run ?rs 2 ?a (s ++ [])) with (run ReadToken_comment 2 a (s ++ [])).
  rewrite (run_stay_silent _ not_LF ReadToken_comment eq_refl
             ReadToken_comment_stay eq_refl _ _ _ _ Hs).
  reflexivity.
Qed.

Lemma ReadToken_unterminated_comment l s :
  skipn (ofs_ l) (input_ l) = "#"%char :: s ->
  forallb not_LF s = true ->
  ReadToken l = OutOfBounds.
Proof.
  intros Hl Hs. unfold ReadToken, fuel_of. cbn [ReadToken_loop].
  now rewrite Hl, scan_unterminated_comment.
Qed.

Lemma ReadToken_loop_unterminated_comment fuel input p s :
  skipn p input = "#"%char :: s ->
  forallb not_LF s = true ->
  ReadToken_loop (S fuel) input p = OutOfBounds.
Proof.
  intros Hi Hs. cbn [ReadToken_loop].
  now rewrite Hi, scan_unterminated_comment.
Qed.

(** C10.  On the buffer ["# foo"], a comment without a newline before the
    terminating NUL, [ReadToken] returns no ERROR token (and no token at
    all): the comment rule runs over the NUL and the scanner reads outside
    the buffer.  With the newline present the comment is skipped and the
    next token is returned. *)
Theorem ReadToken_comment_at_end_of_buffer :
  ReadToken (new_Lexer "# foo") = OutOfBounds
  /\ exists l', ReadToken (new_Lexer ("# foo" ++ String LF ""))
                = Done (TEOF, l') /\ last_token_ l' = Some 6.
Proof.
  split.
  - apply (ReadToken_unterminated_comment _ (list_ascii_of_string " foo" ++ [NUL]));
      reflexivity.
  - eexists. split; reflexivity.
Qed.

(** C9.  The loop of [ReadToken] on the buffer ["# foo"]: however many
    iterations are allowed, the first one neither moves the cursor forward
    nor leaves the loop with a token; it reads outside the buffer. *)
Theorem ReadToken_loop_leaves_the_buffer :
  forall fuel,
    ReadToken_loop (S fuel) (input_ (new_Lexer "# foo")) 0 = OutOfBounds.
Proof.
  intros fuel.
  apply (ReadToken_loop_unterminated_comment
           fuel _ 0 (list_ascii_of_string " foo" ++ [NUL])); reflexivity.
Qed.

(** ** The end of the input *)

Lemma scan_ReadToken_NUL rest :
  scan ReadToken_rules (NUL :: rest) = Matched (Emit TEOF) 1.
Proof. unfold scan. step_run. now stop_run. Qed.

Lemma ReadToken_at_NUL l :
  nth_error (input_ l) (ofs_ l) = Some NUL ->
  ReadToken l
  = Done (TEOF, set_ofs (set_last_token l (ofs_ l)) (ofs_ l + 1)).
Proof.
  intros H. apply skipn_nth_error in H.
  unfold ReadToken, fuel_of. cbn [ReadToken_loop].
  now rewrite H, scan_ReadToken_NUL.
Qed.

(** C8, the claim as it stands fails: on the empty input the call after the
    one that returned EOF reads outside the buffer. *)
Lemma ReadToken_twice_at_EOF_counterexample :
  exists l1, ReadToken (new_Lexer "") = Done (TEOF, l1)
             /\ ofs_ l1 = 1
             /\ ReadToken l1 = OutOfBounds
             /\ forall l2, ReadToken l1 <> Done (TEOF, l2).
Proof.
  eexists. split; [reflexivity|]. split; [reflexivity|].
  split; [reflexivity|]. intros l2. discriminate.
Qed.

(** C8, amended.  With the cursor on the terminating NUL, [ReadToken] returns
    TEOF, records the offset of the NUL in [last_token_] and leaves the
    cursor one byte past it.  After [UnreadToken] the next [ReadToken]
    returns TEOF again, in the same state as before, and so on for any
    number of rounds; without it, when the NUL is the last byte of the
    buffer, the next [ReadToken] reads outside the buffer. *)
Theorem ReadToken_EOF_again l :
  nth_error (input_ l) (ofs_ l) = Some NUL ->
  exists l1,
    ReadToken l = Done (TEOF, l1)
    /\ last_token_ l1 = Some (ofs_ l) /\ ofs_ l1 = ofs_ l + 1
    /\ (exists l2, UnreadToken l1 = Some l2 /\ ofs_ l2 = ofs_ l
                   /\ ReadToken l2 = Done (TEOF, l1))
    /\ (ofs_ l + 1 = List.length (input_ l) -> ReadToken l1 = OutOfBounds).
Proof.
  intros H. eexists. split; [apply (ReadToken_at_NUL l H)|].
  split; [reflexivity|]. split; [reflexivity|]. split.
  - eexists. split; [reflexivity|]. split; [reflexivity|].
    now rewrite ReadToken_at_NUL.
  - intros Hlen. unfold ReadToken, fuel_of. cbn [ReadToken_loop].
    cbn [set_ofs set_last_token input_ ofs_]. rewrite Hlen, skipn_all.
    reflexivity.
Qed.

Lemma ReadToken_EOF_again_witness :
  exists l1,
    ReadToken (new_Lexer "x") = Done (IDENT, l1)
    /\ exists l2, ReadToken l1 = Done (TEOF, l2)
                  /\ last_token_ l2 = Some 1 /\ ofs_ l2 = 2
                  /\ (exists l3, UnreadToken l2 = Some l3 /\ ofs_ l3 = 1
                                 /\ ReadToken l3 = Done (TEOF, l2))
                  /\ (1 + 1 = 2 -> ReadToken l2 = OutOfBounds).
Proof.
  eexists. split; [reflexivity|].
  apply (ReadToken_EOF_again
           (set_ofs (set_ofs (set_last_token (new_Lexer "x") 0) 1) 1)).
  reflexivity.
Defined.

(** ** Diagnostics *)

Lemma int_of_Z_small z :
  (-2147483648 <= z < 2147483648)%Z -> int_of_Z z = z.
Proof.
  intros H. unfold int_of_Z.
  rewrite Z.mod_small by lia. lia.
Qed.

Lemma int_of_Z_add_l a b : int_of_Z (int_of_Z a + b) = int_of_Z (a + b).
Proof.
  unfold int_of_Z. f_equal.
  replace ((a + 2147483648) mod 4294967296 - 2147483648 + b + 2147483648)%Z
    with ((a + 2147483648) mod 4294967296 + b)%Z by lia.
  rewrite Zplus_mod_idemp_l. f_equal. lia.
Qed.

Lemma int_of_Z_idem z : int_of_Z (int_of_Z z) = int_of_Z z.
Proof.
  rewrite <- (Z.add_0_r (int_of_Z z)) at 1.
  rewrite int_of_Z_add_l. now rewrite Z.add_0_r.
Qed.

(** The first loop of [Error]: the line has grown by the number of newlines,
    as an [int], and [context] is behind the last of them. *)
Lemma line_and_context_spec bytes : forall p line context,
  int_of_Z line = line ->
  exists context',
    line_and_context bytes p line context
    = (int_of_Z (line + Z.of_nat (newlines bytes)), context')
    /\ ((context' = context /\ newlines bytes = 0)
        \/ (p < context' <= p + List.length bytes
            /\ nth_error bytes (context' - p - 1) = Some LF
            /\ newlines (skipn (context' - p) bytes) = 0)).
Proof.
  induction bytes as [|c bytes IH]; intros p line context Hline;
    cbn [line_and_context newlines List.length].
  - exists context. cbn [Z.of_nat]. rewrite Z.add_0_r, Hline. auto.
  - destruct (Ascii.eqb c LF) eqn:Hc.
    + apply Ascii.eqb_eq in Hc. subst c.
      destruct (IH (S p) (int_of_Z (line + 1)) (S p) (int_of_Z_idem _))
        as (k & -> & H).
      exists k. split.
      { rewrite int_of_Z_add_l. do 2 f_equal. lia. }
      right. destruct H as [[-> H0]|(Hk & Hn & H0)].
      * replace (S p - p - 1) with 0 by lia. replace (S p - p) with 1 by lia.
        repeat split; try lia. exact H0.
      * replace (k - p - 1) with (S (k - S p - 1)) by lia.
        replace (k - p) with (S (k - S p)) by lia.
        repeat split; try lia; assumption.
    + destruct (IH (S p) line context Hline) as (k & -> & H). exists k.
      split; [reflexivity|].
      destruct H as [[-> H0]|(Hk & Hn & H0)]; [now left | right].
      replace (k - p - 1) with (S (k - S p - 1)) by lia.
      replace (k - p) with (S (k - S p)) by lia.
      repeat split; try lia; assumption.
Qed.

(** The line is one more than the number of newlines before the position;
    the column is the distance from the line start, which is the start of
    the buffer or the byte behind the last newline before the position;
    both are [int]s. *)
Lemma position_spec l t :
  last_token_ l = Some t ->
  t <= List.length (input_ l) ->
  exists context,
    position l
    = Done (int_of_Z (1 + Z.of_nat (newlines (firstn t (input_ l)))),
            context, int_of_Z (Z.of_nat t - Z.of_nat context))
    /\ context <= t
    /\ (context = 0 \/ nth_error (input_ l) (context - 1) = Some LF)
    /\ newlines (firstn (t - context) (skipn context (input_ l))) = 0.
Proof.
  intros Ht Hlen. unfold position. rewrite Ht.
  destruct (Nat.leb_spec t (List.length (input_ l))); [|lia].
  destruct (line_and_context_spec (firstn t (input_ l)) 0 1%Z 0 eq_refl)
    as (k & -> & Hk).
  rewrite length_firstn, Nat.min_l in Hk by lia.
  exists k. split; [reflexivity|].
  destruct Hk as [[-> H0]|(Hk & Hn & H0)].
  - rewrite Nat.sub_0_r. cbn [skipn]. auto with arith.
  - rewrite Nat.sub_0_r in *. repeat split; [lia| |].
    + right. rewrite <- (firstn_skipn t (input_ l)).
      rewrite nth_error_app1; [exact Hn|].
      rewrite length_firstn. lia.
    + rewrite firstn_skipn_comm. now replace (k + (t - k)) with t by lia.
Qed.

Lemma newlines_le bytes : newlines bytes <= List.length bytes.
Proof.
  induction bytes as [|c bytes IH]; cbn [newlines List.length]; [lia|].
  destruct (Ascii.eqb c LF); lia.
Qed.

(** C6, the claim as it stands fails: at the "b" of "barbaz" the column is
    0 and the message has no context line and no caret. *)
Lemma Error_column_0_counterexample :
  exists err,
    Error (set_last_token (new_Lexer foo_barbaz) 4) "lexing error"
    = Done (false, err)
    /\ String.index 0 "barbaz" err = None
    /\ String.index 0 "^" err = None.
Proof. eexists. repeat split. Qed.

(** C6, amended.  [Error] takes as line one more than the number of newline
    bytes strictly before the position, and as column the offset of the
    position from the start of its line, both as [int]s: they are these very
    numbers for every position below 2^31 - 1.  For the input "foo\nbarbaz\n"
    and a failure at the "b" of "barbaz" (offset 4) this is line 2, the line
    start at offset 4 and column 0; the column not being above 0, the
    message is the single line "input:2: <message>" with neither the context
    "barbaz" nor a caret.  One byte further (offset 5, column 1) the message
    carries the context "barbaz" and a caret line with the caret under
    column 1. *)
Theorem Error_foo_barbaz message :
  (forall l t,
     last_token_ l = Some t -> t <= List.length (input_ l) ->
     exists context,
       position l
       = Done (int_of_Z (1 + Z.of_nat (newlines (firstn t (input_ l)))),
               context, int_of_Z (Z.of_nat t - Z.of_nat context))
       /\ context <= t
       /\ (context = 0 \/ nth_error (input_ l) (context - 1) = Some LF)
       /\ newlines (firstn (t - context) (skipn context (input_ l))) = 0
       /\ ((Z.of_nat t < 2147483647)%Z ->
           position l
           = Done (Z.of_nat (1 + newlines (firstn t (input_ l))),
                   context, Z.of_nat (t - context))))
  /\ position (set_last_token (new_Lexer foo_barbaz) 4) = Done (2%Z, 4, 0%Z)
  /\ Error (set_last_token (new_Lexer foo_barbaz) 4) message
     = Done (false, ("input:2: " ++ (message ++ String LF ""))%string)
  /\ position (set_last_token (new_Lexer foo_barbaz) 5) = Done (2%Z, 4, 1%Z)
  /\ Error (set_last_token (new_Lexer foo_barbaz) 5) message
     = Done (false,
             ("input:2: " ++ (message ++ String LF "")
              ++ "barbaz" ++ String LF (" ^" ++ String LF ""))%string).
Proof.
  split; [|repeat split].
  intros l t Ht Hlen.
  destruct (position_spec l t Ht Hlen) as (context & Hp & Hc & Hs & Hn).
  exists context. repeat split; try assumption.
  intros Hsmall. rewrite Hp.
  pose proof (newlines_le (firstn t (input_ l))) as Hnl.
  rewrite length_firstn in Hnl.
  rewrite !int_of_Z_small by lia.
  do 3 f_equal; lia.
Qed.

Lemma Error_foo_barbaz_witness :
  exists context,
    position (set_last_token (new_Lexer foo_barbaz) 4)
    = Done (int_of_Z
              (1 + Z.of_nat (newlines (firstn 4 (input_ (new_Lexer foo_barbaz))))),
            context, int_of_Z (Z.of_nat 4 - Z.of_nat context))
    /\ context <= 4
    /\ (context = 0
        \/ nth_error (input_ (new_Lexer foo_barbaz)) (context - 1) = Some LF)
    /\ newlines (firstn (4 - context)
                   (skipn context (input_ (new_Lexer foo_barbaz)))) = 0
    /\ ((Z.of_nat 4 < 2147483647)%Z ->
        position (set_last_token (new_Lexer foo_barbaz) 4)
        = Done (Z.of_nat (1 + newlines (firstn 4 (input_ (new_Lexer foo_barbaz)))),
                context, Z.of_nat (4 - context))).
Proof.
  apply (proj1 (Error_foo_barbaz "lexing error")
           (set_last_token (new_Lexer foo_barbaz) 4) 4).
  - reflexivity.
  - simpl. lia.
Defined.

(** ** PeekToken *)

Lemma EatWhitespace_loop_shape fuel : forall l p l',
  EatWhitespace_loop fuel l p = Done l' -> exists p', l' = set_ofs l p'.
Proof.
  induction fuel as [|fuel IH]; intros l p l' H; [discriminate|].
  cbn [EatWhitespace_loop] in H.
  destruct (scan _ _) as [[|] n| |]; try discriminate.
  - apply IH in H as [p' ->]. now exists p'.
  - injection H as <-. now exists p.
Qed.


(** Only a [#] at the cursor makes [ReadToken] skip. *)
Lemma scan_ReadToken_Skip c s n :
  scan ReadToken_rules (c :: s) = Matched Skip n -> c = "#"%char.
Proof.
  unfold scan. rewrite run_cons. change (live ReadToken_rules) with true.
  cbv iota. intros H.
  destruct (Ascii.eqb "#" c) eqn:Hc; [now apply Ascii.eqb_eq in Hc|exfalso].
  assert (Hv : forall r, In (r, Skip) (step c ReadToken_rules) -> nonvoid r = false).
  { intros r Hin. apply step_In in Hin as (r0 & Hin & ->).
    simpl in Hin.
    repeat (destruct Hin as [Hin|Hin]; [try discriminate Hin|]);
      [|contradiction].
    injection Hin as <-. eval_run. now rewrite Hc. }
  apply (run_void_rule _ _ _ _ _ _ _ Hv) in H.
  destruct (accepting (step c ReadToken_rules)) as [a|] eqn:Hacc;
    [|discriminate].
  injection H as -> _.
  apply accepting_In in Hacc as (r & Hin & Hn).
  apply nullable_nonvoid in Hn. rewrite (Hv r Hin) in Hn. discriminate.
Qed.





(** ** ReadEvalString: the separator rule *)

Lemma scan_ReadEvalString_separator c rest :
  In c [" "; ":"; "|"; LF]%char ->
  scan ReadEvalString_rules (c :: rest) = Matched Separator 1.
Proof.
  simpl. intros H.
  repeat (destruct H as [H|H]; [subst c; unfold scan; step_run; now stop_run|]).
  contradiction.
Qed.

(** ** ReadEvalString: path mode on "foo bar" *)

(** C1, the claim as it stands fails: after the scan of "foo bar" in path mode
    the cursor is not on the space and the next token is not INDENT. *)
Lemma ReadEvalString_path_cursor_counterexample :
  ~ (exists err l l',
       ReadEvalString (new_Lexer "foo bar") [] true ""
       = Done (true, [(RAW, "foo"%string)], err, l)
       /\ ofs_ l = 3
       /\ ReadToken l = Done (INDENT, l')).
Proof.
  intros (err & l & l' & H & Hofs & _).
  vm_compute in H. injection H as _ <-. discriminate Hofs.
Qed.

(** C1, amended.  In path mode a space, colon, pipe or newline at the offset
    of the loop body ends the scan: it goes into no fragment and the loop is
    left with the cursor put back on it.  On "foo bar" the scan yields
    exactly the fragment RAW "foo" and records the offset 3 of the space in
    [last_token_]; the whitespace after the value is then eaten, so the
    cursor is left at offset 4, on the "b", and the next [ReadToken] returns
    IDENT for "bar". *)
Theorem ReadEvalString_path_foo_bar :
  (forall input eval p c,
     nth_error input p = Some c ->
     In c [" "; ":"; "|"; LF]%char ->
     ReadEvalString_body input true eval p = Done (Stop eval p p))
  /\ exists l,
       ReadEvalString (new_Lexer "foo bar") [] true ""
       = Done (true, [(RAW, "foo"%string)], ""%string, l)
       /\ last_token_ l = Some 3
       /\ ofs_ l = 4
       /\ nth_error (input_ l) 3 = Some " "%char
       /\ exists l', ReadToken l = Done (IDENT, l')
                     /\ last_token_ l' = Some 4 /\ ofs_ l' = 7.
Proof.
  split.
  - intros input eval p c Hc Hin. unfold ReadEvalString_body.
    now rewrite (skipn_nth_error _ _ _ Hc), scan_ReadEvalString_separator.
  - eexists. split; [reflexivity|]. repeat split.
    eexists. repeat split.
Qed.

Lemma ReadEvalString_path_foo_bar_witness :
  ReadEvalString_body (input_ (new_Lexer "foo bar")) true
    [(RAW, "foo"%string)] 3
  = Done (Stop [(RAW, "foo"%string)] 3 3).
Proof.
  apply (proj1 ReadEvalString_path_foo_bar (input_ (new_Lexer "foo bar"))
           [(RAW, "foo"%string)] 3 " "%char).
  - reflexivity.
  - simpl. auto.
Defined.

(** ** ReadEvalString: the end of a non-path scan *)

Lemma Error_false l message b err :
  Error l message = Done (b, err) -> b = false.
Proof.
  unfold Error. destruct (position l) as [[[line context] col]| | |];
    try discriminate.
  cbn [bind]. destruct (0 <? col)%Z.
  - destruct (context_len _ _); [|discriminate]. now intros [= <- _].
  - now intros [= <- _].
Qed.

(** In non-path mode the loop body leaves the loop at a newline only, one
    byte past it. *)
Lemma ReadEvalString_body_Stop input eval p eval' start p' :
  ReadEvalString_body input false eval p = Done (Stop eval' start p') ->
  eval' = eval /\ start = p /\ nth_error input p = Some LF /\ p' = p + 1.
Proof.
  unfold ReadEvalString_body.
  destruct (scan _ _) as [a n| |] eqn:Hscan; try discriminate.
  destruct a; try discriminate.
  destruct (nth_error input p) as [c|] eqn:Hc; [|discriminate].
  destruct (Ascii.eqb c LF) eqn:Hlf; [|discriminate].
  apply Ascii.eqb_eq in Hlf. subst c.
  rewrite (skipn_nth_error _ _ _ Hc) in Hscan.
  rewrite scan_ReadEvalString_separator in Hscan by (simpl; auto).
  injection Hscan as <-. intros [= <- <- <-]. auto.
Qed.

Lemma ReadEvalString_loop_Stop fuel input : forall eval p eval' start p',
  ReadEvalString_loop fuel input false eval p = Done (Stop eval' start p') ->
  nth_error input start = Some LF /\ p' = start + 1.
Proof.
  induction fuel as [|fuel IH]; intros eval p eval' start p' H;
    [discriminate|].
  cbn [ReadEvalString_loop] in H.
  destruct (ReadEvalString_body input false eval p) as [s| | |] eqn:Hb;
    try discriminate.
  cbn [bind] in H. destruct s as [e q|e st q|e st m].
  - apply IH in H. exact H.
  - injection H as -> -> ->.
    apply ReadEvalString_body_Stop in Hb as (_ & -> & Hn & ->). auto.
  - discriminate.
Qed.

(** C2, the claim as it stands fails: after a non-path scan that ends at a
    newline the cursor is not on the newline. *)
Lemma ReadEvalString_newline_counterexample :
  ~ (exists eval err l,
       ReadEvalString (new_Lexer ("a" ++ String LF "")) [] false ""
       = Done (true, eval, err, l)
       /\ nth_error (input_ l) (ofs_ l) = Some LF).
Proof.
  intros (eval & err & l & H & Hn).
  vm_compute in H. injection H as _ _ <-. discriminate Hn.
Qed.

(** C2, amended.  In non-path mode, with a space, colon, pipe or newline at
    the offset [p] of the loop body: a newline ends the scan with no fragment
    for it and is consumed ([p] is recorded as the start, the cursor goes to
    [p + 1]); a space, colon or pipe is appended as a one-byte RAW fragment
    and the scan goes on at [p + 1].  A successful non-path call therefore
    ends exactly one byte past a newline whose offset is in [last_token_],
    with no whitespace eaten behind it and [*err] untouched. *)
Theorem ReadEvalString_non_path input eval p c :
  nth_error input p = Some c ->
  In c [" "; ":"; "|"; LF]%char ->
  ReadEvalString_body input false eval p
  = Done (if Ascii.eqb c LF then Stop eval p (p + 1)
          else Again (Add eval RAW (String c "")) (p + 1))
  /\ forall l eval0 err eval' err' l',
       ReadEvalString l eval0 false err = Done (true, eval', err', l') ->
       exists start,
         nth_error (input_ l) start = Some LF
         /\ last_token_ l' = Some start /\ ofs_ l' = start + 1
         /\ input_ l' = input_ l /\ err' = err.
Proof.
  intros Hc Hin. split.
  - unfold ReadEvalString_body.
    rewrite (skipn_nth_error _ _ _ Hc), scan_ReadEvalString_separator, Hc
      by exact Hin.
    destruct (Ascii.eqb c LF); [reflexivity|].
    unfold piece. now rewrite (skipn_nth_error _ _ _ Hc).
  - clear. intros l eval0 err eval' err' l' H. unfold ReadEvalString in H.
    destruct (ReadEvalString_loop _ _ _ _ _) as [s| | |] eqn:Hloop;
      try discriminate.
    cbn [bind] in H. destruct s as [e q|e st q|e st m]; [discriminate| |].
    + injection H as <- <- <-.
      apply ReadEvalString_loop_Stop in Hloop as [Hn ->].
      exists st. cbn. auto.
    + destruct (Error _ m) as [[b e']| | |] eqn:He; try discriminate.
      apply Error_false in He. subst b. discriminate.
Qed.

Lemma ReadEvalString_non_path_witness :
  ReadEvalString_body (input_ (new_Lexer a_b_newline)) false
    [(RAW, "a"%string)] 1
  = Done (Again [(RAW, "a"%string); (RAW, " "%string)] 2)
  /\ ReadEvalString_body (input_ (new_Lexer a_b_newline)) false [] 3
     = Done (Stop [] 3 4)
  /\ exists start,
       nth_error (input_ (new_Lexer a_b_newline)) start = Some LF
       /\ last_token_ (set_ofs (set_last_token (new_Lexer a_b_newline) 3) 4)
          = Some start
       /\ ofs_ (set_ofs (set_last_token (new_Lexer a_b_newline) 3) 4)
          = start + 1
       /\ input_ (set_ofs (set_last_token (new_Lexer a_b_newline) 3) 4)
          = input_ (new_Lexer a_b_newline)
       /\ ""%string = ""%string.
Proof.
  split; [|split].
  - apply (ReadEvalString_non_path (input_ (new_Lexer a_b_newline))
             [(RAW, "a"%string)] 1 " "%char);
      [reflexivity | simpl; auto].
  - apply (ReadEvalString_non_path (input_ (new_Lexer a_b_newline)) [] 3 LF);
      [reflexivity | simpl; auto 6].
  - apply (proj2 (ReadEvalString_non_path (input_ (new_Lexer a_b_newline))
                    [] 3 LF eq_refl
                    (or_intror (or_intror (or_intror (or_introl eq_refl)))))
             (new_Lexer a_b_newline) [] ""%string
             [(RAW, "a"%string); (RAW, " "%string); (RAW, "b"%string)]).
    reflexivity.
Defined.

(** ** ReadEvalString: the escapes *)

Ltac all_bytes c := destruct c as [[] [] [] [] [] [] [] []].

Lemma simple_varname_char_facts c :
  simple_varname_char c = true ->
  varname_char c = true
  /\ Ascii.eqb "$" c = false /\ Ascii.eqb " " c = false
  /\ Ascii.eqb "010" c = false /\ Ascii.eqb "{" c = false.
Proof. all_bytes c; vm_compute; intros H; try discriminate H; auto. Qed.

Lemma varname_char_facts c :
  varname_char c = true -> Ascii.eqb "}" c = false /\ Ascii.eqb "000" c = false.
Proof. all_bytes c; vm_compute; intros H; try discriminate H; auto. Qed.

Lemma raw_char_facts c :
  raw_char c = true ->
  separator_char c = false /\ Ascii.eqb "$" c = false
  /\ Ascii.eqb "000" c = false.
Proof. all_bytes c; vm_compute; intros H; try discriminate H; auto. Qed.

Lemma scan_ReadEvalString_dollar_dollar rest :
  scan ReadEvalString_rules ("$" :: "$" :: rest)%char = Matched DollarDollar 2.
Proof. unfold scan. step_run. step_run. now stop_run. Qed.

Lemma scan_ReadEvalString_dollar_space rest :
  scan ReadEvalString_rules ("$" :: " " :: rest)%char = Matched DollarSpace 2.
Proof. unfold scan. step_run. step_run. now stop_run. Qed.

Lemma ReadEvalString_continuation_stay c :
  is_space c = true ->
  step c ReadEvalString_continuation = ReadEvalString_continuation.
Proof. unfold is_space. intros H. eval_run. now rewrite H. Qed.

Lemma scan_ReadEvalString_continuation w c rest :
  forallb is_space w = true -> is_space c = false ->
  scan ReadEvalString_rules ("$"%char :: LF :: w ++ c :: rest)
  = Matched Continuation (2 + List.length w).
Proof.
  intros Hw Hc. unfold scan. step_run. step_run.
  change (run ?rs 2 ?a ?s) with (run ReadEvalString_continuation 2 a s).
  rewrite (run_stay_accepting _ is_space ReadEvalString_continuation
             Continuation eq_refl ReadEvalString_continuation_stay eq_refl
             _ _ _ Hw).
  step_run. unfold is_space in Hc. rewrite Hc. now stop_run.
Qed.

Lemma ReadEvalString_braced_stay c :
  varname_char c = true ->
  step c ReadEvalString_braced = ReadEvalString_braced.
Proof.
  intros H. destruct (varname_char_facts c H) as [H1 _].
  eval_run. now rewrite H, H1.
Qed.

(** [${] and a run of name bytes: nothing is accepted but the [$] alone,
    under the catch-all rule. *)
Lemma run_ReadEvalString_open_brace name s :
  name <> [] -> forallb varname_char name = true ->
  run ReadEvalString_rules 0 None ("$"%char :: "{"%char :: name ++ s)
  = run ReadEvalString_braced (2 + List.length name) (Some (Other, 1)) s.
Proof.
  intros Hne Hname. destruct name as [|x name]; [contradiction|].
  simpl in Hname. apply andb_true_iff in Hname as [Hx Hname].
  destruct (varname_char_facts x Hx) as [Hx1 _].
  step_run. step_run. step_run. rewrite Hx. eval_run.
  change (run ?rs 3 ?a ?s0) with (run ReadEvalString_braced 3 a s0).
  rewrite (run_stay_silent _ varname_char ReadEvalString_braced eq_refl
             ReadEvalString_braced_stay eq_refl _ _ _ _ Hname).
  now replace (3 + List.length name) with (S (S (S (List.length name)))) by lia.
Qed.

Lemma scan_ReadEvalString_braced name rest :
  name <> [] -> forallb varname_char name = true ->
  scan ReadEvalString_rules ("$"%char :: "{"%char :: name ++ "}"%char :: rest)
  = Matched BracedVar (3 + List.length name).
Proof.
  intros Hne Hname. unfold scan.
  rewrite run_ReadEvalString_open_brace by assumption.
  step_run. now stop_run.
Qed.

(** The buffer ends inside [${...]: the match falls back to the [$]. *)
Lemma scan_ReadEvalString_unclosed name rest :
  forallb varname_char name = true ->
  scan ReadEvalString_rules ("$"%char :: "{"%char :: name ++ NUL :: rest)
  = Matched Other 1.
Proof.
  intros Hname. destruct name as [|x name].
  - unfold scan. step_run. step_run. step_run. now stop_run.
  - unfold scan. rewrite run_ReadEvalString_open_brace by (assumption || discriminate).
    step_run. now stop_run.
Qed.

Lemma ReadEvalString_simple_stay c :
  simple_varname_char c = true ->
  step c ReadEvalString_simple = ReadEvalString_simple.
Proof. intros H. eval_run. now rewrite H. Qed.

Lemma scan_ReadEvalString_simple name c rest :
  name <> [] -> forallb simple_varname_char name = true ->
  simple_varname_char c = false ->
  scan ReadEvalString_rules ("$"%char :: name ++ c :: rest)
  = Matched SimpleVar (1 + List.length name).
Proof.
  intros Hne Hname Hc. destruct name as [|x name]; [contradiction|].
  simpl in Hname. apply andb_true_iff in Hname as [Hx Hname].
  destruct (simple_varname_char_facts x Hx) as (_ & H1 & H2 & H3 & H4).
  unfold scan. step_run. step_run. rewrite Hx, H1, H2, H3, H4. eval_run.
  change (run ?rs 2 ?a ?s0) with (run ReadEvalString_simple 2 a s0).
  rewrite (run_stay_accepting _ simple_varname_char ReadEvalString_simple
             SimpleVar eq_refl ReadEvalString_simple_stay eq_refl
             _ _ _ Hname).
  step_run. rewrite Hc. stop_run. reflexivity.
Qed.

Lemma ReadEvalString_raw_stay c :
  raw_char c = true -> step c ReadEvalString_raw = ReadEvalString_raw.
Proof. intros H. eval_run. now rewrite H. Qed.

Lemma scan_ReadEvalString_raw text c rest :
  text <> [] -> forallb raw_char text = true -> raw_char c = false ->
  scan ReadEvalString_rules (text ++ c :: rest)
  = Matched RawRun (List.length text).
Proof.
  intros Hne Htext Hc. destruct text as [|x text]; [contradiction|].
  simpl in Htext. apply andb_true_iff in Htext as [Hx Htext].
  destruct (raw_char_facts x Hx) as (H1 & H2 & H3).
  unfold scan. step_run. rewrite Hx, H1, H2, H3. eval_run.
  destruct text as [|y text].
  - step_run. rewrite Hc. now stop_run.
  - simpl in Htext. apply andb_true_iff in Htext as [Hy Htext].
    step_run. rewrite Hy. eval_run.
    change (run ?rs 2 ?a ?s0) with (run ReadEvalString_raw 2 a s0).
    rewrite (run_stay_accepting _ raw_char ReadEvalString_raw
               RawRun eq_refl ReadEvalString_raw_stay eq_refl
               _ _ _ Htext).
    step_run. rewrite Hc. now stop_run.
Qed.

Lemma scan_ReadEvalString_NUL rest :
  scan ReadEvalString_rules (NUL :: rest) = Matched Sentinel 1.
Proof. unfold scan. step_run. now stop_run. Qed.

(** C4.  [ReadEvalString] decodes the escapes as the specification words
    them.  With an escape at the offset [p] of the loop body, in either mode:
    [$$] adds the fragment RAW "$", [$ ] adds RAW " ", [${name}] adds
    SPECIAL name without the braces, [$name] (simple name, as long as it
    goes) adds SPECIAL name, a [$]-newline with the spaces that follow adds
    nothing; in every case the scan goes on right behind the escape.  In
    non-path mode "a$$b" gives RAW "a", RAW "$", RAW "b"; "a${b.c}d" gives
    RAW "a", SPECIAL "b.c", RAW "d"; "a$\n   b" gives RAW "a", RAW "b" (the
    call returns true when a newline ends the text, and meets the end of
    the buffer otherwise, with the same fragments). *)
Theorem ReadEvalString_escapes :
  (forall input path eval p text c rest frag,
     escape_spec text c frag ->
     skipn p input = text ++ c :: rest ->
     ReadEvalString_body input path eval p
     = Done (Again (add_fragment eval frag) (p + List.length text)))
  /\ (let frags := [(RAW, "a"); (RAW, "$"); (RAW, "b")]%string in
      eval_of (ReadEvalString (new_Lexer "a$$b") [] false "") = Some frags
      /\ exists l, ReadEvalString (new_Lexer ("a$$b" ++ String LF "")) [] false ""
                   = Done (true, frags, ""%string, l))
  /\ (let frags := [(RAW, "a"); (SPECIAL, "b.c"); (RAW, "d")]%string in
      eval_of (ReadEvalString (new_Lexer "a${b.c}d") [] false "") = Some frags
      /\ exists l, ReadEvalString (new_Lexer ("a${b.c}d" ++ String LF "")) [] false ""
                   = Done (true, frags, ""%string, l))
  /\ (let frags := [(RAW, "a"); (RAW, "b")]%string in
      eval_of (ReadEvalString (new_Lexer ("a$" ++ String LF "   b")) [] false "")
      = Some frags
      /\ exists l, ReadEvalString
                     (new_Lexer ("a$" ++ String LF "   b" ++ String LF "")) [] false ""
                   = Done (true, frags, ""%string, l)).
Proof.
  split; [|repeat split; eexists; reflexivity].
  intros input path eval p text c rest frag Hesc Hs.
  unfold ReadEvalString_body. rewrite Hs.
  destruct Hesc as [c|c|w c Hw Hc|name c Hne Hname|name c Hne Hname Hc];
    cbn [List.app List.length add_fragment] in *.
  - now rewrite scan_ReadEvalString_dollar_dollar.
  - now rewrite scan_ReadEvalString_dollar_space.
  - now rewrite scan_ReadEvalString_continuation by assumption.
  - rewrite <- app_assoc in Hs |- *. cbn [List.app] in Hs |- *.
    rewrite scan_ReadEvalString_braced by assumption.
    rewrite length_app. cbn [List.length].
    replace (p + (3 + List.length name) - p - 3) with (List.length name) by lia.
    rewrite (piece_app input (p + 2) name ("}"%char :: c :: rest)).
    + do 3 f_equal. lia.
    + apply (skipn_app_skipn input p ["$"; "{"]%char). exact Hs.
  - rewrite scan_ReadEvalString_simple by assumption.
    replace (p + (1 + List.length name) - p - 1) with (List.length name) by lia.
    rewrite (piece_app input (p + 1) name (c :: rest)).
    + reflexivity.
    + apply (skipn_app_skipn input p ["$"]%char). exact Hs.
Qed.

Lemma ReadEvalString_escapes_witness :
  ReadEvalString_body (input_ (new_Lexer "a${b.c}d")) false
    [(RAW, "a"%string)] 1
  = Done (Again [(RAW, "a"%string); (SPECIAL, "b.c"%string)] 7).
Proof.
  apply (proj1 ReadEvalString_escapes (input_ (new_Lexer "a${b.c}d")) false
           [(RAW, "a"%string)] 1
           ("$"%char :: "{"%char :: list_ascii_of_string "b.c" ++ ["}"%char])
           "d"%char [NUL] (Some (SPECIAL, "b.c"%string))).
  - apply (@escape_braced (list_ascii_of_string "b.c") "d"%char);
      [discriminate | reflexivity].
  - reflexivity.
Defined.

(** ** ReadEvalString: the end of the buffer *)

Lemma context_len_found n : forall s,
  In NUL s -> exists len, context_len n s = Some len.
Proof.
  induction n as [|n IH]; intros s Hin; [now exists 0|].
  destruct s as [|c s]; [contradiction|]. cbn [context_len].
  destruct (Ascii.eqb c NUL) eqn:Hc; [now exists 0|].
  destruct (Ascii.eqb c LF); [now exists 0|]. cbn [orb].
  destruct Hin as [->|Hin]; [now rewrite Ascii.eqb_refl in Hc|].
  destruct (IH s Hin) as [len ->]. now exists (S len).
Qed.

Lemma line_and_context_le bytes : forall p line context,
  context <= p ->
  snd (line_and_context bytes p line context) <= p + List.length bytes.
Proof.
  induction bytes as [|c bytes IH]; intros p line context Hle;
    cbn [line_and_context List.length snd]; [lia|].
  destruct (Ascii.eqb c LF).
  - specialize (IH (S p) (int_of_Z (line + 1)) (S p)). lia.
  - specialize (IH (S p) line context). lia.
Qed.

(** With a NUL at or behind [last_token_], [Error] stays inside the buffer
    and returns false with a message. *)
Lemma Error_total l message t k :
  last_token_ l = Some t ->
  nth_error (input_ l) k = Some NUL ->
  t <= k ->
  exists err, Error l message = Done (false, err).
Proof.
  intros Ht Hk Hle. unfold Error, position. rewrite Ht.
  assert (Hlen : k < List.length (input_ l)).
  { apply nth_error_Some. congruence. }
  destruct (Nat.leb_spec t (List.length (input_ l))); [|lia].
  pose proof (line_and_context_le (firstn t (input_ l)) 0 1%Z 0 (le_n 0)) as Hc.
  destruct (line_and_context _ _ _ _) as [line context]. cbn [snd] in Hc.
  rewrite length_firstn in Hc. cbn [bind].
  destruct (0 <? _)%Z; [|eauto].
  destruct (context_len_found 50 (skipn context (input_ l))) as [len ->];
    [|eauto].
  apply (nth_error_In _ (k - context)).
  rewrite nth_error_skipn. rewrite <- Hk. f_equal. lia.
Qed.

Lemma ReadEvalString_body_NUL input path eval p :
  nth_error input p = Some NUL ->
  ReadEvalString_body input path eval p = Done (Fail eval p "unexpected EOF").
Proof.
  intros H. unfold ReadEvalString_body.
  now rewrite (skipn_nth_error _ _ _ H), scan_ReadEvalString_NUL.
Qed.

Lemma ReadEvalString_body_unclosed input path eval p name rest :
  skipn p input = "$"%char :: "{"%char :: name ++ NUL :: rest ->
  forallb varname_char name = true ->
  ReadEvalString_body input path eval p = Done (Fail eval p "lexing error").
Proof.
  intros Hs Hname. unfold ReadEvalString_body.
  now rewrite Hs, scan_ReadEvalString_unclosed.
Qed.

(** C5, the claim as it stands fails: when the buffer ends before the [}] of
    a [${...}], the failure is no "unexpected EOF" and its position is not
    the offset of the NUL (5 here). *)
Lemma ReadEvalString_unclosed_counterexample :
  exists eval err l,
    ReadEvalString (new_Lexer "${abc") [] false "" = Done (false, eval, err, l)
    /\ nth_error (input_ l) 5 = Some NUL
    /\ String.index 0 "unexpected EOF" err = None
    /\ last_token_ l <> Some 5.
Proof.
  do 3 eexists. split; [reflexivity|]. repeat split. discriminate.
Qed.

(** ** Returning: EatWhitespace, ReadIdent and ReadEvalString *)

Ltac each_rule H :=
  simpl in H;
  repeat (destruct H as [H|H]; [injection H as <- <-|]); [..|contradiction].

Lemma ReadEvalString_rules_stop : stops_at_NUL ReadEvalString_rules.
Proof. intros r a H. each_rule H; reflexivity. Qed.

Lemma ReadIdent_rules_stop : stops_at_NUL ReadIdent_rules.
Proof. intros r a H. each_rule H; reflexivity. Qed.

Ltac find_rule := simpl; repeat (first [left; reflexivity | right]).

Lemma ReadEvalString_rules_any : In (any, Other) ReadEvalString_rules.
Proof. find_rule. Qed.

Lemma ReadIdent_rules_any : In (any, ReturnFalse) ReadIdent_rules.
Proof. find_rule. Qed.

Lemma ReadEvalString_rules_nul_free a r :
  a <> Sentinel -> a <> Other ->
  In (r, a) ReadEvalString_rules -> nul_free r = true.
Proof. intros H1 H2 H. each_rule H; reflexivity || contradiction. Qed.

Lemma skipn_terminated t n :
  n <= List.length t -> skipn n (t ++ [NUL]) = skipn n t ++ [NUL].
Proof.
  intros H. rewrite skipn_app.
  now replace (n - List.length t) with 0 by lia.
Qed.

Lemma skipn_add_terminated (input : list ascii) p t n :
  skipn p input = t ++ [NUL] -> n <= List.length t ->
  skipn (p + n) input = skipn n t ++ [NUL]
  /\ List.length (skipn n t) = List.length t - n.
Proof.
  intros Hs Hn. rewrite (skipn_add input p n _ Hs), skipn_terminated by exact Hn.
  now rewrite length_skipn.
Qed.

Lemma terminated_nth_error (input : list ascii) p t :
  skipn p input = t ++ [NUL] ->
  nth_error input (p + List.length t) = Some NUL.
Proof.
  intros Hs. apply skipn_app_skipn in Hs. now apply skipn_cons_nth_error in Hs.
Qed.

(** One pass of the loop of [ReadEvalString] in a terminated buffer: it
    stays inside the buffer and, if the loop goes on, the cursor has moved
    forward and is still in front of the NUL. *)
Lemma ReadEvalString_body_terminated input path eval p t :
  skipn p input = t ++ [NUL] ->
  exists s,
    ReadEvalString_body input path eval p = Done s
    /\ match s with
       | Again _ q => p < q <= p + List.length t
       | Stop _ start q => start = p /\ (path = true -> q = p)
       | Fail _ start _ => start = p
       end.
Proof.
  intros Hs. unfold ReadEvalString_body. rewrite Hs.
  destruct (scan ReadEvalString_rules (t ++ [NUL])) as [a n| |] eqn:Hscan.
  - pose proof (scan_progress _ _ _ _ _ Hscan) as Hn.
    assert (Hfree : a <> Sentinel -> a <> Other -> n <= List.length t).
    { intros H1 H2. apply (scan_before_NUL _ _ _ _ _ Hscan).
      intros r. now apply ReadEvalString_rules_nul_free. }
    assert (Hc : exists c, nth_error input p = Some c).
    { destruct (skipn_cons_nth_error input p (hd NUL (t ++ [NUL]))
                  (tl (t ++ [NUL]))) as [Hc _]; [|eauto].
      rewrite Hs. now destruct t. }
    destruct a; try (eexists; split; [reflexivity|];
                     try (specialize (Hfree ltac:(discriminate) ltac:(discriminate)));
                     cbn; lia || auto).
    destruct path.
    + eexists. split; [reflexivity|]. cbn. auto.
    + destruct Hc as [c ->]. destruct (Ascii.eqb c LF).
      * eexists. split; [reflexivity|]. split; [reflexivity|discriminate].
      * eexists. split; [reflexivity|].
        specialize (Hfree ltac:(discriminate) ltac:(discriminate)). cbn. lia.
  - exfalso. destruct t;
      apply (scan_catch_all _ _ Other _ _ ReadEvalString_rules_any Hscan).
  - exfalso. unfold scan in Hscan.
    apply (run_terminated _ t _ 0 None ReadEvalString_rules_stop Hscan).
Qed.

Lemma ReadEvalString_loop_terminated input path fuel : forall eval p t,
  skipn p input = t ++ [NUL] ->
  List.length t < fuel ->
  exists s,
    ReadEvalString_loop fuel input path eval p = Done s
    /\ match s with
       | Again _ _ => False
       | Stop _ start q =>
           p <= start <= p + List.length t /\ (path = true -> q = start)
       | Fail _ start _ => p <= start <= p + List.length t
       end.
Proof.
  induction fuel as [|fuel IH]; intros eval p t Hs Hf; [lia|].
  cbn [ReadEvalString_loop].
  destruct (ReadEvalString_body_terminated input path eval p t Hs)
    as (s & -> & Hok).
  cbn [bind]. destruct s as [e q|e st q|e st m].
  - destruct (skipn_add_terminated input p t (q - p) Hs ltac:(lia))
      as [Hs' Hl].
    replace (p + (q - p)) with q in Hs' by lia.
    destruct (IH e q _ Hs' ltac:(lia)) as (s & -> & Hs2).
    exists s. split; [reflexivity|].
    rewrite Hl in Hs2. destruct s; try exact Hs2.
    + split; [lia|]. apply Hs2.
    + lia.
  - exists (Stop e st q). split; [reflexivity|].
    destruct Hok as [-> Hq]. split; [lia | exact Hq].
  - exists (Fail e st m). split; [reflexivity|]. subst st. lia.
Qed.

(** On a terminated buffer [ReadEvalString] returns, in either mode. *)
Lemma ReadEvalString_returns l eval path err :
  terminated (skipn (ofs_ l) (input_ l)) ->
  exists b eval' err' l',
    ReadEvalString l eval path err = Done (b, eval', err', l')
    /\ input_ l' = input_ l.
Proof.
  intros [t Hs]. unfold ReadEvalString.
  destruct (ReadEvalString_loop_terminated (input_ l) path
              (fuel_of (input_ l)) eval (ofs_ l) t Hs) as (s & -> & Hok).
  { unfold fuel_of. apply skipn_length_le in Hs.
    rewrite length_app in Hs. simpl in Hs. lia. }
  cbn [bind]. destruct s as [e q|e st q|e st m]; [contradiction| |].
  - destruct path.
    + destruct Hok as [Hst Hq]. rewrite (Hq eq_refl).
      destruct (skipn_add_terminated _ _ _ (st - ofs_ l) Hs ltac:(lia))
        as [Hs' _].
      replace (ofs_ l + (st - ofs_ l)) with st in Hs' by lia.
      destruct (EatWhitespace_terminated
                  (set_ofs (set_last_token l st) st) _ Hs') as (p' & -> & _).
      cbn [bind]. now do 4 eexists.
    + now do 4 eexists.
  - destruct (Error_total (set_last_token l st) m st _ eq_refl
                (terminated_nth_error _ _ _ Hs) ltac:(lia)) as [msg ->].
    cbn [bind]. now do 4 eexists.
Qed.

(** On a terminated buffer [ReadIdent] returns. *)
Lemma ReadIdent_returns l out :
  terminated (skipn (ofs_ l) (input_ l)) ->
  exists b out' l', ReadIdent l out = Done (b, out', l').
Proof.
  intros [t Hs]. unfold ReadIdent. rewrite Hs.
  destruct (scan ReadIdent_rules (t ++ [NUL])) as [a n| |] eqn:Hscan.
  - destruct a; [|now do 3 eexists].
    assert (Hn : n <= List.length t).
    { apply (scan_before_NUL _ _ _ _ _ Hscan).
      intros r H. simpl in H.
      destruct H as [H|[H|[]]]; [now injection H as <- | discriminate H]. }
    destruct (skipn_add_terminated _ _ _ n Hs Hn) as [Hs' _].
    destruct (EatWhitespace_terminated (set_ofs l (ofs_ l + n)) _ Hs')
      as (p' & -> & _).
    cbn [bind]. now do 3 eexists.
  - exfalso. destruct t;
      apply (scan_catch_all _ _ ReturnFalse _ _ ReadIdent_rules_any Hscan).
  - exfalso. unfold scan in Hscan.
    apply (run_terminated _ t _ 0 None ReadIdent_rules_stop Hscan).
Qed.

(** ** Returning: ReadToken *)

Lemma scan_ReadToken_comment w rest :
  forallb not_LF w = true ->
  scan ReadToken_rules ("#"%char :: w ++ LF :: rest)
  = Matched Skip (2 + List.length w).
Proof.
  intros Hw. unfold scan. step_run.
  destruct w as [|x w].
  - step_run. now stop_run.
  - simpl in Hw. apply andb_true_iff in Hw as [Hx Hw].
    pose proof (not_LF_sym x Hx) as Hx'. unfold LF in Hx'.
    step_run. rewrite Hx, Hx'. eval_run.
    change (run ?rs 2 ?a ?s0) with (run ReadToken_comment 2 a s0).
    rewrite (run_stay_silent _ not_LF ReadToken_comment eq_refl
               ReadToken_comment_stay eq_refl _ _ _ _ Hw).
    step_run. now stop_run.
Qed.

Lemma ReadToken_rules_any : In (any, Emit ERROR) ReadToken_rules.
Proof. find_rule. Qed.

(** Behind a first byte other than [#] the comment rule is dead and all
    the rules left stop at a NUL. *)
Lemma ReadToken_rules_stop c :
  Ascii.eqb "#" c = false -> stops_at_NUL (step c ReadToken_rules).
Proof.
  intros Hc r a Hin. apply step_In in Hin as (r0 & Hin & ->).
  simpl in Hin. destruct Hin as [Hin|Hin].
  - injection Hin as <- <-. eval_run. now rewrite Hc.
  - apply nul_last_deriv.
    repeat (destruct Hin as [Hin|Hin]; [now injection Hin as <- <-|]).
    contradiction.
Qed.

Lemma ReadToken_rules_nul_free token r :
  token <> TEOF -> token <> ERROR ->
  In (r, Emit token) ReadToken_rules -> nul_free r = true.
Proof.
  intros H1 H2 H. simpl in H.
  repeat (destruct H as [H|H];
          [first [discriminate H
                 | injection H as <- <-; first [reflexivity | contradiction]]|]).
  contradiction.
Qed.

Lemma ReadToken_rules_ERROR r :
  In (r, Emit ERROR) ReadToken_rules -> r = any.
Proof.
  intros H. simpl in H.
  repeat (destruct H as [H|H];
          [first [discriminate H | now injection H as <-]|]).
  contradiction.
Qed.

(** One pass of the loop of [ReadToken] in a terminated buffer: a token, a
    comment skipped up to its newline, or a comment that no newline ends. *)
Lemma scan_ReadToken_terminated t :
  (exists token n,
     scan ReadToken_rules (t ++ [NUL]) = Matched (Emit token) n
     /\ 0 < n /\ (token <> TEOF -> n <= List.length t))
  \/ (exists n,
        scan ReadToken_rules (t ++ [NUL]) = Matched Skip n
        /\ 0 < n <= List.length t)
  \/ (exists w, t ++ [NUL] = "#"%char :: w /\ forallb not_LF w = true).
Proof.
  destruct t as [|c t].
  - left. exists TEOF, 1. cbn [List.app]. rewrite scan_ReadToken_NUL.
    repeat split; [lia | congruence].
  - cbn [List.app List.length]. destruct (Ascii.eqb "#" c) eqn:Hc.
    + apply Ascii.eqb_eq in Hc. subst c. right.
      destruct (forallb not_LF (t ++ [NUL])) eqn:Hall; [right; eauto|left].
      destruct (span_split not_LF (t ++ [NUL])) as (w & c & r & E & Hw & Hc).
      { destruct (forallb_forall not_LF (t ++ [NUL])) as [_ H].
        destruct (existsb (fun c => negb (not_LF c)) (t ++ [NUL])) eqn:Hex.
        - apply existsb_exists in Hex as (c & Hin & Hc). exists c.
          split; [exact Hin|]. now destruct (not_LF c).
        - rewrite H in Hall; [discriminate|]. intros c Hin.
          destruct (not_LF c) eqn:Hc; [reflexivity|].
          assert (Hex' : existsb (fun c => negb (not_LF c)) (t ++ [NUL]) = true).
          { apply existsb_exists. exists c. now rewrite Hc. }
          congruence. }
      assert (c = LF).
      { unfold not_LF in Hc. apply negb_false_iff, Ascii.eqb_eq in Hc.
        exact Hc. }
      subst c. rewrite E, scan_ReadToken_comment by exact Hw.
      exists (2 + List.length w). split; [reflexivity|]. split; [lia|].
      destruct r as [|y r].
      * apply app_inj_tail in E as [_ E]. discriminate E.
      * apply (f_equal (@List.length ascii)) in E.
        rewrite !length_app in E. cbn [List.length] in E. lia.
    + left.
      destruct (scan ReadToken_rules (c :: t ++ [NUL])) as [a n| |] eqn:Hscan.
      * destruct a as [|token].
        -- apply scan_ReadToken_Skip in Hscan. subst c. discriminate Hc.
        -- exists token, n. split; [reflexivity|].
           split; [apply (scan_progress _ _ _ _ _ Hscan)|].
           intros Htok.
           destruct token; try contradiction;
             try (apply (scan_before_NUL _ _ (c :: t) _ _ Hscan);
                  intros r; apply ReadToken_rules_nul_free; discriminate).
           rewrite (scan_any_length _ _ _ _ _ Hscan ReadToken_rules_ERROR).
           cbn [List.length]. lia.
      * exfalso. apply (scan_catch_all _ _ _ _ _ ReadToken_rules_any Hscan).
      * exfalso. unfold scan in Hscan. rewrite run_cons in Hscan.
        change (live ReadToken_rules) with true in Hscan. cbv iota in Hscan.
        apply (run_terminated _ t _ _ _ (ReadToken_rules_stop c Hc) Hscan).
Qed.

Lemma ReadToken_loop_terminated fuel : forall input p t,
  skipn p input = t ++ [NUL] ->
  List.length t < fuel ->
  (exists token start p',
     ReadToken_loop fuel input p = Done (token, start, p')
     /\ (token <> TEOF -> terminated (skipn p' input)))
  \/ (ReadToken_loop fuel input p = OutOfBounds
      /\ exists start w,
           p <= start /\ skipn start input = "#"%char :: w
           /\ forallb not_LF w = true).
Proof.
  induction fuel as [|fuel IH]; intros input p t Hs Hf; [lia|].
  cbn [ReadToken_loop]. rewrite Hs.
  destruct (scan_ReadToken_terminated t)
    as [(token & n & -> & Hn & Hle)|[(n & -> & Hn)|(w & E & Hw)]].
  - left. exists token, p, (p + n). split; [reflexivity|].
    intros Htok.
    destruct (skipn_add_terminated input p t n Hs (Hle Htok)) as [-> _].
    now eexists.
  - destruct (skipn_add_terminated input p t n Hs ltac:(lia)) as [Hs' Hl].
    destruct (IH input (p + n) _ Hs' ltac:(lia))
      as [H|(H & start & w & Hst & Hw)]; [now left|right].
    split; [exact H|]. exists start, w. split; [lia | exact Hw].
  - right. rewrite E, scan_unterminated_comment by exact Hw.
    split; [reflexivity|]. exists p, w. rewrite Hs. auto.
Qed.

(** On a terminated buffer [ReadToken] returns a token, unless it meets a
    comment that no newline ends: then, and only then, it reads outside the
    buffer. *)
Lemma ReadToken_returns l :
  terminated (skipn (ofs_ l) (input_ l)) ->
  (exists token l', ReadToken l = Done (token, l'))
  \/ (ReadToken l = OutOfBounds
      /\ exists start w,
           ofs_ l <= start /\ skipn start (input_ l) = "#"%char :: w
           /\ forallb not_LF w = true).
Proof.
  intros [t Hs]. unfold ReadToken.
  destruct (ReadToken_loop_terminated (fuel_of (input_ l)) (input_ l)
              (ofs_ l) t Hs)
    as [(token & start & p' & -> & Ht)|(-> & H)].
  { unfold fuel_of. apply skipn_length_le in Hs.
    rewrite length_app in Hs. simpl in Hs. lia. }
  - left. cbn [bind].
    destruct (negb (Token_eqb token NEWLINE) && negb (Token_eqb token TEOF))
      eqn:Htok; [|eauto].
    destruct Ht as [t' Ht'].
    { intros ->. discriminate Htok. }
    destruct (EatWhitespace_terminated
                (set_ofs (set_last_token l start) p') t' Ht') as (q & -> & _).
    cbn [bind]. eauto.
  - right. split; [reflexivity | exact H].
Qed.

(** ** The fuel of the loops is enough *)

(** Every pass that goes on has consumed a byte of the buffer, so that a
    loop started with [fuel_of] never stops for lack of fuel, whatever the
    buffer and the cursor are. *)

Lemma scan_inside {A : Type} (rs : rules A) (input : list ascii) p a n :
  scan rs (skipn p input) = Matched a n ->
  0 < n /\ p + n <= List.length input.
Proof.
  intros H. pose proof (scan_progress _ _ _ _ _ H) as Hn.
  apply scan_bound in H. rewrite length_skipn in H. lia.
Qed.

Lemma EatWhitespace_loop_fuel fuel : forall l p,
  List.length (input_ l) - p < fuel ->
  EatWhitespace_loop fuel l p <> OutOfFuel.
Proof.
  induction fuel as [|fuel IH]; intros l p Hf; [lia|].
  cbn [EatWhitespace_loop]. cbn [set_ofs input_].
  destruct (scan _ _) as [[|] n| |] eqn:Hscan; try discriminate.
  apply scan_inside in Hscan. apply IH. cbn [set_ofs input_]. lia.
Qed.

Lemma EatWhitespace_fuel l : EatWhitespace l <> OutOfFuel.
Proof. apply EatWhitespace_loop_fuel. unfold fuel_of. lia. Qed.

Lemma ReadToken_loop_fuel fuel : forall input p,
  List.length input - p < fuel ->
  ReadToken_loop fuel input p <> OutOfFuel.
Proof.
  induction fuel as [|fuel IH]; intros input p Hf; [lia|].
  cbn [ReadToken_loop].
  destruct (scan _ _) as [[|t] n| |] eqn:Hscan; try discriminate.
  apply scan_inside in Hscan. apply IH. lia.
Qed.

Lemma ReadToken_fuel l : ReadToken l <> OutOfFuel.
Proof.
  unfold ReadToken.
  pose proof (ReadToken_loop_fuel (fuel_of (input_ l)) (input_ l) (ofs_ l)) as H.
  destruct (ReadToken_loop _ _ _) as [[[t start] p]| | |]; try discriminate.
  - cbn [bind]. destruct (_ && _); [|discriminate].
    pose proof (EatWhitespace_fuel (set_ofs (set_last_token l start) p)) as He.
    destruct (EatWhitespace _); try discriminate. contradiction.
  - exfalso. apply H; [unfold fuel_of; lia | reflexivity].
Qed.

Lemma ReadIdent_fuel l out : ReadIdent l out <> OutOfFuel.
Proof.
  unfold ReadIdent. destruct (scan _ _) as [[|] n| |]; try discriminate.
  pose proof (EatWhitespace_fuel (set_ofs l (ofs_ l + n))) as He.
  destruct (EatWhitespace _); try discriminate. contradiction.
Qed.

Lemma ReadEvalString_body_inside input path eval p e q :
  ReadEvalString_body input path eval p = Done (Again e q) ->
  p < q <= List.length input.
Proof.
  unfold ReadEvalString_body.
  destruct (scan _ _) as [a n| |] eqn:Hscan; try discriminate.
  apply scan_inside in Hscan.
  destruct a; try discriminate; try (intros [= _ <-]; lia).
  destruct path; [discriminate|].
  destruct (nth_error input p); [|discriminate].
  destruct (Ascii.eqb _ _); [discriminate|]. intros [= _ <-]. lia.
Qed.

Lemma ReadEvalString_body_fuel input path eval p :
  ReadEvalString_body input path eval p <> OutOfFuel.
Proof.
  unfold ReadEvalString_body.
  destruct (scan _ _) as [a n| |]; try discriminate.
  destruct a; try discriminate.
  destruct path; [discriminate|].
  destruct (nth_error input p); [|discriminate].
  destruct (Ascii.eqb _ _); discriminate.
Qed.

Lemma ReadEvalString_loop_fuel fuel : forall input path eval p,
  List.length input - p < fuel ->
  ReadEvalString_loop fuel input path eval p <> OutOfFuel
  /\ forall e q, ReadEvalString_loop fuel input path eval p <> Done (Again e q).
Proof.
  induction fuel as [|fuel IH]; intros input path eval p Hf; [lia|].
  cbn [ReadEvalString_loop].
  pose proof (ReadEvalString_body_fuel input path eval p) as Hb'.
  destruct (ReadEvalString_body input path eval p) as [s| | |] eqn:Hb;
    cbn [bind]; try (split; intros; discriminate); [|contradiction].
  destruct s as [e q|e st q|e st m]; try (split; intros; discriminate).
  apply ReadEvalString_body_inside in Hb. apply IH. lia.
Qed.

Lemma ReadEvalString_fuel l eval path err :
  ReadEvalString l eval path err <> OutOfFuel.
Proof.
  unfold ReadEvalString.
  destruct (ReadEvalString_loop_fuel (fuel_of (input_ l)) (input_ l) path eval
              (ofs_ l)) as [H1 H2]; [unfold fuel_of; lia|].
  destruct (ReadEvalString_loop _ _ _ _ _) as [s| | |]; try discriminate.
  - cbn [bind]. destruct s as [e q|e st q|e st m].
    + now destruct (H2 e q).
    + destruct path; [|discriminate].
      pose proof (EatWhitespace_fuel (set_ofs (set_last_token l st) q)) as He.
      destruct (EatWhitespace _); try discriminate. contradiction.
    + unfold Error. destruct (position _) as [[[line c] col]| | |] eqn:Hp;
        cbn [bind]; try discriminate.
      * destruct (0 <? col)%Z; [|discriminate].
        destruct (context_len _ _); discriminate.
      * unfold position in Hp. cbn in Hp.
        destruct (st <=? _); [|discriminate].
        destruct (line_and_context _ _ _ _). discriminate.
  - now destruct H1.
Qed.

(** ** ReadEvalString: the end of the buffer, in every scan *)

(** The loop gets to every pass that [scanned] names. *)
Lemma ReadEvalString_loop_scanned input path eval p eval' p' :
  scanned input path eval p eval' p' ->
  forall fuel s,
    ReadEvalString_body input path eval' p' = Done s ->
    (forall e q, s <> Again e q) ->
    List.length input - p < fuel ->
    ReadEvalString_loop fuel input path eval p = Done s.
Proof.
  induction 1 as [eval p|eval p eval1 p1 eval' p' Hbody Hrest IH];
    intros fuel s Hs Hend Hfuel.
  - destruct fuel as [|fuel]; [lia|]. cbn [ReadEvalString_loop].
    rewrite Hs. cbn [bind]. destruct s; try reflexivity.
    now destruct (Hend eval0 p0).
  - destruct fuel as [|fuel]; [lia|]. cbn [ReadEvalString_loop].
    rewrite Hbody. cbn [bind].
    apply ReadEvalString_body_inside in Hbody.
    apply IH; [exact Hs | exact Hend | lia].
Qed.

Lemma ReadEvalString_fails l eval path err eval' p message k :
  scanned (input_ l) path eval (ofs_ l) eval' p ->
  ReadEvalString_body (input_ l) path eval' p = Done (Fail eval' p message) ->
  nth_error (input_ l) k = Some NUL -> p <= k ->
  exists msg,
    ReadEvalString l eval path err
    = Done (false, eval', msg, set_last_token l p)
    /\ Error (set_last_token l p) message = Done (false, msg).
Proof.
  intros Hscan Hbody Hk Hle.
  destruct (Error_total (set_last_token l p) message p k eq_refl Hk Hle)
    as [msg Hmsg].
  exists msg. split; [|exact Hmsg].
  unfold ReadEvalString.
  rewrite (ReadEvalString_loop_scanned _ _ _ _ _ _ Hscan _ _ Hbody)
    by (discriminate || (unfold fuel_of; lia)).
  cbn [bind]. now rewrite Hmsg.
Qed.

Lemma scanned_snoc input path eval p eval1 p1 eval2 p2 :
  scanned input path eval p eval1 p1 ->
  ReadEvalString_body input path eval1 p1 = Done (Again eval2 p2) ->
  scanned input path eval p eval2 p2.
Proof.
  induction 1 as [eval p|eval p e1 q1 eval1 p1 Hbody Hrest IH]; intros H.
  - apply (@scanned_pass _ _ _ _ eval2 p2); [exact H | apply scanned_here].
  - apply (@scanned_pass _ _ _ _ e1 q1); [exact Hbody | now apply IH].
Qed.

(** A pass over plain text, a separator of non-path mode or an escape goes
    on behind it, with its fragment added. *)
Lemma ReadEvalString_body_pass input path eval p w c rest frag :
  pass_spec path w c frag ->
  skipn p input = w ++ c :: rest ->
  ReadEvalString_body input path eval p
  = Done (Again (add_fragment eval frag) (p + List.length w)).
Proof.
  intros Hpass Hs. unfold ReadEvalString_body.
  destruct Hpass as [text c Hne Htext Hc|x c Hpath Hx|w c frag Hesc].
  - rewrite Hs, scan_ReadEvalString_raw by assumption.
    replace (p + List.length text - p) with (List.length text) by lia.
    now rewrite (piece_app input p text (c :: rest) Hs).
  - subst path. cbn [List.app] in Hs.
    pose proof (skipn_cons_nth_error _ _ _ _ Hs) as [Hn _].
    rewrite Hs, scan_ReadEvalString_separator by (simpl in *; tauto).
    rewrite Hn.
    assert (Hlf : Ascii.eqb x LF = false).
    { simpl in Hx. destruct Hx as [<-|[<-|[<-|[]]]]; reflexivity. }
    rewrite Hlf.
    change (piece input p 1) with (piece input p (List.length [x])).
    now rewrite (piece_app input p [x] (c :: rest) Hs).
  - rewrite Hs.
    destruct Hesc as [c|c|w c Hw Hc|name c Hne Hname|name c Hne Hname Hc];
      cbn [List.app List.length add_fragment] in *.
    + now rewrite scan_ReadEvalString_dollar_dollar.
    + now rewrite scan_ReadEvalString_dollar_space.
    + now rewrite scan_ReadEvalString_continuation by assumption.
    + rewrite <- app_assoc in Hs |- *. cbn [List.app] in Hs |- *.
      rewrite scan_ReadEvalString_braced by assumption.
      rewrite length_app. cbn [List.length].
      replace (p + (3 + List.length name) - p - 3) with (List.length name)
        by lia.
      rewrite (piece_app input (p + 2) name ("}"%char :: c :: rest)).
      * do 3 f_equal. lia.
      * apply (skipn_app_skipn input p ["$"; "{"]%char). exact Hs.
    + rewrite scan_ReadEvalString_simple by assumption.
      replace (p + (1 + List.length name) - p - 1) with (List.length name)
        by lia.
      rewrite (piece_app input (p + 1) name (c :: rest)).
      * reflexivity.
      * apply (skipn_app_skipn input p ["$"]%char). exact Hs.
Qed.

(** C5, amended.  Let the loop of [ReadEvalString] be at the top of a pass,
    at the offset [p] and with the fragments [eval'] of what it has scanned
    so far, whatever that was and in either mode.  If the byte at [p] is the
    NUL, the call fails with the message "unexpected EOF" and the offset of
    the NUL is recorded in [last_token_].  If instead a [${] is at [p] and
    its name runs into the NUL before any [}], the call fails with "lexing
    error" and the offset recorded is the one of the [$].  In both cases
    the cursor does not move and the fragments are those scanned so far.
    The loop is at the top of a pass at the cursor, when the call starts,
    and again behind every run of plain text, behind every space, colon or
    pipe of non-path mode and behind every escape that it finds there. *)
Theorem ReadEvalString_end_of_buffer l eval path err eval' p :
  scanned (input_ l) path eval (ofs_ l) eval' p ->
  (nth_error (input_ l) p = Some NUL ->
   exists msg,
     ReadEvalString l eval path err
     = Done (false, eval', msg, set_last_token l p)
     /\ Error (set_last_token l p) "unexpected EOF" = Done (false, msg))
  /\
  (forall name rest,
     forallb varname_char name = true ->
     skipn p (input_ l) = "$"%char :: "{"%char :: name ++ NUL :: rest ->
     exists msg,
       ReadEvalString l eval path err
       = Done (false, eval', msg, set_last_token l p)
       /\ Error (set_last_token l p) "lexing error" = Done (false, msg))
  /\
  (forall w c rest frag,
     pass_spec path w c frag ->
     skipn p (input_ l) = w ++ c :: rest ->
     scanned (input_ l) path eval (ofs_ l)
       (add_fragment eval' frag) (p + List.length w)).
Proof.
  intros Hscan. split; [|split].
  - intros Hnul.
    apply (ReadEvalString_fails l eval path err eval' p _ p Hscan);
      [now apply ReadEvalString_body_NUL | exact Hnul | lia].
  - intros name rest Hname Hs.
    assert (Hnul : nth_error (input_ l) (p + (2 + List.length name))
                   = Some NUL).
    { pose proof Hs as Hs'.
      apply (skipn_app_skipn _ _ ("$"%char :: "{"%char :: name)) in Hs'.
      now apply skipn_cons_nth_error in Hs'. }
    apply (ReadEvalString_fails l eval path err eval' p _
             (p + (2 + List.length name)) Hscan);
      [|exact Hnul | lia].
    now apply (ReadEvalString_body_unclosed _ _ _ _ name rest).
  - intros w c rest frag Hpass Hs.
    apply (scanned_snoc _ _ _ _ _ _ _ _ Hscan).
    now apply (ReadEvalString_body_pass _ _ _ _ _ c rest).
Qed.

Lemma ReadEvalString_end_of_buffer_witness :
  (exists msg,
     ReadEvalString (new_Lexer "a b") [] false ""
     = Done (false, [(RAW, "a"); (RAW, " "); (RAW, "b")]%string, msg,
             set_last_token (new_Lexer "a b") 3)
     /\ Error (set_last_token (new_Lexer "a b") 3) "unexpected EOF"
        = Done (false, msg))
  /\
  (exists msg,
     ReadEvalString (new_Lexer "a ${x") [] false ""
     = Done (false, [(RAW, "a"); (RAW, " ")]%string, msg,
             set_last_token (new_Lexer "a ${x") 2)
     /\ Error (set_last_token (new_Lexer "a ${x") 2) "lexing error"
        = Done (false, msg)).
Proof.
  split.
  - assert (H : scanned (input_ (new_Lexer "a b")) false [] 0
                  [(RAW, "a"); (RAW, " "); (RAW, "b")]%string 3).
    { apply (@scanned_pass _ _ _ _ [(RAW, "a")]%string 1); [reflexivity|].
      apply (@scanned_pass _ _ _ _ [(RAW, "a"); (RAW, " ")]%string 2);
        [reflexivity|].
      apply (@scanned_pass _ _ _ _
               [(RAW, "a"); (RAW, " "); (RAW, "b")]%string 3); [reflexivity|].
      apply scanned_here. }
    apply (proj1 (ReadEvalString_end_of_buffer (new_Lexer "a b") [] false ""
                    _ 3 H)).
    reflexivity.
  - assert (H : scanned (input_ (new_Lexer "a ${x")) false [] 0
                  [(RAW, "a"); (RAW, " ")]%string 2).
    { apply (@scanned_pass _ _ _ _ [(RAW, "a")]%string 1); [reflexivity|].
      apply (@scanned_pass _ _ _ _ [(RAW, "a"); (RAW, " ")]%string 2);
        [reflexivity|].
      apply scanned_here. }
    apply (proj1 (proj2 (ReadEvalString_end_of_buffer (new_Lexer "a ${x") []
                           false "" _ 2 H))
             (list_ascii_of_string "x") []);
      reflexivity.
Defined.

(** * More of the lexer *)

(** ** The matcher and the language of the rules *)

Lemma nullable_matches (r : re) : nullable r = true <-> matches r [].
Proof.
  split.
  - induction r; simpl; intros H; try discriminate.
    + constructor.
    + apply andb_true_iff in H as [H1 H2].
      apply (matches_cat (IHr1 H1) (IHr2 H2)).
    + apply orb_true_iff in H as [H|H]; [apply matches_alt_l | apply matches_alt_r]; auto.
    + constructor.
  - intros H. remember [] as w eqn:E. induction H; simpl; auto; try discriminate.
    + apply app_eq_nil in E as [-> ->]. now rewrite IHmatches1, IHmatches2.
    + now rewrite IHmatches.
    + rewrite IHmatches; auto using orb_true_r.
Qed.

Lemma matches_cat_smart (a b : re) w : matches (cat a b) w <-> matches (Cat a b) w.
Proof.
  split.
  - intros H. destruct a, b; simpl in H; try exact H; try (now inversion H);
      try (rewrite <- (app_nil_l w); apply matches_cat; [constructor | exact H]);
      try (rewrite <- (app_nil_r w); apply matches_cat; [exact H | constructor]).
  - intros H. inversion H as [| |a' b' u v Ha Hb| | | |]; subst.
    destruct a, b; simpl; try (now inversion Ha); try (now inversion Hb);
      try (now apply matches_cat);
      try (inversion Ha; subst; exact Hb);
      try (inversion Hb; subst; rewrite app_nil_r; exact Ha).
Qed.

Lemma matches_alt_smart (a b : re) w : matches (alt a b) w <-> matches (Alt a b) w.
Proof.
  split.
  - intros H. destruct a, b; simpl in H;
      try (now inversion H);
      try exact H;
      try (now apply matches_alt_r);
      try (now apply matches_alt_l).
  - intros H. inversion H; subst;
      destruct a, b; simpl; auto using matches_alt_l, matches_alt_r;
      match goal with H : matches Void _ |- _ => inversion H end.
Qed.

Lemma matches_star_cons a c w :
  matches (Star a) (c :: w) ->
  exists u v, w = u ++ v /\ matches a (c :: u) /\ matches (Star a) v.
Proof.
  intros H. remember (Star a) as r eqn:Er. remember (c :: w) as cw eqn:Ew.
  revert w Ew. induction H; intros w0 Ew; try discriminate.
  injection Er as ->.
  destruct u as [|x u].
  - simpl in Ew. now apply IHmatches2.
  - injection Ew as -> <-. now exists u, v.
Qed.

Lemma deriv_matches c (r : re) : forall w, matches (deriv c r) w <-> matches r (c :: w).
Proof.
  induction r; intros w; simpl.
  - split; intros H; inversion H.
  - split; intros H; inversion H.
  - destruct (p c) eqn:Hp; split; intros H; inversion H; subst.
    + now constructor.
    + constructor.
    + congruence.
  - rewrite matches_alt_smart. split.
    + intros H. inversion H as [| | |a' b' w' Hl|a' b' w' Hr| |]; subst.
      * apply matches_cat_smart in Hl.
        inversion Hl as [| |a' b' u v Ha Hb| | | |]; subst.
        apply IHr1 in Ha. apply (matches_cat Ha Hb).
      * destruct (nullable r1) eqn:N; [|inversion Hr].
        apply IHr2 in Hr. apply nullable_matches in N.
        apply (matches_cat N Hr).
    + intros H. inversion H as [| |a' b' u v Ha Hb| | | |]; subst.
      destruct u as [|x u].
      * simpl in *. subst v. apply matches_alt_r.
        apply nullable_matches in Ha. rewrite Ha. now apply IHr2.
      * match goal with E : _ ++ _ = _ :: _ |- _ => injection E as -> <- end.
        apply matches_alt_l, matches_cat_smart, matches_cat; [now apply IHr1 | exact Hb].
  - rewrite matches_alt_smart. split.
    + intros H. inversion H; subst; [apply matches_alt_l; now apply IHr1 | apply matches_alt_r; now apply IHr2].
    + intros H. inversion H; subst; [apply matches_alt_l; now apply IHr1 | apply matches_alt_r; now apply IHr2].
  - rewrite matches_cat_smart. split.
    + intros H. inversion H as [| |a' b' u v Ha Hb| | | |]; subst.
      apply IHr in Ha. apply (matches_star_app Ha Hb).
    + intros H. apply matches_star_cons in H as (u & v & -> & Ha & Hv).
      apply matches_cat; [now apply IHr | exact Hv].
Qed.

Lemma deriv_word_matches w : forall (r : re),
  nullable (deriv_word w r) = true <-> matches r w.
Proof.
  induction w as [|c w IH]; intros r.
  - apply nullable_matches.
  - rewrite deriv_word_cons, IH. apply deriv_matches.
Qed.

Section Longest.

Variable A : Type.
Implicit Types (rs : rules A) (s w : list ascii) (acc : option (A * nat)).

Lemma steps_cons c w rs : steps (c :: w) rs = steps w (step c rs).
Proof. reflexivity. Qed.

Lemma steps_In w : forall rs r a,
  In (r, a) rs -> In (deriv_word w r, a) (steps w rs).
Proof.
  induction w as [|c w IH]; intros rs r a Hin; [exact Hin|].
  rewrite steps_cons, deriv_word_cons. apply IH.
  unfold step. apply in_map_iff. now exists (r, a).
Qed.

Lemma steps_In_inv w : forall rs r a,
  In (r, a) (steps w rs) -> exists r0, In (r0, a) rs /\ r = deriv_word w r0.
Proof.
  induction w as [|c w IH]; intros rs r a Hin; [now exists r|].
  rewrite steps_cons in Hin. apply IH in Hin as (r1 & Hin & ->).
  apply step_In in Hin as (r0 & Hin & ->). now exists r0.
Qed.

(** The rule that answers matches the bytes. *)
Lemma accepting_steps_matches w rs a :
  accepting (steps w rs) = Some a -> exists r, In (r, a) rs /\ matches r w.
Proof.
  intros H. apply accepting_In in H as (r & Hin & Hn).
  apply steps_In_inv in Hin as (r0 & Hin & ->).
  exists r0. split; [exact Hin|]. now apply deriv_word_matches.
Qed.

(** No answer: no rule matches the bytes. *)
Lemma accepting_steps_none w rs r a :
  accepting (steps w rs) = None -> In (r, a) rs -> ~ matches r w.
Proof.
  intros H Hin Hm. apply deriv_word_matches in Hm.
  apply (steps_In w) in Hin. unfold accepting in H.
  destruct (find _ (steps w rs)) as [x|] eqn:F; [discriminate|].
  apply (find_none _ _ F) in Hin. simpl in Hin. congruence.
Qed.

Lemma more_false_deriv c (r : re) : more r = false -> nonvoid (deriv c r) = false.
Proof.
  induction r; simpl; intros H; try reflexivity; try discriminate.
  - rewrite nonvoid_alt, nonvoid_cat.
    apply orb_false_iff in H as [H1 H2].
    destruct (nonvoid r2) eqn:V2.
    + rewrite andb_true_r in H1. rewrite (IHr1 H1). simpl.
      destruct (nullable r1) eqn:N; [|reflexivity].
      apply nullable_nonvoid in N. rewrite N in H2. now apply IHr2.
    + rewrite andb_false_r. simpl.
      destruct (nullable r1); [now apply nonvoid_deriv | reflexivity].
  - rewrite nonvoid_alt. apply orb_false_iff in H as [H1 H2].
    now rewrite IHr1, IHr2.
  - now rewrite nonvoid_cat, IHr.
Qed.

Lemma dead_steps w rs :
  live rs = false -> w <> [] -> accepting (steps w rs) = None.
Proof.
  intros Hd Hw. destruct (accepting (steps w rs)) as [a|] eqn:Hacc; [|reflexivity].
  exfalso. apply accepting_In in Hacc as (r & Hin & Hn).
  apply steps_In_inv in Hin as (r0 & Hin & ->).
  destruct w as [|c w]; [contradiction|].
  rewrite deriv_word_cons in Hn. apply nullable_nonvoid in Hn.
  rewrite nonvoid_deriv_word in Hn; [discriminate|].
  apply more_false_deriv.
  unfold live in Hd. destruct (more r0) eqn:M; [|reflexivity].
  assert (existsb (fun ra : re * A => more (fst ra)) rs = true); [|congruence].
  apply existsb_exists. now exists (r0, a).
Qed.

(** The answer of the matcher is the first rule, in the order of the block,
    that matches the bytes of the answer. *)
Lemma run_first s : forall rs n acc a len,
  run rs n acc s = Matched a len ->
  acc = Some (a, len)
  \/ (n < len /\ len <= n + List.length s
      /\ accepting (steps (firstn (len - n) s) rs) = Some a).
Proof.
  induction s as [|c s IH]; intros rs n acc a len H.
  - simpl in H. destruct (live rs); [discriminate|].
    destruct acc as [[a' l']|]; [|discriminate].
    injection H as -> ->. now left.
  - rewrite run_cons in H. destruct (live rs).
    + apply IH in H. cbn [List.length].
      destruct H as [H|(Hn & Hl & Hacc)].
      * destruct (accepting (step c rs)) as [a'|] eqn:Hacc; [|now left].
        injection H as -> <-. right.
        split; [lia|]. split; [lia|].
        now replace (S n - n) with 1 by lia.
      * right. split; [lia|]. split; [lia|].
        now replace (len - n) with (S (len - S n)) by lia.
    + destruct acc as [[a' l']|]; [|discriminate].
      injection H as -> ->. now left.
Qed.

(** No rule matches more bytes than the answer has. *)
Lemma run_longest s : forall rs n acc a len k,
  run rs n acc s = Matched a len ->
  0 < k -> k <= List.length s -> len < n + k ->
  accepting (steps (firstn k s) rs) = None.
Proof.
  induction s as [|c s IH]; intros rs n acc a len k H Hk Hks Hlen.
  - simpl in Hks. lia.
  - destruct k as [|k]; [lia|]. cbn [firstn]. rewrite steps_cons.
    rewrite run_cons in H. destruct (live rs) eqn:Hlive.
    + destruct k as [|k].
      * cbn [firstn steps fold_left].
        destruct (accepting (step c rs)) as [a'|] eqn:Hacc; [|reflexivity].
        apply run_matched in H as [H|H]; [injection H as _ <-|]; lia.
      * apply (IH _ _ _ _ _ _ H); cbn [List.length] in Hks; lia.
    + change (steps (firstn k s) (step c rs)) with (steps (c :: firstn k s) rs).
      now apply dead_steps.
Qed.

Lemma scan_first rs s a len :
  scan rs s = Matched a len ->
  0 < len /\ len <= List.length s
  /\ accepting (steps (firstn len s) rs) = Some a.
Proof.
  unfold scan. intros H.
  apply run_first in H as [H|(H1 & H2 & H3)]; [discriminate|].
  rewrite Nat.sub_0_r in H3. auto.
Qed.

Lemma scan_matches rs s a len :
  scan rs s = Matched a len ->
  0 < len /\ len <= List.length s
  /\ exists r, In (r, a) rs /\ matches r (firstn len s).
Proof.
  intros H. apply scan_first in H as (H1 & H2 & H3).
  apply accepting_steps_matches in H3. auto.
Qed.

Lemma scan_longest rs s a len k r b :
  scan rs s = Matched a len ->
  len < k -> k <= List.length s -> In (r, b) rs ->
  ~ matches r (firstn k s).
Proof.
  unfold scan. intros H Hk Hks Hin.
  apply (accepting_steps_none _ rs r b); [|exact Hin].
  apply (run_longest _ _ _ _ _ _ _ H); lia.
Qed.

End Longest.

(** The words of the shapes the rule blocks are made of. *)

Lemma matches_Cls_inv p w :
  matches (Cls p) w -> exists c, w = [c] /\ p c = true.
Proof. intros H. inversion H; subst. eauto. Qed.

Lemma matches_chr_inv c w : matches (chr c) w -> w = [c].
Proof.
  intros H. apply matches_Cls_inv in H as (x & -> & Hx).
  apply Ascii.eqb_eq in Hx. now subst.
Qed.

Lemma matches_lit_inv s : forall w,
  matches (lit s) w -> w = list_ascii_of_string s.
Proof.
  induction s as [|c s IH]; intros w H.
  - now inversion H.
  - destruct s as [|c' s].
    + now apply matches_chr_inv in H.
    + change (lit (String c (String c' s)))
        with (Cat (chr c) (lit (String c' s))) in H.
      inversion H as [| |a b u v Ha Hb| | | |]; subst.
      apply matches_chr_inv in Ha. apply IH in Hb. subst. reflexivity.
Qed.

Lemma matches_star_Cls_inv p w :
  matches (Star (Cls p)) w -> forallb p w = true.
Proof.
  intros H. remember (Star (Cls p)) as r eqn:Er.
  induction H; try discriminate; [reflexivity|].
  injection Er as ->. apply matches_Cls_inv in H as (c & -> & Hc).
  simpl. now rewrite Hc, IHmatches2.
Qed.

Lemma matches_plus_Cls_inv p w :
  matches (plus (Cls p)) w -> w <> [] /\ forallb p w = true.
Proof.
  intros H. inversion H as [| |a b u v Ha Hb| | | |]; subst.
  apply matches_Cls_inv in Ha as (c & -> & Hc).
  apply matches_star_Cls_inv in Hb. simpl. rewrite Hc, Hb.
  split; [discriminate | reflexivity].
Qed.

Lemma matches_star_Cls p w :
  forallb p w = true -> matches (Star (Cls p)) w.
Proof.
  induction w as [|c w IH]; simpl; intros H; [constructor|].
  apply andb_true_iff in H as [Hc Hw].
  apply (matches_star_app (u:=[c])); [now constructor | now apply IH].
Qed.

Lemma matches_plus_Cls p w :
  w <> [] -> forallb p w = true -> matches (plus (Cls p)) w.
Proof.
  destruct w as [|c w]; [contradiction|]. simpl. intros _ H.
  apply andb_true_iff in H as [Hc Hw].
  apply (matches_cat (u:=[c])); [now constructor | now apply matches_star_Cls].
Qed.

(** ** ReadToken: the span of a token *)

Lemma forallb_false_split (f : ascii -> bool) s :
  forallb f s = false ->
  exists w c r, s = w ++ c :: r /\ forallb f w = true /\ f c = false.
Proof.
  induction s as [|x s IH]; simpl; intros H; [discriminate|].
  destruct (f x) eqn:Hx.
  - destruct (IH H) as (w & c & r & -> & Hw & Hc).
    exists (x :: w), c, r. simpl. now rewrite Hx, Hw.
  - now exists [], x, s.
Qed.

(** At a [#] the loop of [ReadToken] skips or leaves the buffer: it never
    has a token there. *)
Lemma scan_ReadToken_hash r a n :
  scan ReadToken_rules ("#"%char :: r) = Matched a n -> a = Skip.
Proof.
  destruct (forallb not_LF r) eqn:Hall.
  - now rewrite scan_unterminated_comment.
  - destruct (forallb_false_split not_LF r Hall) as (w & c & r' & -> & Hw & Hc).
    assert (c = LF).
    { unfold not_LF in Hc. now apply negb_false_iff, Ascii.eqb_eq in Hc. }
    subst c. rewrite scan_ReadToken_comment by exact Hw. now intros [= <- _].
Qed.

(** The pass of the loop that had the token. *)
Lemma ReadToken_loop_emit fuel input : forall p token start p',
  ReadToken_loop fuel input p = Done (token, start, p') ->
  p <= start
  /\ exists n, scan ReadToken_rules (skipn start input) = Matched (Emit token) n
               /\ p' = start + n.
Proof.
  induction fuel as [|fuel IH]; intros p token start p' H; [discriminate|].
  cbn [ReadToken_loop] in H.
  destruct (scan _ _) as [[|t] n| |] eqn:Hscan; try discriminate.
  - apply scan_progress in Hscan. apply IH in H as [Hle H]. split; [lia|exact H].
  - injection H as <- <- <-. split; [lia|]. now exists n.
Qed.

Lemma EatWhitespace_loop_inside fuel : forall l p l',
  EatWhitespace_loop fuel l p = Done l' ->
  exists q, l' = set_ofs l q /\ p <= q < List.length (input_ l).
Proof.
  induction fuel as [|fuel IH]; intros l p l' H; [discriminate|].
  cbn [EatWhitespace_loop] in H. cbn [set_ofs input_] in H.
  destruct (scan _ _) as [[|] n| |] eqn:Hscan; try discriminate;
    apply scan_inside in Hscan.
  - apply IH in H as (q & -> & Hq). exists q. cbn [set_ofs input_] in *.
    split; [reflexivity | lia].
  - injection H as <-. exists p. split; [reflexivity | lia].
Qed.

(** What a call of [ReadToken] that returns has done. *)
Lemma ReadToken_inv l t l' :
  ReadToken l = Done (t, l') ->
  exists start n q,
    scan ReadToken_rules (skipn start (input_ l)) = Matched (Emit t) n
    /\ ofs_ l <= start
    /\ l' = set_ofs (set_last_token l start) q
    /\ start + n <= q <= List.length (input_ l)
    /\ (if negb (Token_eqb t NEWLINE) && negb (Token_eqb t TEOF)
        then EatWhitespace (set_ofs (set_last_token l start) (start + n))
             = Done l'
        else q = start + n).
Proof.
  unfold ReadToken. intros H.
  destruct (ReadToken_loop _ _ _) as [[[t0 start] p']| | |] eqn:Hloop;
    try discriminate.
  cbn [bind] in H.
  apply ReadToken_loop_emit in Hloop as (Hle & n & Hscan & ->).
  pose proof (scan_inside _ _ _ _ _ Hscan) as [Hn Hin].
  destruct (negb (Token_eqb t0 NEWLINE) && negb (Token_eqb t0 TEOF)) eqn:Htok.
  - destruct (EatWhitespace _) as [l1| | |] eqn:He; try discriminate.
    cbn [bind] in H. injection H as -> ->.
    pose proof He as He'. apply EatWhitespace_loop_inside in He' as (q & -> & Hq).
    cbn [set_ofs set_last_token input_ ofs_] in Hq.
    exists start, n, q. rewrite Htok. repeat split; try assumption; lia.
  - injection H as -> <-. exists start, n, (start + n). rewrite Htok.
    repeat split; try assumption; lia.
Qed.

(** X1.  A call of [ReadToken] that returns leaves the buffer and the file
    name as they are, has skipped forward to a token that is not empty and
    lies inside the buffer, has recorded the start of that token in
    [last_token_], and has left the cursor behind the token and inside the
    buffer. *)
Theorem ReadToken_frame l t l' :
  ReadToken l = Done (t, l') ->
  input_ l' = input_ l /\ filename_ l' = filename_ l
  /\ exists start,
       last_token_ l' = Some start
       /\ ofs_ l <= start < ofs_ l' /\ ofs_ l' <= List.length (input_ l).
Proof.
  intros H. apply ReadToken_inv in H as (start & n & q & Hscan & Hle & -> & Hq & _).
  apply scan_inside in Hscan. cbn. repeat split. exists start.
  split; [reflexivity | lia].
Qed.

Lemma ReadToken_frame_witness :
  input_ (set_ofs (set_last_token (new_Lexer "a b") 0) 2)
  = input_ (new_Lexer "a b")
  /\ filename_ (set_ofs (set_last_token (new_Lexer "a b") 0) 2)
     = filename_ (new_Lexer "a b")
  /\ exists start,
       last_token_ (set_ofs (set_last_token (new_Lexer "a b") 0) 2) = Some start
       /\ ofs_ (new_Lexer "a b") <= start
          < ofs_ (set_ofs (set_last_token (new_Lexer "a b") 0) 2)
       /\ ofs_ (set_ofs (set_last_token (new_Lexer "a b") 0) 2)
          <= List.length (input_ (new_Lexer "a b")).
Proof.
  apply (ReadToken_frame (new_Lexer "a b") IDENT
           (set_ofs (set_last_token (new_Lexer "a b") 0) 2)).
  reflexivity.
Defined.

Lemma ReadToken_rules_lexeme r t w :
  In (r, Emit t) ReadToken_rules -> matches r w ->
  match t with
  | IDENT => w <> [] /\ forallb varname_char w = true
  | ERROR => exists c, w = [c]
  | _ => lexeme t w
  end.
Proof.
  intros Hin Hm. unfold ReadToken_rules in Hin. cbn [In] in Hin.
  repeat (destruct Hin as [Hin|Hin];
          [first [discriminate Hin | injection Hin as <- <-]|]);
    try contradiction; cbn [lexeme].
  - now apply matches_chr_inv in Hm.
  - apply matches_plus_Cls_inv in Hm as [H1 H2]. split; [exact H1|].
    unfold is_space. exact H2.
  - now apply (matches_lit_inv "build") in Hm.
  - now apply (matches_lit_inv "rule") in Hm.
  - now apply (matches_lit_inv "default") in Hm.
  - now apply (matches_lit_inv "=") in Hm.
  - now apply (matches_lit_inv ":") in Hm.
  - now apply (matches_lit_inv "||") in Hm.
  - now apply (matches_lit_inv "|") in Hm.
  - now apply (matches_lit_inv "include") in Hm.
  - now apply (matches_lit_inv "subninja") in Hm.
  - now apply matches_plus_Cls_inv in Hm.
  - now apply matches_chr_inv in Hm.
  - apply matches_Cls_inv in Hm as (c & -> & _). now exists c.
Qed.

Lemma accepting_ERROR c :
  accepting (step c ReadToken_rules) = Some (Emit ERROR) ->
  Ascii.eqb c "#" = false -> token_byte c = false.
Proof. all_bytes c; vm_compute; intros H1 H2; congruence. Qed.

Lemma scan_ReadToken_lexeme s t n :
  scan ReadToken_rules s = Matched (Emit t) n -> lexeme t (firstn n s).
Proof.
  intros Hscan.
  pose proof (scan_first _ _ _ _ _ Hscan) as (Hn & Hlen & Hacc).
  pose proof (scan_matches _ _ _ _ _ Hscan) as (_ & _ & r & Hin & Hm).
  pose proof (ReadToken_rules_lexeme r t _ Hin Hm) as Hlex.
  destruct t; try exact Hlex.
  - destruct Hlex as [c Hc]. exists c. split; [exact Hc|].
    rewrite Hc in Hacc. cbn [steps fold_left] in Hacc.
    apply accepting_ERROR; [exact Hacc|].
    destruct (Ascii.eqb c "#") eqn:E; [|reflexivity].
    apply Ascii.eqb_eq in E. subst c.
    destruct s as [|x s]; [destruct n; discriminate Hc|].
    destruct n; [lia|]. cbn [firstn] in Hc. injection Hc as -> _.
    apply scan_ReadToken_hash in Hscan. discriminate Hscan.
  - destruct Hlex as [H1 H2]. cbn [lexeme]. repeat split; try assumption.
    intros kw k Hk E. rewrite E in Hacc. simpl in Hk.
    repeat (destruct Hk as [Hk|Hk];
            [injection Hk as <- <-; vm_compute in Hacc; discriminate Hacc|]).
    contradiction.
Qed.

Lemma firstn_S_nth_error_app (s : list ascii) n c :
  nth_error s n = Some c -> firstn (S n) s = firstn n s ++ [c].
Proof.
  revert s. induction n as [|n IH]; intros [|x s] H; try discriminate.
  - now injection H as ->.
  - simpl in H.
    change (firstn (S (S n)) (x :: s)) with (x :: firstn (S n) s).
    change (firstn (S n) (x :: s)) with (x :: firstn n s).
    now rewrite (IH s H).
Qed.

Lemma ReadToken_rules_IDENT : In (plus (Cls varname_char), Emit IDENT) ReadToken_rules.
Proof. find_rule. Qed.

Lemma ReadToken_rules_INDENT : In (plus (chr " "), Emit INDENT) ReadToken_rules.
Proof. find_rule. Qed.

Lemma ReadToken_rules_PIPE2 : In (lit "||", Emit PIPE2) ReadToken_rules.
Proof. find_rule. Qed.

Lemma scan_ReadToken_maximal s t n c :
  scan ReadToken_rules s = Matched (Emit t) n ->
  nth_error s n = Some c ->
  extends t c = false.
Proof.
  intros Hscan Hc.
  destruct (extends t c) eqn:Hext; [exfalso|reflexivity].
  pose proof (scan_ReadToken_lexeme _ _ _ Hscan) as Hlex.
  assert (Hk : S n <= List.length s).
  { assert (n < List.length s); [|lia]. apply nth_error_Some. congruence. }
  pose proof (firstn_S_nth_error_app s n c Hc) as Hw.
  assert (Hident : forallb varname_char (firstn n s) = true -> firstn n s <> [] ->
                   varname_char c = true -> False).
  { intros Hall Hne Hvc.
    apply (scan_longest _ _ _ _ _ (S n) _ _ Hscan (Nat.lt_succ_diag_r n) Hk
             ReadToken_rules_IDENT).
    rewrite Hw. apply matches_plus_Cls.
    - now destruct (firstn n s).
    - rewrite forallb_app, Hall. simpl. now rewrite Hvc. }
  destruct t; cbn [extends lexeme] in *; try discriminate;
    try (rewrite Hlex in Hident; apply Hident;
         [reflexivity | discriminate | exact Hext]).
  - destruct Hlex as (H1 & H2 & _). now apply Hident.
  - destruct Hlex as [H1 H2].
    apply (scan_longest _ _ _ _ _ (S n) _ _ Hscan (Nat.lt_succ_diag_r n) Hk
             ReadToken_rules_INDENT).
    rewrite Hw. apply matches_plus_Cls.
    + now destruct (firstn n s).
    + change (forallb is_space (firstn n s ++ [c]) = true).
      rewrite forallb_app, H2. simpl. now rewrite Hext.
  - apply Ascii.eqb_eq in Hext. subst c.
    apply (scan_longest _ _ _ _ _ (S n) _ _ Hscan (Nat.lt_succ_diag_r n) Hk
             ReadToken_rules_PIPE2).
    rewrite Hw, Hlex.
    apply (matches_cat (a:=chr "|") (b:=chr "|") (u:=["|"%char]) (v:=["|"%char]));
      now constructor.
Qed.

Lemma ReadToken_after_token l t l' start n q :
  l' = set_ofs (set_last_token l start) q ->
  (if negb (Token_eqb t NEWLINE) && negb (Token_eqb t TEOF)
   then EatWhitespace (set_ofs (set_last_token l start) (start + n)) = Done l'
   else q = start + n) ->
  after_token l t start (start + n) l'.
Proof.
  unfold after_token. intros Hl H.
  destruct (negb (Token_eqb t NEWLINE) && negb (Token_eqb t TEOF));
    [exact H | now subst q].
Qed.

Lemma span_len_exact (f : ascii -> bool) : forall s n,
  n <= List.length s -> forallb f (firstn n s) = true ->
  (forall c, nth_error s n = Some c -> f c = false) ->
  span_len f s = n.
Proof.
  induction s as [|x s IH]; intros n Hn Hall Hnext.
  - cbn [List.length] in Hn. now replace n with 0 by lia.
  - destruct n as [|n]; cbn [span_len].
    + now rewrite (Hnext x eq_refl).
    + cbn [firstn forallb] in Hall. apply andb_true_iff in Hall as [-> Hall].
      f_equal. apply IH; [cbn [List.length] in Hn; lia | exact Hall|].
      intros c Hc. now apply Hnext.
Qed.

(** The match of a token rule is the whole token. *)
Lemma scan_ReadToken_token_len s t n :
  scan ReadToken_rules s = Matched (Emit t) n -> n = token_len t s.
Proof.
  intros Hscan.
  pose proof (scan_first _ _ _ _ _ Hscan) as (Hn & Hlen & _).
  pose proof (scan_ReadToken_lexeme _ _ _ Hscan) as Hlex.
  pose proof (fun c => scan_ReadToken_maximal _ _ _ c Hscan) as Hmax.
  assert (Hl : List.length (firstn n s) = n)
    by (rewrite length_firstn; lia).
  assert (Hrun : forall f,
            forallb f (firstn n s) = true ->
            (forall c, nth_error s n = Some c -> f c = false) ->
            n = span_len f s).
  { intros f H1 H2. symmetry. now apply span_len_exact. }
  destruct t; cbn [lexeme token_len extends] in *;
    try (rewrite Hlex in Hl; exact (eq_sym Hl));
    try (apply Hrun; [now rewrite Hlex | exact Hmax]).
  - destruct Hlex as (c & Hc & _). rewrite Hc in Hl. exact (eq_sym Hl).
  - destruct Hlex as (_ & Hall & _). now apply Hrun.
  - destruct Hlex as (_ & Hall). now apply Hrun.
Qed.

(** X2.  The bytes of the token that [ReadToken] returns spell its kind.
    The token starts at [last_token_] and is as long as its kind says: the
    whole run of identifier bytes for a keyword or an IDENT, the whole run
    of spaces for an INDENT, two bytes for PIPE2 and one otherwise.  These
    bytes are the keyword for a keyword token, no keyword for an IDENT,
    spaces for an INDENT, the one or two bytes of its name for a punctuation
    token, the NUL for TEOF, and for ERROR one byte with which no token and
    no comment starts.  The lexer is left as [ReadToken] leaves it behind a
    token that ends there: whitespace eaten, except behind NEWLINE and
    TEOF. *)
Theorem ReadToken_lexeme l t l' :
  ReadToken l = Done (t, l') ->
  exists start,
    last_token_ l' = Some start /\ ofs_ l <= start
    /\ let s := skipn start (input_ l) in
       let n := token_len t s in
       0 < n /\ n <= List.length s
       /\ lexeme t (firstn n s)
       /\ after_token l t start (start + n) l'.
Proof.
  intros H.
  apply ReadToken_inv in H as (start & n & q & Hscan & Hle & Hl & Hq & He).
  exists start. cbv zeta.
  rewrite <- (scan_ReadToken_token_len _ _ _ Hscan).
  pose proof (scan_first _ _ _ _ _ Hscan) as (Hn & Hlen & _).
  repeat split; try assumption.
  - subst l'. reflexivity.
  - now apply scan_ReadToken_lexeme.
  - exact (ReadToken_after_token _ _ _ _ _ _ Hl He).
Qed.

Lemma ReadToken_lexeme_witness :
  exists start,
    last_token_ (set_ofs (set_last_token (new_Lexer "builder x") 0) 8)
    = Some start
    /\ ofs_ (new_Lexer "builder x") <= start
    /\ 0 < token_len IDENT (skipn start (input_ (new_Lexer "builder x")))
    /\ token_len IDENT (skipn start (input_ (new_Lexer "builder x")))
       <= List.length (skipn start (input_ (new_Lexer "builder x")))
    /\ lexeme IDENT
         (firstn (token_len IDENT (skipn start (input_ (new_Lexer "builder x"))))
            (skipn start (input_ (new_Lexer "builder x"))))
    /\ after_token (new_Lexer "builder x") IDENT start
         (start + token_len IDENT (skipn start (input_ (new_Lexer "builder x"))))
         (set_ofs (set_last_token (new_Lexer "builder x") 0) 8).
Proof.
  apply (ReadToken_lexeme (new_Lexer "builder x") IDENT
           (set_ofs (set_last_token (new_Lexer "builder x") 0) 8)).
  reflexivity.
Defined.

(** X3.  A token is as long as it can be.  The token that [ReadToken]
    returns starts at [last_token_] and ends where the whitespace that the
    call eats begins; the byte behind its end is no identifier byte if the
    token is an IDENT or a keyword, no space if it is an INDENT, and no [|]
    if it is a PIPE. *)
Theorem ReadToken_maximal l t l' :
  ReadToken l = Done (t, l') ->
  exists start n,
    last_token_ l' = Some start /\ 0 < n
    /\ List.length (firstn n (skipn start (input_ l))) = n
    /\ lexeme t (firstn n (skipn start (input_ l)))
    /\ after_token l t start (start + n) l'
    /\ forall c,
         nth_error (input_ l) (start + n) = Some c -> extends t c = false.
Proof.
  intros H.
  apply ReadToken_inv in H as (start & n & q & Hscan & Hle & Hl & Hq & He).
  exists start, n.
  pose proof (scan_first _ _ _ _ _ Hscan) as (Hn & Hlen & _).
  repeat split; try assumption.
  - subst l'. reflexivity.
  - rewrite length_firstn. lia.
  - now apply scan_ReadToken_lexeme.
  - exact (ReadToken_after_token _ _ _ _ _ _ Hl He).
  - intros c Hc. apply (scan_ReadToken_maximal _ _ _ _ Hscan).
    now rewrite nth_error_skipn.
Qed.

Lemma ReadToken_maximal_witness :
  exists start n,
    last_token_ (set_ofs (set_last_token (new_Lexer "rules  =") 0) 7)
    = Some start
    /\ 0 < n
    /\ List.length (firstn n (skipn start (input_ (new_Lexer "rules  =")))) = n
    /\ lexeme IDENT (firstn n (skipn start (input_ (new_Lexer "rules  ="))))
    /\ after_token (new_Lexer "rules  =") IDENT start (start + n)
         (set_ofs (set_last_token (new_Lexer "rules  =") 0) 7)
    /\ forall c,
         nth_error (input_ (new_Lexer "rules  =")) (start + n) = Some c ->
         extends IDENT c = false.
Proof.
  apply (ReadToken_maximal (new_Lexer "rules  =") IDENT
           (set_ofs (set_last_token (new_Lexer "rules  =") 0) 7)).
  reflexivity.
Defined.

(** ** ReadToken, UnreadToken and PeekToken together *)

(** Reading again from the start of the token gives the token again. *)
Lemma ReadToken_reread l t l' :
  ReadToken l = Done (t, l') ->
  exists start,
    last_token_ l' = Some start /\ ofs_ l <= start
    /\ ReadToken (set_ofs l' start) = Done (t, l').
Proof.
  intros H.
  apply ReadToken_inv in H as (start & n & q & Hscan & Hle & -> & Hq & He).
  exists start. split; [reflexivity|]. split; [exact Hle|].
  unfold ReadToken, fuel_of. cbn [ReadToken_loop].
  cbn [set_ofs set_last_token input_ ofs_ filename_ last_token_].
  rewrite Hscan. cbn [bind].
  destruct (negb (Token_eqb t NEWLINE) && negb (Token_eqb t TEOF)).
  - change (EatWhitespace _) with
      (EatWhitespace (set_ofs (set_last_token l start) (start + n))).
    now rewrite He.
  - subst q. reflexivity.
Qed.

(** X4.  One level of pushback works: after a [ReadToken] that returned,
    [UnreadToken] puts the cursor on the start of the token, and the next
    [ReadToken] returns the same token and leaves the lexer in the very
    state the first one left it in. *)
Theorem UnreadToken_ReadToken l t l1 :
  ReadToken l = Done (t, l1) ->
  exists l2,
    UnreadToken l1 = Some l2
    /\ last_token_ l1 = Some (ofs_ l2)
    /\ ReadToken l2 = Done (t, l1).
Proof.
  intros H. apply ReadToken_reread in H as (start & Hlast & _ & Hre).
  exists (set_ofs l1 start). unfold UnreadToken. rewrite Hlast. auto.
Qed.

Lemma UnreadToken_ReadToken_witness :
  exists l2,
    UnreadToken (set_ofs (set_last_token (new_Lexer "a  b") 0) 3) = Some l2
    /\ last_token_ (set_ofs (set_last_token (new_Lexer "a  b") 0) 3)
       = Some (ofs_ l2)
    /\ ReadToken l2
       = Done (IDENT, set_ofs (set_last_token (new_Lexer "a  b") 0) 3).
Proof.
  apply (UnreadToken_ReadToken (new_Lexer "a  b") IDENT
           (set_ofs (set_last_token (new_Lexer "a  b") 0) 3)).
  reflexivity.
Defined.

(** X5.  [PeekToken] is [ReadToken] with a test: it returns true exactly
    when the token read is the one asked for, and then it is in the state
    [ReadToken] leaves.  When it returns false, the token is not lost: the
    next [ReadToken] returns the token that was read, in the state that
    [ReadToken] would have left without the peek. *)
Theorem PeekToken_ReadToken l token b l' :
  PeekToken l token = Done (b, l') ->
  exists t l1,
    ReadToken l = Done (t, l1)
    /\ b = Token_eqb t token
    /\ (if b then l' = l1 else ReadToken l' = Done (t, l1)).
Proof.
  unfold PeekToken. intros H.
  destruct (ReadToken l) as [[t l1]| | |] eqn:Hread; try discriminate.
  cbn [bind] in H. exists t, l1. split; [reflexivity|].
  destruct (ReadToken_reread _ _ _ Hread) as (start & Hlast & _ & Hre).
  destruct (Token_eqb t token).
  - now injection H as <- <-.
  - unfold UnreadToken in H. rewrite Hlast in H. now injection H as <- <-.
Qed.

Lemma PeekToken_ReadToken_witness :
  exists t l1,
    ReadToken (new_Lexer "foo") = Done (t, l1)
    /\ false = Token_eqb t BUILD
    /\ ReadToken (set_ofs (set_last_token (new_Lexer "foo") 0) 0)
       = Done (t, l1).
Proof.
  apply (PeekToken_ReadToken (new_Lexer "foo") BUILD false
           (set_ofs (set_last_token (new_Lexer "foo") 0) 0)).
  reflexivity.
Defined.

(** ** ReadToken: comments, newlines and indentation *)

Lemma ReadToken_loop_more fuel : forall input p r,
  ReadToken_loop fuel input p = r -> r <> OutOfFuel ->
  ReadToken_loop (S fuel) input p = r.
Proof.
  induction fuel as [|fuel IH]; intros input p r H Hr; [now subst r|].
  cbn [ReadToken_loop] in H. change (ReadToken_loop (S (S fuel)) input p)
    with (match scan ReadToken_rules (skipn p input) with
          | Matched Skip n => ReadToken_loop (S fuel) input (p + n)
          | Matched (Emit token) n => Done (token, p, p + n)
          | Unmatched => Undefined
          | PastEnd => OutOfBounds
          end).
  destruct (scan _ _) as [[|t] n| |]; try exact H. now apply IH.
Qed.

(** X6.  A comment line is invisible: with the cursor on a [#] whose line
    ends with a newline, [ReadToken] does exactly what it does with the
    cursor behind that newline, result and state. *)
Theorem ReadToken_skips_comment l w rest :
  skipn (ofs_ l) (input_ l) = "#"%char :: w ++ LF :: rest ->
  forallb not_LF w = true ->
  ReadToken l = ReadToken (set_ofs l (ofs_ l + (2 + List.length w))).
Proof.
  intros Hs Hw.
  assert (Hloop :
    ReadToken_loop (fuel_of (input_ l)) (input_ l) (ofs_ l)
    = ReadToken_loop (fuel_of (input_ l)) (input_ l)
        (ofs_ l + (2 + List.length w))).
  { unfold fuel_of at 1. cbn [ReadToken_loop].
    rewrite Hs, (scan_ReadToken_comment w rest Hw).
    symmetry. apply ReadToken_loop_more; [reflexivity|].
    apply ReadToken_loop_fuel.
    apply skipn_length_le in Hs. cbn [List.length] in Hs.
    rewrite length_app in Hs. cbn [List.length] in Hs. lia. }
  unfold ReadToken. cbn [set_ofs input_ ofs_]. now rewrite Hloop.
Qed.

Lemma ReadToken_skips_comment_witness :
  ReadToken (new_Lexer ("# c" ++ String LF "x"))
  = ReadToken (set_ofs (new_Lexer ("# c" ++ String LF "x")) (0 + (2 + 2))).
Proof.
  apply (ReadToken_skips_comment (new_Lexer ("# c" ++ String LF "x"))
           [" "; "c"]%char ["x"%char; NUL]); reflexivity.
Defined.

Lemma scan_ReadToken_LF rest :
  scan ReadToken_rules (LF :: rest) = Matched (Emit NEWLINE) 1.
Proof. unfold scan. step_run. now stop_run. Qed.

Lemma ReadToken_spaces_stay c :
  is_space c = true -> step c ReadToken_spaces = ReadToken_spaces.
Proof. unfold is_space. intros H. eval_run. now rewrite H. Qed.

Lemma scan_ReadToken_spaces w c rest :
  forallb is_space w = true -> is_space c = false ->
  scan ReadToken_rules (" "%char :: w ++ c :: rest)
  = Matched (Emit INDENT) (S (List.length w)).
Proof.
  intros Hw Hc. unfold scan. step_run. unfold is_space in Hc.
  destruct w as [|x w].
  - step_run. rewrite Hc. now stop_run.
  - simpl in Hw. apply andb_true_iff in Hw as [Hx Hw]. unfold is_space in Hx.
    step_run. rewrite Hx. eval_run.
    change (run ?rs 2 ?a ?s0) with (run ReadToken_spaces 2 a s0).
    rewrite (run_stay_accepting _ is_space ReadToken_spaces (Emit INDENT)
               eq_refl ReadToken_spaces_stay eq_refl _ _ _ Hw).
    step_run. rewrite Hc. now stop_run.
Qed.

(** X7.  The indentation of a line is one token.  At a newline
    [ReadToken] returns NEWLINE and eats nothing behind it, so that a run of
    spaces at the start of the next line, however long, comes back from the
    next [ReadToken] as one INDENT that spans the whole run. *)
Theorem ReadToken_NEWLINE_INDENT l w c rest :
  skipn (ofs_ l) (input_ l) = LF :: " "%char :: w ++ c :: rest ->
  forallb is_space w = true -> is_space c = false ->
  terminated (c :: rest) ->
  exists l1 l2,
    ReadToken l = Done (NEWLINE, l1)
    /\ last_token_ l1 = Some (ofs_ l) /\ ofs_ l1 = ofs_ l + 1
    /\ ReadToken l1 = Done (INDENT, l2)
    /\ last_token_ l2 = Some (ofs_ l + 1)
    /\ ofs_ l + 2 + List.length w <= ofs_ l2.
Proof.
  intros Hs Hw Hc Ht.
  exists (set_ofs (set_last_token l (ofs_ l)) (ofs_ l + 1)).
  assert (H1 : ReadToken l
               = Done (NEWLINE, set_ofs (set_last_token l (ofs_ l)) (ofs_ l + 1))).
  { unfold ReadToken, fuel_of. cbn [ReadToken_loop].
    now rewrite Hs, scan_ReadToken_LF. }
  assert (Hs1 : skipn (ofs_ l + 1) (input_ l) = " "%char :: w ++ c :: rest).
  { now apply (skipn_app_skipn _ _ [LF]) in Hs. }
  assert (Hs2 : skipn (ofs_ l + 1 + S (List.length w)) (input_ l) = c :: rest).
  { now apply (skipn_app_skipn _ _ (" "%char :: w)) in Hs1. }
  destruct (ReadToken_after_loop
              (set_ofs (set_last_token l (ofs_ l)) (ofs_ l + 1))
              INDENT (ofs_ l + 1) (ofs_ l + 1 + S (List.length w)))
    as (l2 & H2 & Hlast & Hofs & _).
  { unfold fuel_of. cbn [ReadToken_loop set_ofs set_last_token input_ ofs_].
    now rewrite Hs1, scan_ReadToken_spaces. }
  { reflexivity. }
  { cbn [input_ set_ofs set_last_token]. now rewrite Hs2. }
  exists l2. repeat split; try assumption. lia.
Qed.

Lemma ReadToken_NEWLINE_INDENT_witness :
  exists l1 l2,
    ReadToken (set_ofs (new_Lexer ("a" ++ String LF "   b")) 1)
    = Done (NEWLINE, l1)
    /\ last_token_ l1 = Some 1 /\ ofs_ l1 = 1 + 1
    /\ ReadToken l1 = Done (INDENT, l2)
    /\ last_token_ l2 = Some (1 + 1)
    /\ 1 + 2 + 2 <= ofs_ l2.
Proof.
  apply (ReadToken_NEWLINE_INDENT
           (set_ofs (new_Lexer ("a" ++ String LF "   b")) 1)
           [" "; " "]%char "b"%char [NUL]).
  - reflexivity.
  - reflexivity.
  - reflexivity.
  - now exists ["b"%char].
Defined.

(** X8.  On a buffer that ends with its NUL, [ReadToken] returns a token in
    every case but one: a comment, at the cursor or behind further comment
    lines, that no newline ends before the buffer does.  In that case, and in
    no other, it reads outside the buffer. *)
Theorem ReadToken_returns_or_overruns l :
  terminated (skipn (ofs_ l) (input_ l)) ->
  (exists token l', ReadToken l = Done (token, l'))
  \/ (ReadToken l = OutOfBounds
      /\ exists start w,
           ofs_ l <= start /\ skipn start (input_ l) = "#"%char :: w
           /\ forallb not_LF w = true).
Proof. exact (ReadToken_returns l). Qed.

Lemma ReadToken_returns_or_overruns_witness :
  (exists token l', ReadToken (new_Lexer "a = b") = Done (token, l'))
  \/ (ReadToken (new_Lexer "a = b") = OutOfBounds
      /\ exists start w,
           ofs_ (new_Lexer "a = b") <= start
           /\ skipn start (input_ (new_Lexer "a = b")) = "#"%char :: w
           /\ forallb not_LF w = true).
Proof.
  apply (ReadToken_returns_or_overruns (new_Lexer "a = b")).
  now exists (list_ascii_of_string "a = b").
Defined.

(** ** EatWhitespace: what is eaten and where it stops *)

Lemma eaten_app u v : eaten u -> eaten v -> eaten (u ++ v).
Proof. intros Hu Hv. induction Hu; simpl; auto using eaten. Qed.

Lemma eaten_spaces w : forallb is_space w = true -> eaten w.
Proof.
  induction w as [|c w IH]; simpl; intros H; [constructor|].
  apply andb_true_iff in H as [Hc Hw]. unfold is_space in Hc.
  apply Ascii.eqb_eq in Hc. subst c. constructor. now apply IH.
Qed.

Lemma scan_EatWhitespace_spaces_to_end r :
  forallb is_space r = true ->
  scan EatWhitespace_rules (" "%char :: r) = PastEnd.
Proof.
  intros Hr. unfold scan. step_run.
  destruct r as [|x r]; [reflexivity|].
  simpl in Hr. apply andb_true_iff in Hr as [Hx Hr]. unfold is_space in Hx.
  step_run. rewrite Hx. eval_run.
  rewrite <- (app_nil_r r).
  change (run ?rs 2 ?a (r ++ [])) with (run EatWhitespace_spaces 2 a (r ++ [])).
  rewrite (run_stay_accepting _ is_space EatWhitespace_spaces Continue
             eq_refl EatWhitespace_spaces_stay eq_refl _ _ _ Hr).
  reflexivity.
Qed.

Lemma scan_EatWhitespace_dollar_end :
  scan EatWhitespace_rules ["$"%char] = PastEnd.
Proof. reflexivity. Qed.

(** The passes of the loop of [EatWhitespace], by the bytes at the
    cursor. *)
Lemma scan_EatWhitespace_inv s a n :
  scan EatWhitespace_rules s = Matched a n ->
  match a with
  | Continue =>
      (exists w c r, s = " "%char :: w ++ c :: r /\ forallb is_space w = true
                     /\ is_space c = false /\ n = S (List.length w))
      \/ (exists r, s = "$"%char :: LF :: r /\ n = 2)
  | Break =>
      exists c r, s = c :: r /\ is_space c = false
                  /\ ~ (exists r', s = "$"%char :: LF :: r')
  end.
Proof.
  destruct s as [|c s]; [discriminate|].
  destruct (Ascii.eqb " " c) eqn:Esp.
  - apply Ascii.eqb_eq in Esp. subst c.
    destruct (forallb is_space s) eqn:Hall.
    + now rewrite scan_EatWhitespace_spaces_to_end.
    + destruct (forallb_false_split is_space s Hall) as (w & c & r & -> & Hw & Hc).
      rewrite scan_EatWhitespace_space by assumption.
      intros [= <- <-]. left. now exists w, c, r.
  - destruct (Ascii.eqb "$" c) eqn:Edl.
    + apply Ascii.eqb_eq in Edl. subst c.
      destruct s as [|c s]; [discriminate|].
      destruct (Ascii.eqb LF c) eqn:Elf.
      * apply Ascii.eqb_eq in Elf. subst c.
        rewrite scan_EatWhitespace_continuation. intros [= <- <-].
        right. now exists s.
      * rewrite scan_EatWhitespace_dollar by assumption. intros [= <- <-].
        exists "$"%char, (c :: s). repeat split.
        intros [r' E]. injection E as -> _. now rewrite Ascii.eqb_refl in Elf.
    + rewrite scan_EatWhitespace_other by assumption. intros [= <- <-].
      exists c, s. repeat split; [exact Esp|].
      intros [r' E]. injection E as -> _. discriminate Edl.
Qed.

Lemma EatWhitespace_loop_eaten fuel : forall l p l',
  EatWhitespace_loop fuel l p = Done l' ->
  exists w c rest,
    skipn p (input_ l) = w ++ c :: rest /\ eaten w
    /\ l' = set_ofs l (p + List.length w)
    /\ is_space c = false
    /\ ~ (exists r', c :: rest = "$"%char :: LF :: r').
Proof.
  induction fuel as [|fuel IH]; intros l p l' H; [discriminate|].
  cbn [EatWhitespace_loop] in H. cbn [set_ofs input_] in H.
  destruct (scan _ _) as [[|] n| |] eqn:Hscan; try discriminate;
    apply scan_EatWhitespace_inv in Hscan.
  - apply IH in H as (w' & c' & rest' & Hs' & Hw' & -> & Hc' & Hn').
    cbn [set_ofs input_] in Hs'.
    destruct Hscan as [(w & c & r & Hs & Hw & Hc & ->)|(r & Hs & ->)].
    + pose proof Hs as Hs2.
      apply (skipn_app_skipn _ _ (" "%char :: w)) in Hs2.
      cbn [List.length] in Hs2. rewrite Hs2 in Hs'.
      exists ((" "%char :: w) ++ w'), c', rest'.
      rewrite Hs, <- app_assoc. cbn [List.app]. rewrite Hs'.
      repeat split; try assumption.
      * apply (eaten_app (" "%char :: w)); [|exact Hw'].
        constructor. now apply eaten_spaces.
      * rewrite set_ofs_set_ofs. f_equal.
        cbn [List.length]. rewrite length_app. lia.
    + pose proof Hs as Hs2.
      apply (skipn_app_skipn _ _ ["$"%char; LF]) in Hs2.
      cbn [List.length] in Hs2. rewrite Hs2 in Hs'.
      exists (["$"%char; LF] ++ w'), c', rest'.
      rewrite Hs. cbn [List.app]. rewrite Hs'.
      repeat split; try assumption.
      * now constructor.
      * rewrite set_ofs_set_ofs. f_equal. cbn [List.length]. lia.
  - injection H as <-. destruct Hscan as (c & r & Hs & Hc & Hn).
    rewrite Hs in Hn.
    exists [], c, r. rewrite Hs. cbn [List.app List.length].
    rewrite Nat.add_0_r. repeat split; try assumption. constructor.
Qed.

(** X9.  [EatWhitespace] eats spaces and [$]-newline pairs and nothing
    else: when it returns, only the cursor has changed, the bytes it has
    passed are a sequence of spaces and [$]-newline pairs, and it stands on
    a byte that is no space and does not start a [$]-newline pair. *)
Theorem EatWhitespace_eats l l' :
  EatWhitespace l = Done l' ->
  exists w c rest,
    skipn (ofs_ l) (input_ l) = w ++ c :: rest /\ eaten w
    /\ l' = set_ofs l (ofs_ l + List.length w)
    /\ is_space c = false
    /\ ~ (exists r', c :: rest = "$"%char :: LF :: r').
Proof. apply EatWhitespace_loop_eaten. Qed.

Lemma EatWhitespace_eats_witness :
  exists w c rest,
    skipn (ofs_ (new_Lexer (" $" ++ String LF " $x")))
      (input_ (new_Lexer (" $" ++ String LF " $x")))
    = w ++ c :: rest
    /\ eaten w
    /\ set_ofs (new_Lexer (" $" ++ String LF " $x")) 4
       = set_ofs (new_Lexer (" $" ++ String LF " $x"))
           (ofs_ (new_Lexer (" $" ++ String LF " $x")) + List.length w)
    /\ is_space c = false
    /\ ~ (exists r', c :: rest = "$"%char :: LF :: r').
Proof.
  apply (EatWhitespace_eats (new_Lexer (" $" ++ String LF " $x"))
           (set_ofs (new_Lexer (" $" ++ String LF " $x")) 4)).
  reflexivity.
Defined.

(** ** ReadIdent *)

Lemma ReadIdent_ident_stay c :
  varname_char c = true -> step c ReadIdent_ident = ReadIdent_ident.
Proof. intros H. eval_run. now rewrite H. Qed.

Lemma scan_ReadIdent w c rest :
  forallb varname_char w = true -> varname_char c = false ->
  scan ReadIdent_rules (w ++ c :: rest)
  = match w with
    | [] => Matched ReturnFalse 1
    | _ => Matched Assign (List.length w)
    end.
Proof.
  intros Hw Hc. unfold scan. destruct w as [|x w].
  - step_run. rewrite Hc. now stop_run.
  - simpl in Hw. apply andb_true_iff in Hw as [Hx Hw].
    step_run. rewrite Hx. eval_run.
    destruct w as [|y w].
    + step_run. rewrite Hc. now stop_run.
    + simpl in Hw. apply andb_true_iff in Hw as [Hy Hw].
      step_run. rewrite Hy. eval_run.
      change (run ?rs 2 ?a ?s0) with (run ReadIdent_ident 2 a s0).
      rewrite (run_stay_accepting _ varname_char ReadIdent_ident Assign
                 eq_refl ReadIdent_ident_stay eq_refl _ _ _ Hw).
      step_run. rewrite Hc. now stop_run.
Qed.

(** X10.  [ReadIdent] takes the longest run of identifier bytes at the
    cursor, keywords included.  In a buffer that ends with its NUL: if the
    byte at the cursor is no identifier byte, it returns false and changes
    neither [*out] nor the lexer; otherwise it returns true, [*out] is the
    whole run, the whitespace behind the run is eaten and [last_token_]
    stays as it was. *)
Theorem ReadIdent_run l out :
  terminated (skipn (ofs_ l) (input_ l)) ->
  let s := skipn (ofs_ l) (input_ l) in
  let n := span_len varname_char s in
  (n = 0 -> ReadIdent l out = Done (false, out, l))
  /\ (0 < n ->
      exists l',
        ReadIdent l out = Done (true, string_of_list_ascii (firstn n s), l')
        /\ EatWhitespace (set_ofs l (ofs_ l + n)) = Done l'
        /\ last_token_ l' = last_token_ l
        /\ ofs_ l + n <= ofs_ l').
Proof.
  intros [t Ht] s n. subst s n. rewrite Ht.
  destruct (terminated_split varname_char t eq_refl)
    as (w & c & r & t' & E & Hw & Hc & Et & Hl).
  rewrite E, span_len_app by assumption.
  assert (Hs : skipn (ofs_ l + List.length w) (input_ l) = t' ++ [NUL]).
  { rewrite <- Et. apply (skipn_app_skipn _ _ w). now rewrite Ht, E. }
  unfold ReadIdent. rewrite Ht, E, (scan_ReadIdent w c r Hw Hc).
  split; intros Hn.
  - destruct w; [reflexivity | discriminate Hn].
  - destruct w as [|x w]; [simpl in Hn; lia|].
    destruct (EatWhitespace_terminated
                (set_ofs l (ofs_ l + List.length (x :: w))) t' Hs)
      as (q & He & Hq).
    eexists. rewrite He. cbn [bind].
    split; [|split; [reflexivity | split; [reflexivity|]]].
    + unfold piece. rewrite Ht, E.
      replace (ofs_ l + List.length (x :: w) - ofs_ l)
        with (List.length (x :: w)) by lia.
      reflexivity.
    + cbn [ofs_ set_ofs] in *. lia.
Qed.

Lemma ReadIdent_run_witness :
  exists l',
    ReadIdent (new_Lexer "build.x  =") "" = Done (true, "build.x"%string, l')
    /\ EatWhitespace (set_ofs (new_Lexer "build.x  =") (0 + 7)) = Done l'
    /\ last_token_ l' = last_token_ (new_Lexer "build.x  =")
    /\ 0 + 7 <= ofs_ l'.
Proof.
  apply (proj2 (ReadIdent_run (new_Lexer "build.x  =") ""
                  (ex_intro _ (list_ascii_of_string "build.x  =") eq_refl))).
  vm_compute. lia.
Defined.

(** ** ReadEvalString: how a call ends *)

Lemma ReadEvalString_rules_Separator r :
  In (r, Separator) ReadEvalString_rules -> r = Cls separator_char.
Proof.
  intros H. unfold ReadEvalString_rules in H. cbn [In] in H.
  repeat (destruct H as [H|H];
          [first [discriminate H | now injection H as <-]|]).
  contradiction.
Qed.

Lemma separator_char_In c :
  separator_char c = true -> In c [" "; ":"; "|"; LF]%char.
Proof.
  unfold separator_char. intros H.
  repeat (apply orb_true_iff in H as [H|H]);
    apply Ascii.eqb_eq in H; subst; simpl; auto.
Qed.

Lemma scan_ReadEvalString_Separator_inv s n :
  scan ReadEvalString_rules s = Matched Separator n ->
  n = 1 /\ exists c r, s = c :: r /\ separator_char c = true.
Proof.
  intros H. apply scan_matches in H as (Hn & Hlen & r & Hin & Hm).
  apply ReadEvalString_rules_Separator in Hin. subst r.
  apply matches_Cls_inv in Hm as (c & Hc & Hsep).
  assert (n = 1).
  { apply (f_equal (@List.length ascii)) in Hc.
    rewrite length_firstn in Hc. simpl in Hc. lia. }
  subst n. split; [reflexivity|].
  destruct s as [|x s]; [discriminate Hc|]. injection Hc as ->. eauto.
Qed.

Lemma ReadEvalString_body_Stop_path input eval p eval' start p' :
  ReadEvalString_body input true eval p = Done (Stop eval' start p') ->
  eval' = eval /\ start = p /\ p' = p
  /\ exists c, nth_error input p = Some c /\ separator_char c = true.
Proof.
  unfold ReadEvalString_body.
  destruct (scan _ _) as [a n| |] eqn:Hscan; try discriminate.
  destruct a; try discriminate. intros [= <- <- <-].
  apply scan_ReadEvalString_Separator_inv in Hscan as (_ & c & r & Hs & Hc).
  apply skipn_cons_nth_error in Hs as [Hn _]. repeat split. eauto.
Qed.

Lemma ReadEvalString_loop_Stop_path fuel input : forall eval p eval' start p',
  ReadEvalString_loop fuel input true eval p = Done (Stop eval' start p') ->
  p <= start /\ p' = start
  /\ exists c, nth_error input start = Some c /\ separator_char c = true.
Proof.
  induction fuel as [|fuel IH]; intros eval p eval' start p' H;
    [discriminate|].
  cbn [ReadEvalString_loop] in H.
  destruct (ReadEvalString_body input true eval p) as [s| | |] eqn:Hb;
    try discriminate.
  cbn [bind] in H. destruct s as [e q|e st q|e st m].
  - apply ReadEvalString_body_inside in Hb. apply IH in H as (Hle & H).
    split; [lia | exact H].
  - injection H as -> -> ->.
    apply ReadEvalString_body_Stop_path in Hb as (_ & -> & -> & Hc). auto.
  - discriminate.
Qed.

Lemma EatWhitespace_stays l c :
  nth_error (input_ l) (ofs_ l) = Some c ->
  Ascii.eqb " " c = false -> Ascii.eqb "$" c = false ->
  EatWhitespace l = Done l.
Proof.
  intros Hc H1 H2. unfold EatWhitespace, fuel_of. cbn [EatWhitespace_loop].
  cbn [set_ofs input_]. rewrite (skipn_nth_error _ _ _ Hc).
  rewrite scan_EatWhitespace_other by assumption. now destruct l.
Qed.

(** X11.  A path-mode call that returns true has stopped at a space, colon,
    pipe or newline: the offset of that byte is in [last_token_], [*err] is
    untouched and the cursor is where [EatWhitespace] gets to from that byte.
    A colon, pipe or newline is left for the next call: the cursor is on
    it. *)
Theorem ReadEvalString_path_returns_true l eval err eval' err' l' :
  ReadEvalString l eval true err = Done (true, eval', err', l') ->
  exists start c,
    nth_error (input_ l) start = Some c /\ In c [" "; ":"; "|"; LF]%char
    /\ ofs_ l <= start
    /\ last_token_ l' = Some start
    /\ EatWhitespace (set_ofs (set_last_token l start) start) = Done l'
    /\ err' = err
    /\ (c <> " "%char -> ofs_ l' = start).
Proof.
  unfold ReadEvalString. intros H.
  destruct (ReadEvalString_loop _ _ _ _ _) as [s| | |] eqn:Hloop;
    try discriminate.
  cbn [bind] in H. destruct s as [e q|e st q|e st m]; [discriminate| |].
  - apply ReadEvalString_loop_Stop_path in Hloop as (Hle & -> & c & Hc & Hsep).
    destruct (EatWhitespace _) as [l1| | |] eqn:He; try discriminate.
    cbn [bind] in H. injection H as <- <- <-.
    exists st, c. apply separator_char_In in Hsep.
    pose proof (EatWhitespace_loop_shape _ _ _ _ He) as [q Hq].
    repeat split; try assumption.
    + subst l1. reflexivity.
    + intros Hsp.
      rewrite (EatWhitespace_stays (set_ofs (set_last_token l st) st) c) in He.
      * injection He as <-. reflexivity.
      * exact Hc.
      * simpl in Hsep.
        destruct Hsep as [<-|[<-|[<-|[<-|[]]]]]; try reflexivity. contradiction.
      * simpl in Hsep.
        destruct Hsep as [<-|[<-|[<-|[<-|[]]]]]; reflexivity.
  - destruct (Error _ m) as [[b e']| | |] eqn:He; try discriminate.
    apply Error_false in He. subst b. discriminate.
Qed.

Lemma ReadEvalString_path_returns_true_witness :
  exists start c,
    nth_error (input_ (new_Lexer "out: in")) start = Some c
    /\ In c [" "; ":"; "|"; LF]%char
    /\ ofs_ (new_Lexer "out: in") <= start
    /\ last_token_ (set_ofs (set_last_token (new_Lexer "out: in") 3) 3)
       = Some start
    /\ EatWhitespace (set_ofs (set_last_token (new_Lexer "out: in") start) start)
       = Done (set_ofs (set_last_token (new_Lexer "out: in") 3) 3)
    /\ ""%string = ""%string
    /\ (c <> " "%char ->
        ofs_ (set_ofs (set_last_token (new_Lexer "out: in") 3) 3) = start).
Proof.
  apply (ReadEvalString_path_returns_true (new_Lexer "out: in") [] ""
           [(RAW, "out"%string)] ""
           (set_ofs (set_last_token (new_Lexer "out: in") 3) 3)).
  reflexivity.
Defined.

(** X12.  An empty path is accepted.  In path mode, with the cursor on a
    colon, a pipe or a newline, the call returns true at once: no fragment
    is added, the cursor stays on that byte and only [last_token_] is set,
    to the cursor. *)
Theorem ReadEvalString_empty_path l eval err c :
  nth_error (input_ l) (ofs_ l) = Some c ->
  In c [":"; "|"; LF]%char ->
  ReadEvalString l eval true err
  = Done (true, eval, err, set_last_token l (ofs_ l)).
Proof.
  intros Hc Hin.
  assert (Hb : ReadEvalString_body (input_ l) true eval (ofs_ l)
               = Done (Stop eval (ofs_ l) (ofs_ l))).
  { unfold ReadEvalString_body.
    rewrite (skipn_nth_error _ _ _ Hc), scan_ReadEvalString_separator;
      [reflexivity|].
    simpl in *. tauto. }
  unfold ReadEvalString, fuel_of. cbn [ReadEvalString_loop].
  rewrite Hb. cbn [bind].
  rewrite (EatWhitespace_stays _ c).
  - reflexivity.
  - exact Hc.
  - simpl in Hin. destruct Hin as [<-|[<-|[<-|[]]]]; reflexivity.
  - simpl in Hin. destruct Hin as [<-|[<-|[<-|[]]]]; reflexivity.
Qed.

Lemma ReadEvalString_empty_path_witness :
  ReadEvalString (new_Lexer ": x") [] true ""
  = Done (true, [], ""%string,
          set_last_token (new_Lexer ": x") (ofs_ (new_Lexer ": x"))).
Proof.
  apply (ReadEvalString_empty_path (new_Lexer ": x") [] "" ":"%char).
  - reflexivity.
  - simpl. auto.
Defined.

Lemma ReadEvalString_rules_Other r :
  In (r, Other) ReadEvalString_rules -> r = any.
Proof.
  intros H. unfold ReadEvalString_rules in H. cbn [In] in H.
  repeat (destruct H as [H|H];
          [first [discriminate H | now injection H as <-]|]).
  contradiction.
Qed.

Lemma ReadEvalString_rules_Sentinel r :
  In (r, Sentinel) ReadEvalString_rules -> r = chr NUL.
Proof.
  intros H. unfold ReadEvalString_rules in H. cbn [In] in H.
  repeat (destruct H as [H|H];
          [first [discriminate H | now injection H as <-]|]).
  contradiction.
Qed.

Lemma accepting_Other c :
  accepting (step c ReadEvalString_rules) = Some Other -> c = "$"%char.
Proof. all_bytes c; vm_compute; intros H; congruence. Qed.

Lemma scan_ReadEvalString_Other_inv s n :
  scan ReadEvalString_rules s = Matched Other n ->
  exists r, s = "$"%char :: r.
Proof.
  intros H. pose proof (scan_any_length _ _ _ _ _ H ReadEvalString_rules_Other).
  subst n. apply scan_first in H as (_ & _ & H).
  destruct s as [|c s]; [discriminate H|].
  cbn [firstn steps fold_left] in H. apply accepting_Other in H. subst c. eauto.
Qed.

Lemma scan_ReadEvalString_Sentinel_inv s n :
  scan ReadEvalString_rules s = Matched Sentinel n ->
  exists r, s = NUL :: r.
Proof.
  intros H. apply scan_matches in H as (Hn & Hlen & r & Hin & Hm).
  apply ReadEvalString_rules_Sentinel in Hin. subst r.
  apply matches_chr_inv in Hm.
  destruct s as [|c s]; [destruct n; discriminate Hm|].
  destruct n; [lia|]. cbn [firstn] in Hm. injection Hm as -> _. eauto.
Qed.

Lemma ReadEvalString_body_Fail input path eval p eval' start message :
  ReadEvalString_body input path eval p = Done (Fail eval' start message) ->
  eval' = eval /\ start = p
  /\ ((message = "unexpected EOF"%string /\ nth_error input p = Some NUL)
      \/ (message = "lexing error"%string
          /\ nth_error input p = Some "$"%char)).
Proof.
  unfold ReadEvalString_body.
  destruct (scan _ _) as [a n| |] eqn:Hscan; try discriminate.
  destruct a; try discriminate.
  - destruct path; [discriminate|].
    destruct (nth_error input p); [|discriminate].
    destruct (Ascii.eqb _ _); discriminate.
  - intros [= <- <- <-].
    apply scan_ReadEvalString_Sentinel_inv in Hscan as [r Hs].
    apply skipn_cons_nth_error in Hs as [Hn _]. auto.
  - intros [= <- <- <-].
    apply scan_ReadEvalString_Other_inv in Hscan as [r Hs].
    apply skipn_cons_nth_error in Hs as [Hn _]. auto.
Qed.

Lemma ReadEvalString_loop_Fail fuel input path : forall eval p eval' start message,
  ReadEvalString_loop fuel input path eval p = Done (Fail eval' start message) ->
  p <= start
  /\ ((message = "unexpected EOF"%string /\ nth_error input start = Some NUL)
      \/ (message = "lexing error"%string
          /\ nth_error input start = Some "$"%char)).
Proof.
  induction fuel as [|fuel IH]; intros eval p eval' start message H;
    [discriminate|].
  cbn [ReadEvalString_loop] in H.
  destruct (ReadEvalString_body input path eval p) as [s| | |] eqn:Hb;
    try discriminate.
  cbn [bind] in H. destruct s as [e q|e st q|e st m].
  - apply ReadEvalString_body_inside in Hb. apply IH in H as (Hle & H).
    split; [lia | exact H].
  - discriminate.
  - injection H as -> -> ->.
    apply ReadEvalString_body_Fail in Hb as (_ & -> & Hb). auto.
Qed.

(** X13.  A call of [ReadEvalString] that returns false has moved nothing:
    the cursor, the buffer and the file name are as before, and only
    [last_token_] is set, to the offset of the failure.  There are two
    failures: "unexpected EOF", at a NUL, and "lexing error", which is
    always at a [$]; [*err] is the message [Error] renders for that
    offset. *)
Theorem ReadEvalString_returns_false l eval path err eval' err' l' :
  ReadEvalString l eval path err = Done (false, eval', err', l') ->
  exists start message,
    l' = set_last_token l start /\ ofs_ l <= start
    /\ Error l' message = Done (false, err')
    /\ ((message = "unexpected EOF"%string
         /\ nth_error (input_ l) start = Some NUL)
        \/ (message = "lexing error"%string
            /\ nth_error (input_ l) start = Some "$"%char)).
Proof.
  unfold ReadEvalString. intros H.
  destruct (ReadEvalString_loop _ _ _ _ _) as [s| | |] eqn:Hloop;
    try discriminate.
  cbn [bind] in H. destruct s as [e q|e st q|e st m]; [discriminate| |].
  - destruct path; [|discriminate].
    destruct (EatWhitespace _); discriminate.
  - apply ReadEvalString_loop_Fail in Hloop as (Hle & Hm).
    destruct (Error _ m) as [[b e']| | |] eqn:He; try discriminate.
    cbn [bind fst snd] in H. injection H as -> <- <- <-.
    exists st, m. auto.
Qed.

Lemma ReadEvalString_returns_false_witness :
  exists start message,
    set_last_token (new_Lexer "a $") 2 = set_last_token (new_Lexer "a $") start
    /\ ofs_ (new_Lexer "a $") <= start
    /\ Error (set_last_token (new_Lexer "a $") 2) message
       = Done (false,
               ("input:1: lexing error" ++ String LF "a $"
                ++ String LF "  ^" ++ String LF "")%string)
    /\ ((message = "unexpected EOF"%string
         /\ nth_error (input_ (new_Lexer "a $")) start = Some NUL)
        \/ (message = "lexing error"%string
            /\ nth_error (input_ (new_Lexer "a $")) start = Some "$"%char)).
Proof.
  apply (ReadEvalString_returns_false (new_Lexer "a $") [] false ""
           [(RAW, "a"%string); (RAW, " "%string)]).
  reflexivity.
Defined.

(** ** ReadEvalString: the fragments *)

Lemma matches_Cat_inv a b w :
  matches (Cat a b) w ->
  exists u v, w = u ++ v /\ matches a u /\ matches b v.
Proof. intros H. inversion H; subst. eauto. Qed.

Ltac rule_of H :=
  unfold ReadEvalString_rules in H; cbn [In] in H;
  repeat (destruct H as [H|H];
          [first [discriminate H | now injection H as <-]|]);
  contradiction.

Lemma ReadEvalString_rules_RawRun r :
  In (r, RawRun) ReadEvalString_rules -> r = plus (Cls raw_char).
Proof. intros H. rule_of H. Qed.

Lemma ReadEvalString_rules_BracedVar r :
  In (r, BracedVar) ReadEvalString_rules ->
  r = Cat (lit "${") (Cat (plus (Cls varname_char)) (chr "}")).
Proof. intros H. rule_of H. Qed.

Lemma ReadEvalString_rules_SimpleVar r :
  In (r, SimpleVar) ReadEvalString_rules ->
  r = Cat (chr "$") (plus (Cls simple_varname_char)).
Proof. intros H. rule_of H. Qed.

Lemma firstn_eq_app (s w : list ascii) n :
  firstn n s = w -> n <= List.length s ->
  n = List.length w /\ s = w ++ skipn n s.
Proof.
  intros H Hn. split.
  - rewrite <- H, length_firstn. lia.
  - rewrite <- H. symmetry. apply firstn_skipn.
Qed.

Lemma raw_char_text_char c : raw_char c = true -> text_char c = true.
Proof. all_bytes c; vm_compute; intros H; try discriminate H; auto. Qed.

Lemma simple_varname_char_varname_char c :
  simple_varname_char c = true -> varname_char c = true.
Proof. unfold varname_char. intros ->. reflexivity. Qed.

Lemma forallb_impl (f g : ascii -> bool) w :
  (forall c, f c = true -> g c = true) ->
  forallb f w = true -> forallb g w = true.
Proof.
  intros Hfg. induction w as [|c w IH]; simpl; [reflexivity|].
  intros H. apply andb_true_iff in H as [Hc Hw].
  now rewrite (Hfg c Hc), IH.
Qed.

Lemma scan_ReadEvalString_RawRun_inv s n :
  scan ReadEvalString_rules s = Matched RawRun n ->
  exists w, s = w ++ skipn n s /\ n = List.length w /\ w <> []
            /\ forallb raw_char w = true.
Proof.
  intros H. apply scan_matches in H as (Hn & Hlen & r & Hin & Hm).
  apply ReadEvalString_rules_RawRun in Hin. subst r.
  apply matches_plus_Cls_inv in Hm as [Hne Hraw].
  destruct (firstn_eq_app s _ n eq_refl Hlen) as [Hl Hs].
  exists (firstn n s). auto.
Qed.

Lemma scan_ReadEvalString_BracedVar_inv s n :
  scan ReadEvalString_rules s = Matched BracedVar n ->
  exists name, s = "$"%char :: "{"%char :: name ++ "}"%char :: skipn n s
               /\ n = 3 + List.length name /\ name <> []
               /\ forallb varname_char name = true.
Proof.
  intros H. apply scan_matches in H as (Hn & Hlen & r & Hin & Hm).
  apply ReadEvalString_rules_BracedVar in Hin. subst r.
  apply matches_Cat_inv in Hm as (u & v & Hw & Hu & Hv).
  apply (matches_lit_inv "${") in Hu. subst u.
  apply matches_Cat_inv in Hv as (name & z & -> & Hname & Hz).
  apply matches_chr_inv in Hz. subst z.
  apply matches_plus_Cls_inv in Hname as [Hne Hname].
  destruct (firstn_eq_app s _ n Hw Hlen) as [Hl Hs].
  exists name. repeat split; try assumption.
  - rewrite Hs at 1. cbn [list_ascii_of_string List.app].
    now rewrite <- app_assoc.
  - rewrite Hl. cbn [list_ascii_of_string List.app List.length].
    rewrite length_app. simpl. lia.
Qed.

Lemma scan_ReadEvalString_SimpleVar_inv s n :
  scan ReadEvalString_rules s = Matched SimpleVar n ->
  exists name, s = "$"%char :: name ++ skipn n s
               /\ n = 1 + List.length name /\ name <> []
               /\ forallb simple_varname_char name = true.
Proof.
  intros H. apply scan_matches in H as (Hn & Hlen & r & Hin & Hm).
  apply ReadEvalString_rules_SimpleVar in Hin. subst r.
  apply matches_Cat_inv in Hm as (u & name & Hw & Hu & Hname).
  apply matches_chr_inv in Hu. subst u.
  apply matches_plus_Cls_inv in Hname as [Hne Hname].
  destruct (firstn_eq_app s _ n Hw Hlen) as [Hl Hs].
  exists name. repeat split; assumption.
Qed.

Lemma fragment_ok_RAW w :
  w <> [] -> forallb text_char w = true ->
  fragment_ok (RAW, string_of_list_ascii w).
Proof.
  intros Hne Hw. unfold fragment_ok. cbn [fst snd].
  now rewrite list_ascii_of_string_of_list_ascii.
Qed.

Lemma fragment_ok_SPECIAL w :
  w <> [] -> forallb varname_char w = true ->
  fragment_ok (SPECIAL, string_of_list_ascii w).
Proof.
  intros Hne Hw. unfold fragment_ok. cbn [fst snd].
  now rewrite list_ascii_of_string_of_list_ascii.
Qed.

(** One pass through the loop body adds at most one fragment, at the end. *)
Lemma ReadEvalString_body_adds input path eval p s :
  ReadEvalString_body input path eval p = Done s ->
  exists added,
    Forall fragment_ok added
    /\ match s with
       | Again e _ | Stop e _ _ | Fail e _ _ => e = eval ++ added
       end.
Proof.
  unfold ReadEvalString_body.
  destruct (scan _ _) as [a n| |] eqn:Hscan; try discriminate.
  destruct a.
  - intros [= <-].
    apply scan_ReadEvalString_RawRun_inv in Hscan as (w & Hs & -> & Hne & Hw).
    replace (p + List.length w - p) with (List.length w) by lia.
    rewrite (piece_app _ _ _ _ Hs).
    eexists [_]. split; [|reflexivity]. constructor; [|constructor].
    apply fragment_ok_RAW; [assumption|].
    revert Hw. apply forallb_impl, raw_char_text_char.
  - apply scan_ReadEvalString_Separator_inv in Hscan as (-> & c & r & Hs & Hc).
    destruct path.
    + intros [= <-]. exists []. split; [constructor|]. now rewrite app_nil_r.
    + pose proof (skipn_cons_nth_error _ _ _ _ Hs) as [Hn _]. rewrite Hn.
      destruct (Ascii.eqb c LF) eqn:Hlf; intros [= <-].
      * exists []. split; [constructor|]. now rewrite app_nil_r.
      * change (piece input p 1) with (piece input p (List.length [c])).
        rewrite (piece_app _ _ [c] r Hs).
        eexists [_]. split; [|reflexivity]. constructor; [|constructor].
        apply fragment_ok_RAW; [discriminate|].
        apply separator_char_In in Hc. simpl in Hc.
        destruct Hc as [<-|[<-|[<-|[<-|[]]]]];
          first [reflexivity | discriminate Hlf].
  - intros [= <-]. eexists [_]. split; [|reflexivity].
    constructor; [|constructor]. split; [discriminate | reflexivity].
  - intros [= <-]. eexists [_]. split; [|reflexivity].
    constructor; [|constructor]. split; [discriminate | reflexivity].
  - intros [= <-]. exists []. split; [constructor|]. now rewrite app_nil_r.
  - intros [= <-].
    apply scan_ReadEvalString_BracedVar_inv in Hscan
      as (name & Hs & -> & Hne & Hname).
    replace (p + (3 + List.length name) - p - 3) with (List.length name) by lia.
    apply (skipn_app_skipn _ _ ["$"; "{"]%char) in Hs. cbn [List.length] in Hs.
    rewrite (piece_app _ _ _ _ Hs).
    eexists [_]. split; [|reflexivity]. constructor; [|constructor].
    now apply fragment_ok_SPECIAL.
  - intros [= <-].
    apply scan_ReadEvalString_SimpleVar_inv in Hscan
      as (name & Hs & -> & Hne & Hname).
    replace (p + (1 + List.length name) - p - 1) with (List.length name) by lia.
    apply (skipn_app_skipn _ _ ["$"]%char) in Hs. cbn [List.length] in Hs.
    rewrite (piece_app _ _ _ _ Hs).
    eexists [_]. split; [|reflexivity]. constructor; [|constructor].
    apply fragment_ok_SPECIAL; [assumption|].
    revert Hname. apply forallb_impl, simple_varname_char_varname_char.
  - intros [= <-]. exists []. split; [constructor|]. now rewrite app_nil_r.
  - intros [= <-]. exists []. split; [constructor|]. now rewrite app_nil_r.
Qed.

Lemma ReadEvalString_loop_adds fuel input path : forall eval p s,
  ReadEvalString_loop fuel input path eval p = Done s ->
  exists added,
    Forall fragment_ok added
    /\ match s with
       | Again e _ | Stop e _ _ | Fail e _ _ => e = eval ++ added
       end.
Proof.
  induction fuel as [|fuel IH]; intros eval p s H; [discriminate|].
  cbn [ReadEvalString_loop] in H.
  destruct (ReadEvalString_body input path eval p) as [s1| | |] eqn:Hb;
    try discriminate.
  cbn [bind] in H. apply ReadEvalString_body_adds in Hb as (a1 & Ha1 & Hb).
  destruct s1 as [e q|e st q|e st m]; try (injection H as <-; eauto).
  apply IH in H as (a2 & Ha2 & H). subst e.
  exists (a1 ++ a2). split; [now apply Forall_app|].
  rewrite app_assoc. exact H.
Qed.

(** X14.  [ReadEvalString] only appends to [*eval]: whatever it returns, the
    fragments that were there are kept, in place, and the new ones follow.
    No added fragment has an empty text; an added SPECIAL fragment holds
    only bytes of a variable name, [a-zA-Z0-9_.], and an added RAW fragment
    holds neither a newline nor a NUL. *)
Theorem ReadEvalString_appends l eval path err b eval' err' l' :
  ReadEvalString l eval path err = Done (b, eval', err', l') ->
  exists added, eval' = eval ++ added /\ Forall fragment_ok added.
Proof.
  unfold ReadEvalString. intros H.
  destruct (ReadEvalString_loop _ _ _ _ _) as [s| | |] eqn:Hloop;
    try discriminate.
  cbn [bind] in H.
  apply ReadEvalString_loop_adds in Hloop as (added & Hok & Hs).
  exists added. split; [|exact Hok].
  destruct s as [e q|e st q|e st m]; [discriminate| |].
  - destruct path.
    + destruct (EatWhitespace _); try discriminate.
      cbn [bind] in H. now injection H as _ <- _ _.
    + now injection H as _ <- _ _.
  - destruct (Error _ m); try discriminate.
    cbn [bind] in H. now injection H as _ <- _ _.
Qed.

Lemma ReadEvalString_appends_witness :
  exists added,
    [(RAW, "cc"%string); (RAW, " "%string); (SPECIAL, "in"%string);
     (RAW, " "%string); (RAW, "$"%string)]
    = [(RAW, "cc"%string)] ++ added
    /\ Forall fragment_ok added.
Proof.
  apply (ReadEvalString_appends
           (set_ofs (new_Lexer ("cc ${in} $$" ++ String LF "")) 2)
           [(RAW, "cc"%string)] false "" true _ ""
           (set_ofs (set_last_token
                       (new_Lexer ("cc ${in} $$" ++ String LF "")) 11) 12)).
  reflexivity.
Defined.

(** ** ReadEvalString: a text without [$] *)

Lemma string_of_list_ascii_app u v :
  string_of_list_ascii (u ++ v)
  = (string_of_list_ascii u ++ string_of_list_ascii v)%string.
Proof. induction u as [|c u IH]; simpl; [reflexivity | now rewrite IH]. Qed.

Lemma raw_prefix (text : list ascii) :
  exists w t, text = w ++ t /\ forallb raw_char w = true
              /\ (t = [] \/ exists c r, t = c :: r /\ raw_char c = false).
Proof.
  destruct (forallb raw_char text) eqn:H.
  - exists text, []. rewrite app_nil_r. auto.
  - apply forallb_false_split in H as (w & c & r & -> & Hw & Hc).
    exists w, (c :: r). eauto 7.
Qed.

Lemma plain_not_raw c :
  plain_char c = true -> raw_char c = false ->
  In c [" "; ":"; "|"]%char.
Proof.
  all_bytes c; vm_compute; intros H1 H2;
    first [discriminate H1 | discriminate H2 | tauto].
Qed.

Lemma text_of_app a b : text_of (a ++ b) = (text_of a ++ text_of b)%string.
Proof.
  induction a as [|[t s] a IH]; simpl; [reflexivity|].
  rewrite IH. clear. induction s as [|c s IH]; simpl; [reflexivity|].
  now rewrite IH.
Qed.

Lemma ReadEvalString_loop_plain input rest fuel : forall text eval p,
  List.length text < fuel ->
  skipn p input = text ++ LF :: rest ->
  forallb plain_char text = true ->
  exists added,
    ReadEvalString_loop fuel input false eval p
    = Done (Stop (eval ++ added) (p + List.length text)
                 (p + List.length text + 1))
    /\ Forall (fun f => fst f = RAW) added
    /\ text_of added = string_of_list_ascii text.
Proof.
  induction fuel as [|fuel IH]; intros text eval p Hfuel Hs Hplain; [lia|].
  cbn [ReadEvalString_loop]. destruct text as [|c t].
  - exists []. cbn [List.app] in Hs.
    pose proof (skipn_cons_nth_error _ _ _ _ Hs) as [Hn _].
    unfold ReadEvalString_body.
    rewrite Hs, scan_ReadEvalString_separator by (simpl; auto).
    rewrite Hn. cbn [bind List.length]. rewrite Ascii.eqb_refl.
    rewrite app_nil_r, Nat.add_0_r. repeat split. constructor.
  - destruct (raw_char c) eqn:Hc.
    + destruct (raw_prefix (c :: t)) as (w & t' & Ht & Hw & Hnext).
      assert (Hne : w <> []).
      { intros ->. destruct Hnext as [->|(c' & r' & -> & Hc')];
          [discriminate Ht|].
        cbn [List.app] in Ht. injection Ht as <- _. congruence. }
      assert (Hrest : exists c' r', t' ++ LF :: rest = c' :: r'
                                    /\ raw_char c' = false).
      { destruct Hnext as [->|(c' & r' & -> & Hc')].
        - exists LF, rest. split; reflexivity.
        - exists c', (r' ++ LF :: rest). split; [reflexivity | assumption]. }
      destruct Hrest as (c' & r' & Hr & Hc').
      rewrite Ht, <- app_assoc, Hr in Hs.
      unfold ReadEvalString_body.
      rewrite Hs, scan_ReadEvalString_raw by assumption.
      cbn [bind].
      replace (p + List.length w - p) with (List.length w) by lia.
      rewrite (piece_app _ _ _ _ Hs).
      rewrite Ht, forallb_app in Hplain.
      apply andb_true_iff in Hplain as [_ Hplain].
      assert (Hlen : List.length t' < fuel).
      { apply (f_equal (@List.length ascii)) in Ht.
        rewrite length_app in Ht. cbn [List.length] in Ht, Hfuel.
        destruct w; [congruence|]. cbn [List.length] in Ht. lia. }
      apply skipn_app_skipn in Hs. rewrite <- Hr in Hs.
      destruct (IH t' (Add eval RAW (string_of_list_ascii w))
                  (p + List.length w) Hlen Hs Hplain)
        as (added & Hrun & Hraw & Htext).
      exists ((RAW, string_of_list_ascii w) :: added).
      rewrite Hrun, Ht, length_app. unfold Add. rewrite <- app_assoc.
      cbn [List.app]. rewrite !Nat.add_assoc. repeat split.
      * constructor; [reflexivity | assumption].
      * cbn [text_of]. now rewrite Htext, string_of_list_ascii_app.
    + cbn [forallb] in Hplain. apply andb_true_iff in Hplain as [Hpc Hplain].
      pose proof (plain_not_raw c Hpc Hc) as Hin.
      cbn [List.app] in Hs.
      pose proof (skipn_cons_nth_error _ _ _ _ Hs) as [Hn _].
      unfold ReadEvalString_body.
      rewrite Hs, scan_ReadEvalString_separator by (simpl in *; tauto).
      rewrite Hn.
      assert (Hlf : Ascii.eqb c LF = false).
      { simpl in Hin. destruct Hin as [<-|[<-|[<-|[]]]]; reflexivity. }
      rewrite Hlf. cbn [bind].
      change (piece input p 1) with (piece input p (List.length [c])).
      rewrite (piece_app _ _ [c] _ Hs).
      apply (skipn_app_skipn _ _ [c]) in Hs. cbn [List.length] in Hs, Hfuel.
      assert (Hlen : List.length t < fuel) by lia.
      destruct (IH t (Add eval RAW (string_of_list_ascii [c]))
                  (p + 1) Hlen Hs Hplain)
        as (added & Hrun & Hraw & Htext).
      exists ((RAW, string_of_list_ascii [c]) :: added).
      rewrite Hrun. unfold Add. rewrite <- app_assoc.
      cbn [List.app List.length].
      replace (p + 1 + List.length t) with (p + S (List.length t)) by lia.
      repeat split.
      * constructor; [reflexivity | assumption].
      * cbn [text_of string_of_list_ascii String.append]. now rewrite Htext.
Qed.

(** X15.  A value without [$] is read as it is written.  In non-path mode,
    when the bytes from the cursor to the next newline hold no [$] and no
    NUL, the call returns true, every fragment it adds is RAW and their
    texts, one after the other, are exactly those bytes (spaces, colons and
    pipes come as fragments of their own); the newline is consumed and
    [last_token_] is its offset. *)
Theorem ReadEvalString_plain_text l eval err text rest :
  skipn (ofs_ l) (input_ l) = text ++ LF :: rest ->
  forallb plain_char text = true ->
  exists added,
    ReadEvalString l eval false err
    = Done (true, eval ++ added, err,
            set_ofs (set_last_token l (ofs_ l + List.length text))
                    (ofs_ l + List.length text + 1))
    /\ Forall (fun f => fst f = RAW) added
    /\ text_of added = string_of_list_ascii text.
Proof.
  intros Hs Hplain.
  destruct (ReadEvalString_loop_plain (input_ l) rest (fuel_of (input_ l))
              text eval (ofs_ l)) as (added & Hrun & Hraw & Htext);
    try assumption.
  - unfold fuel_of. apply (f_equal (@List.length ascii)) in Hs.
    rewrite length_app, length_skipn in Hs. lia.
  - exists added. unfold ReadEvalString. rewrite Hrun. auto.
Qed.

Lemma ReadEvalString_plain_text_witness :
  exists added,
    ReadEvalString (new_Lexer ("a b|c" ++ String LF "x")) [] false ""
    = Done (true, [] ++ added, ""%string,
            set_ofs (set_last_token (new_Lexer ("a b|c" ++ String LF "x"))
                       (0 + 5)) (0 + 5 + 1))
    /\ Forall (fun f => fst f = RAW) added
    /\ text_of added = "a b|c"%string.
Proof.
  apply (ReadEvalString_plain_text (new_Lexer ("a b|c" ++ String LF "x")) [] ""
           (list_ascii_of_string "a b|c") ["x"; NUL]%char).
  - reflexivity.
  - reflexivity.
Defined.

(** ** The terminating NUL stays in front of the cursor *)

Lemma terminated_skipn_add (input : list ascii) p t q :
  skipn p input = t ++ [NUL] -> p <= q <= p + List.length t ->
  terminated (skipn q input).
Proof.
  intros Hs Hq.
  destruct (skipn_add_terminated input p t (q - p) Hs ltac:(lia)) as [Hs' _].
  replace (p + (q - p)) with q in Hs' by lia. eexists. exact Hs'.
Qed.

(** X16.  On a buffer that ends with its NUL, [EatWhitespace] returns: it
    never reads outside the buffer, it moves nothing but the cursor, forward,
    and the cursor stays in front of the NUL, so that the next call starts
    from a terminated buffer again. *)
Theorem EatWhitespace_keeps_terminated l :
  terminated (skipn (ofs_ l) (input_ l)) ->
  exists p',
    EatWhitespace l = Done (set_ofs l p') /\ ofs_ l <= p'
    /\ terminated (skipn p' (input_ l)).
Proof.
  intros [t Hs].
  destruct (EatWhitespace_terminated l t Hs) as (p' & He & Hp').
  exists p'. repeat split; [exact He | lia |].
  apply (terminated_skipn_add _ _ _ _ Hs Hp').
Qed.

Lemma EatWhitespace_keeps_terminated_witness :
  exists p',
    EatWhitespace (new_Lexer "  x") = Done (set_ofs (new_Lexer "  x") p')
    /\ ofs_ (new_Lexer "  x") <= p'
    /\ terminated (skipn p' (input_ (new_Lexer "  x"))).
Proof.
  apply (EatWhitespace_keeps_terminated (new_Lexer "  x")).
  now exists (list_ascii_of_string "  x").
Defined.

(** X17.  When [ReadToken] returns a token other than TEOF from a buffer
    that ends with its NUL, the cursor is still in front of the NUL: the
    buffer from the new cursor is terminated, and the next call of the lexer
    starts as this one did. *)
Theorem ReadToken_keeps_terminated l t l' :
  terminated (skipn (ofs_ l) (input_ l)) ->
  ReadToken l = Done (t, l') ->
  t <> TEOF ->
  terminated (skipn (ofs_ l') (input_ l')).
Proof.
  intros [u Hs] H Ht. unfold ReadToken in H.
  destruct (ReadToken_loop_terminated (fuel_of (input_ l)) (input_ l)
              (ofs_ l) u Hs)
    as [(token & start & p' & Hloop & Hterm)|(Hloop & _)].
  { unfold fuel_of. apply skipn_length_le in Hs.
    rewrite length_app in Hs. simpl in Hs. lia. }
  - rewrite Hloop in H. cbn [bind] in H.
    destruct (negb (Token_eqb token NEWLINE) && negb (Token_eqb token TEOF))
      eqn:Htok.
    + destruct Hterm as [t' Ht'].
      { intros ->. discriminate Htok. }
      destruct (EatWhitespace_terminated
                  (set_ofs (set_last_token l start) p') t' Ht')
        as (q & He & Hq).
      rewrite He in H. cbn [bind] in H. injection H as <- <-.
      apply (terminated_skipn_add _ _ _ _ Ht' Hq).
    + injection H as -> <-. apply (Hterm Ht).
  - rewrite Hloop in H. discriminate H.
Qed.

Lemma ReadToken_keeps_terminated_witness :
  terminated
    (skipn (ofs_ (set_ofs (set_last_token (new_Lexer "rule cc") 0) 5))
       (input_ (set_ofs (set_last_token (new_Lexer "rule cc") 0) 5))).
Proof.
  apply (ReadToken_keeps_terminated (new_Lexer "rule cc") RULE).
  - now exists (list_ascii_of_string "rule cc").
  - reflexivity.
  - discriminate.
Defined.

Lemma ReadEvalString_body_Stop_non_path input eval p eval' start p' :
  ReadEvalString_body input false eval p = Done (Stop eval' start p') ->
  start = p /\ p' = p + 1 /\ nth_error input p = Some LF.
Proof.
  unfold ReadEvalString_body.
  destruct (scan _ _) as [a n| |] eqn:Hscan; try discriminate.
  destruct a; try discriminate.
  apply scan_ReadEvalString_Separator_inv in Hscan as (-> & _).
  destruct (nth_error input p) as [c|]; [|discriminate].
  destruct (Ascii.eqb c LF) eqn:Hc; [|discriminate].
  apply Ascii.eqb_eq in Hc. subst c. intros [= _ <- <-]. auto.
Qed.

Lemma ReadEvalString_loop_Stop_non_path fuel input :
  forall eval p eval' start p',
  ReadEvalString_loop fuel input false eval p = Done (Stop eval' start p') ->
  p <= start /\ p' = start + 1 /\ nth_error input start = Some LF.
Proof.
  induction fuel as [|fuel IH]; intros eval p eval' start p' H;
    [discriminate|].
  cbn [ReadEvalString_loop] in H.
  destruct (ReadEvalString_body input false eval p) as [s| | |] eqn:Hb;
    try discriminate.
  cbn [bind] in H. destruct s as [e q|e st q|e st m].
  - apply ReadEvalString_body_inside in Hb. apply IH in H as (Hle & H).
    split; [lia | exact H].
  - injection H as -> -> ->.
    apply ReadEvalString_body_Stop_non_path in Hb as (-> & -> & Hc). auto.
  - discriminate.
Qed.

(** X18.  On a buffer that ends with its NUL, [ReadEvalString] returns, in
    either mode and whatever the bytes are: it never reads outside the
    buffer.  It leaves the buffer and the file name as they are, never moves
    the cursor backward and leaves it in front of the NUL, so that the next
    call starts from a terminated buffer again. *)
Theorem ReadEvalString_keeps_terminated l eval path err :
  terminated (skipn (ofs_ l) (input_ l)) ->
  exists b eval' err' l',
    ReadEvalString l eval path err = Done (b, eval', err', l')
    /\ input_ l' = input_ l /\ filename_ l' = filename_ l
    /\ ofs_ l <= ofs_ l'
    /\ terminated (skipn (ofs_ l') (input_ l')).
Proof.
  intros [t Hs]. unfold ReadEvalString.
  destruct (ReadEvalString_loop_terminated (input_ l) path
              (fuel_of (input_ l)) eval (ofs_ l) t Hs) as (s & Hloop & Hok).
  { unfold fuel_of. apply skipn_length_le in Hs.
    rewrite length_app in Hs. simpl in Hs. lia. }
  rewrite Hloop. cbn [bind].
  destruct s as [e q|e st q|e st m]; [contradiction| |].
  - destruct path.
    + destruct Hok as [Hst Hq]. rewrite (Hq eq_refl).
      destruct (skipn_add_terminated _ _ _ (st - ofs_ l) Hs ltac:(lia))
        as [Hs' Hl].
      replace (ofs_ l + (st - ofs_ l)) with st in Hs' by lia.
      destruct (EatWhitespace_terminated
                  (set_ofs (set_last_token l st) st) _ Hs') as (p' & -> & Hp').
      cbn [bind]. do 4 eexists. split; [reflexivity|].
      cbn [input_ filename_ ofs_ set_ofs set_last_token] in *.
      repeat split; [lia|].
      apply (terminated_skipn_add _ _ _ _ Hs' Hp').
    + apply ReadEvalString_loop_Stop_non_path in Hloop as (Hle & -> & Hlf).
      do 4 eexists. split; [reflexivity|].
      cbn [input_ filename_ ofs_ set_ofs set_last_token].
      repeat split; [lia|].
      apply (terminated_skipn_add _ _ _ _ Hs).
      pose proof (terminated_nth_error _ _ _ Hs) as HN.
      destruct Hok as [Hst _].
      assert (st <> ofs_ l + List.length t).
      { intros ->. rewrite HN in Hlf. injection Hlf as Hlf.
        vm_compute in Hlf. discriminate Hlf. }
      lia.
  - destruct (Error_total (set_last_token l st) m st _ eq_refl
                (terminated_nth_error _ _ _ Hs) ltac:(lia)) as [msg ->].
    cbn [bind]. do 4 eexists. split; [reflexivity|].
    cbn [input_ filename_ ofs_ set_ofs set_last_token fst snd].
    repeat split; [lia|]. now exists t.
Qed.

Lemma ReadEvalString_keeps_terminated_witness :
  exists b eval' err' l',
    ReadEvalString (new_Lexer "a$") [] false "" = Done (b, eval', err', l')
    /\ input_ l' = input_ (new_Lexer "a$")
    /\ filename_ l' = filename_ (new_Lexer "a$")
    /\ ofs_ (new_Lexer "a$") <= ofs_ l'
    /\ terminated (skipn (ofs_ l') (input_ l')).
Proof.
  apply (ReadEvalString_keeps_terminated (new_Lexer "a$") [] false "").
  now exists (list_ascii_of_string "a$").
Defined.

(** ** ReadEvalString: a path without [$] *)

(** X19.  A path without [$] is one fragment.  In path mode, a non-empty
    run of bytes other than [$], space, colon, pipe, newline and NUL that a
    space, colon, pipe or newline follows is added as a single RAW fragment;
    [last_token_] is the offset of the byte that follows the run, and the
    cursor is where [EatWhitespace] gets to from that byte. *)
Theorem ReadEvalString_plain_path l eval err w c rest l' :
  skipn (ofs_ l) (input_ l) = w ++ c :: rest ->
  w <> [] -> forallb raw_char w = true ->
  In c [" "; ":"; "|"; LF]%char ->
  EatWhitespace (set_ofs (set_last_token l (ofs_ l + List.length w))
                         (ofs_ l + List.length w)) = Done l' ->
  ReadEvalString l eval true err
  = Done (true, eval ++ [(RAW, string_of_list_ascii w)], err, l').
Proof.
  intros Hs Hne Hw Hc He.
  assert (Hraw : raw_char c = false).
  { simpl in Hc. destruct Hc as [<-|[<-|[<-|[<-|[]]]]]; reflexivity. }
  assert (Hlen : 2 <= List.length (input_ l)).
  { apply (f_equal (@List.length ascii)) in Hs.
    rewrite length_app, length_skipn in Hs. cbn [List.length] in Hs.
    destruct w; [congruence|]. cbn [List.length] in Hs. lia. }
  unfold ReadEvalString, fuel_of.
  destruct (List.length (input_ l)) as [|[|n]]; try lia.
  cbn [ReadEvalString_loop].
  unfold ReadEvalString_body at 1.
  rewrite Hs, scan_ReadEvalString_raw by assumption. cbn [bind].
  replace (ofs_ l + List.length w - ofs_ l) with (List.length w) by lia.
  rewrite (piece_app _ _ _ _ Hs).
  apply skipn_app_skipn in Hs.
  unfold ReadEvalString_body.
  rewrite Hs, scan_ReadEvalString_separator by assumption. cbn [bind].
  rewrite He. reflexivity.
Qed.

Lemma ReadEvalString_plain_path_witness :
  ReadEvalString (new_Lexer "foo.o  bar") [] true ""
  = Done (true, [] ++ [(RAW, "foo.o"%string)], ""%string,
          set_ofs (set_last_token (new_Lexer "foo.o  bar") 5) 7).
Proof.
  apply (ReadEvalString_plain_path (new_Lexer "foo.o  bar") [] ""
           (list_ascii_of_string "foo.o") " "%char
           (list_ascii_of_string " bar" ++ [NUL])).
  - reflexivity.
  - discriminate.
  - reflexivity.
  - simpl. auto.
  - reflexivity.
Defined.

(** ** TokenName *)

(** X20.  [TokenName] tells the tokens apart: no two tokens have the same
    name.  The name of a keyword or punctuation token is the text its rule
    in [ReadToken] matches, between single quotes. *)
Theorem TokenName_injective :
  (forall a b, TokenName a = TokenName b -> a = b)
  /\ (forall text t,
        In (text, t) (keywords ++ punctuation) ->
        In (lit text, Emit t) ReadToken_rules
        /\ TokenName t = ("'" ++ text ++ "'")%string).
Proof.
  split.
  - intros a b H. destruct a, b; first [reflexivity | discriminate H].
  - intros text t H. unfold keywords, punctuation in H.
    cbn [List.app In] in H.
    repeat (destruct H as [H|H];
            [injection H as <- <-; split; [find_rule | reflexivity]|]).
    contradiction.
Qed.

(** ** Error: the message *)

Lemma context_len_min n : forall s,
  In NUL s -> context_len n s = Some (Nat.min n (span_len text_char s)).
Proof.
  induction n as [|n IH]; intros s Hin; [reflexivity|].
  destruct s as [|c s]; [contradiction|]. cbn [context_len span_len].
  unfold text_char at 1. rewrite (orb_comm (Ascii.eqb c LF)).
  destruct (Ascii.eqb c NUL || Ascii.eqb c LF) eqn:Hc; [reflexivity|].
  cbn [negb]. destruct Hin as [->|Hin].
  - change (Ascii.eqb NUL NUL) with true in Hc. discriminate Hc.
  - rewrite (IH s Hin). reflexivity.
Qed.

Lemma c_str_before_NUL s : c_str s = before_NUL s.
Proof.
  unfold before_NUL. induction s as [|c s IH]; [reflexivity|].
  cbn [c_str list_ascii_of_string span_len].
  destruct (Ascii.eqb c NUL); [reflexivity|].
  cbn [negb firstn string_of_list_ascii]. now rewrite IH.
Qed.

Lemma take_substring n : forall s, take n s = substring 0 n s.
Proof.
  induction n as [|n IH]; intros [|c s]; try reflexivity.
  cbn [take substring]. now rewrite IH.
Qed.

Lemma spaces_repeat n :
  spaces n = string_of_list_ascii (repeat " "%char n).
Proof. induction n as [|n IH]; [reflexivity|]. cbn. now rewrite IH. Qed.

(** X21.  The message of [Error], for a position in a buffer that has a
    NUL at or behind it.  The line is one more than the number of newlines
    in front of the position and the column is the offset of the position
    from the start of its line, both as 32-bit [int]s.  The message starts
    with the first 1023 bytes of "file:line: " (the file name up to a NUL in
    it) and with the message and a newline.  If the column is above 0, the
    line of the position follows, from its start up to the first newline or
    NUL but at most 50 bytes of it, then a newline, as many spaces as the
    column, a caret and a newline.  With no position ([last_token_] NULL)
    the line is 1 and nothing follows the message. *)
Theorem Error_message l message :
  (last_token_ l = None ->
   Error l message
   = Done (false,
           (substring 0 1023 (before_NUL (filename_ l) ++ ":1: ")
            ++ message ++ String LF "")%string))
  /\ (forall t k,
        last_token_ l = Some t -> t <= k ->
        nth_error (input_ l) k = Some NUL ->
        exists context,
          context <= t
          /\ (context = 0 \/ nth_error (input_ l) (context - 1) = Some LF)
          /\ newlines (firstn (t - context) (skipn context (input_ l))) = 0
          /\ let line :=
               int_of_Z (1 + Z.of_nat (newlines (firstn t (input_ l)))) in
             let col := int_of_Z (Z.of_nat t - Z.of_nat context) in
             let first_line :=
               (substring 0 1023
                  (before_NUL (filename_ l) ++ ":"
                   ++ DecimalString.NilEmpty.string_of_int (Z.to_int line)
                   ++ ": ")
                ++ message ++ String LF "")%string in
             let text := skipn context (input_ l) in
             let excerpt :=
               firstn (Nat.min 50 (span_len text_char text)) text in
             Error l message
             = Done (false,
                     if (0 <? col)%Z
                     then (first_line
                           ++ string_of_list_ascii excerpt ++ String LF ""
                           ++ string_of_list_ascii
                                (repeat " "%char (Z.to_nat col))
                           ++ "^" ++ String LF "")%string
                     else first_line)).
Proof.
  split.
  - intros Hl. unfold Error, position. rewrite Hl. cbn [bind].
    change (0 <? 0)%Z with false. cbv iota.
    unfold snprintf_buf. now rewrite take_substring, c_str_before_NUL.
  - intros t k Ht Hle Hk.
    assert (Hlen : k < List.length (input_ l)).
    { apply nth_error_Some. congruence. }
    destruct (position_spec l t Ht ltac:(lia)) as (context & Hp & Hc & Hs & Hn).
    exists context. repeat split; try assumption.
    cbv zeta. unfold Error. rewrite Hp. cbn [bind].
    unfold snprintf_buf, decimal.
    rewrite take_substring, c_str_before_NUL.
    destruct (0 <? int_of_Z (Z.of_nat t - Z.of_nat context))%Z; [|reflexivity].
    rewrite context_len_min.
    + unfold piece. now rewrite spaces_repeat.
    + apply (nth_error_In _ (k - context)).
      rewrite nth_error_skipn. rewrite <- Hk. f_equal. lia.
Qed.

Lemma Error_message_witness :
  exists context,
    context <= 6
    /\ (context = 0
        \/ nth_error (input_ (set_last_token
                                (new_Lexer ("a" ++ String LF "bad $")) 6))
             (context - 1) = Some LF)
    /\ newlines
         (firstn (6 - context)
            (skipn context
               (input_ (set_last_token
                          (new_Lexer ("a" ++ String LF "bad $")) 6)))) = 0
    /\ Error (set_last_token (new_Lexer ("a" ++ String LF "bad $")) 6)
         "lexing error"
       = Done (false,
               if (0 <? int_of_Z (Z.of_nat 6 - Z.of_nat context))%Z
               then ((substring 0 1023
                        (before_NUL "input" ++ ":"
                         ++ DecimalString.NilEmpty.string_of_int
                              (Z.to_int
                                 (int_of_Z
                                    (1 + Z.of_nat
                                           (newlines
                                              (firstn 6
                                                 (input_
                                                    (new_Lexer
                                                       ("a" ++ String LF "bad $"))))))))
                         ++ ": ")
                      ++ "lexing error" ++ String LF "")
                     ++ string_of_list_ascii
                          (firstn
                             (Nat.min 50
                                (span_len text_char
                                   (skipn context
                                      (input_
                                         (new_Lexer
                                            ("a" ++ String LF "bad $"))))))
                             (skipn context
                                (input_
                                   (new_Lexer ("a" ++ String LF "bad $")))))
                     ++ String LF ""
                     ++ string_of_list_ascii
                          (repeat " "%char
                             (Z.to_nat
                                (int_of_Z (Z.of_nat 6 - Z.of_nat context))))
                     ++ "^" ++ String LF "")%string
               else (substring 0 1023
                       (before_NUL "input" ++ ":"
                        ++ DecimalString.NilEmpty.string_of_int
                             (Z.to_int
                                (int_of_Z
                                   (1 + Z.of_nat
                                          (newlines
                                             (firstn 6
                                                (input_
                                                   (new_Lexer
                                                      ("a" ++ String LF "bad $"))))))))
                        ++ ": ")
                     ++ "lexing error" ++ String LF "")%string).
Proof.
  apply (proj2 (Error_message
                  (set_last_token (new_Lexer ("a" ++ String LF "bad $")) 6)
                  "lexing error") 6 7).
  - reflexivity.
  - lia.
  - reflexivity.
Defined.

(** ** ReadToken: what is skipped in front of a token *)

Lemma ReadToken_rules_Skip r :
  In (r, Skip) ReadToken_rules -> r = Cat (chr "#") (Cat (Star dot) (chr LF)).
Proof.
  intros H. unfold ReadToken_rules in H. cbn [In] in H.
  repeat (destruct H as [H|H];
          [first [discriminate H | now injection H as <-]|]).
  contradiction.
Qed.

Lemma scan_ReadToken_Skip_inv s n :
  scan ReadToken_rules s = Matched Skip n ->
  exists w, s = "#"%char :: w ++ LF :: skipn n s
            /\ n = 2 + List.length w /\ forallb not_LF w = true.
Proof.
  intros H. apply scan_matches in H as (Hn & Hlen & r & Hin & Hm).
  apply ReadToken_rules_Skip in Hin. subst r.
  apply matches_Cat_inv in Hm as (u & v & Hw & Hu & Hv).
  apply matches_chr_inv in Hu. subst u.
  apply matches_Cat_inv in Hv as (w & z & -> & Hdots & Hz).
  apply matches_chr_inv in Hz. subst z.
  apply matches_star_Cls_inv in Hdots.
  destruct (firstn_eq_app s _ n Hw Hlen) as [Hl Hs].
  exists w. repeat split; try assumption.
  - rewrite Hs at 1. cbn [List.app]. now rewrite <- app_assoc.
  - rewrite Hl. cbn [List.app List.length]. rewrite length_app. simpl. lia.
Qed.

Lemma comment_lines_length w rest :
  List.length ("#"%char :: w ++ LF :: rest)
  = 2 + List.length w + List.length rest.
Proof. cbn [List.length]. rewrite length_app. cbn [List.length]. lia. Qed.

Lemma ReadToken_loop_skipped fuel input : forall p token start p',
  ReadToken_loop fuel input p = Done (token, start, p') ->
  exists cs, comment_lines cs /\ start = p + List.length cs
             /\ skipn p input = cs ++ skipn start input.
Proof.
  induction fuel as [|fuel IH]; intros p token start p' H; [discriminate|].
  cbn [ReadToken_loop] in H.
  destruct (scan _ _) as [[|t] n| |] eqn:Hscan; try discriminate.
  - apply scan_ReadToken_Skip_inv in Hscan as (w & Hs & -> & Hw).
    apply IH in H as (cs & Hcs & -> & Hrest).
    rewrite skipn_skipn in Hs.
    replace (2 + List.length w + p) with (p + (2 + List.length w)) in Hs
      by lia.
    rewrite Hrest in Hs.
    exists ("#"%char :: w ++ LF :: cs). split; [now constructor|].
    rewrite comment_lines_length. split; [lia|].
    rewrite Hs at 1. cbn [List.app]. rewrite <- app_assoc. cbn [List.app].
    repeat f_equal; lia.
  - injection H as _ <- _. exists []. split; [constructor|].
    now rewrite Nat.add_0_r.
Qed.

Lemma comment_lines_ends cs :
  comment_lines cs -> cs <> [] ->
  exists u v, cs = "#"%char :: u /\ cs = v ++ [LF].
Proof.
  induction 1 as [|w rest Hw Hrest IH]; intros Hne; [congruence|].
  exists (w ++ LF :: rest).
  destruct rest as [|x rest].
  - exists ("#"%char :: w). split; reflexivity.
  - destruct IH as (u' & v & _ & Hv); [discriminate|].
    exists ("#"%char :: w ++ LF :: v). split; [reflexivity|]. rewrite Hv.
    cbn [List.app]. rewrite <- app_assoc. reflexivity.
Qed.

Lemma ReadToken_skipped l t l' :
  ReadToken l = Done (t, l') ->
  exists start cs,
    last_token_ l' = Some start
    /\ comment_lines cs /\ start = ofs_ l + List.length cs
    /\ skipn (ofs_ l) (input_ l) = cs ++ skipn start (input_ l).
Proof.
  unfold ReadToken. intros H.
  destruct (ReadToken_loop _ _ _) as [[[t0 start] p']| | |] eqn:Hloop;
    try discriminate.
  cbn [bind] in H.
  apply ReadToken_loop_skipped in Hloop as (cs & Hcs & Hstart & Hs).
  exists start, cs.
  destruct (negb (Token_eqb t0 NEWLINE) && negb (Token_eqb t0 TEOF)).
  - destruct (EatWhitespace _) as [l1| | |] eqn:He; try discriminate.
    cbn [bind] in H. injection H as _ <-.
    apply EatWhitespace_loop_shape in He as [q ->]. auto.
  - injection H as _ <-. auto.
Qed.

(** X22.  In front of a token [ReadToken] skips whole comment lines and
    nothing else: the bytes between the cursor of the call and the start of
    the token that is returned are comment lines, each from a [#] to the
    next newline, one after the other. *)
Theorem ReadToken_skips_comment_lines l t l' :
  ReadToken l = Done (t, l') ->
  exists start cs,
    last_token_ l' = Some start
    /\ comment_lines cs /\ start = ofs_ l + List.length cs
    /\ skipn (ofs_ l) (input_ l) = cs ++ skipn start (input_ l).
Proof. apply ReadToken_skipped. Qed.

Lemma ReadToken_skips_comment_lines_witness :
  exists start cs,
    last_token_
      (set_ofs (set_last_token
                  (new_Lexer ("#a" ++ String LF ("#" ++ String LF "b"))) 5) 6)
    = Some start
    /\ comment_lines cs
    /\ start
       = ofs_ (new_Lexer ("#a" ++ String LF ("#" ++ String LF "b")))
         + List.length cs
    /\ skipn (ofs_ (new_Lexer ("#a" ++ String LF ("#" ++ String LF "b"))))
         (input_ (new_Lexer ("#a" ++ String LF ("#" ++ String LF "b"))))
       = cs ++ skipn start
                 (input_ (new_Lexer ("#a" ++ String LF ("#" ++ String LF "b")))).
Proof.
  apply (ReadToken_skips_comment_lines
           (new_Lexer ("#a" ++ String LF ("#" ++ String LF "b"))) IDENT).
  reflexivity.
Defined.

(** X23.  Indentation is reported at the start of a line only.  The token
    that follows a token other than NEWLINE (and TEOF) is INDENT only when a
    comment lies in between: the cursor the first call left is on a [#], and
    the INDENT starts right behind a newline. *)
Theorem ReadToken_INDENT_behind_newline l t l1 l2 :
  ReadToken l = Done (t, l1) ->
  t <> NEWLINE -> t <> TEOF ->
  ReadToken l1 = Done (INDENT, l2) ->
  exists start,
    last_token_ l2 = Some start /\ ofs_ l1 < start
    /\ nth_error (input_ l) (ofs_ l1) = Some "#"%char
    /\ nth_error (input_ l) (start - 1) = Some LF.
Proof.
  intros H1 Hn He H2.
  apply ReadToken_inv in H1 as (s1 & n1 & q1 & _ & _ & -> & _ & Heat).
  assert (Htok : negb (Token_eqb t NEWLINE) && negb (Token_eqb t TEOF) = true)
    by (destruct t; try reflexivity; contradiction).
  rewrite Htok in Heat.
  apply EatWhitespace_loop_eaten in Heat as (w & c & rest & Hs & _ & Hl1 & Hc & _).
  cbn [set_ofs set_last_token input_ ofs_] in Hs.
  apply skipn_app_skipn in Hs.
  assert (Hq : q1 = s1 + n1 + List.length w).
  { apply (f_equal ofs_) in Hl1. exact Hl1. }
  rewrite <- Hq in Hs. clear Hl1 Hq.
  pose proof (ReadToken_skipped _ _ _ H2) as (start & cs & Hlast & Hcs & Hst & Hsk).
  pose proof (ReadToken_inv _ _ _ H2)
    as (start' & n & q & Hscan & _ & Hl2 & _ & _).
  assert (start' = start).
  { rewrite Hl2 in Hlast. cbn in Hlast. now injection Hlast. }
  subst start'. clear Hl2.
  cbn [set_ofs set_last_token input_ ofs_] in *.
  apply scan_ReadToken_lexeme in Hscan. cbn [lexeme] in Hscan.
  exists start. split; [exact Hlast|].
  destruct cs as [|x cs].
  - exfalso. cbn [List.length] in Hst. rewrite Nat.add_0_r in Hst. subst start.
    rewrite Hs in Hscan. destruct Hscan as [Hne Hsp].
    destruct n; [now apply Hne|]. cbn [firstn forallb] in Hsp.
    rewrite Hc in Hsp. discriminate Hsp.
  - destruct (comment_lines_ends _ Hcs) as (u & v & Hu & Hv); [discriminate|].
    split; [cbn [List.length] in Hst; lia|]. split.
    + rewrite Hu in Hsk. cbn [List.app] in Hsk.
      now apply skipn_cons_nth_error in Hsk.
    + rewrite Hv, <- app_assoc in Hsk. apply skipn_app_skipn in Hsk.
      apply skipn_cons_nth_error in Hsk as [Hsk _].
      rewrite Hv, length_app in Hst. cbn [List.length] in Hst.
      replace (start - 1) with (q1 + List.length v) by lia. exact Hsk.
Qed.

Lemma ReadToken_INDENT_behind_newline_witness :
  exists start,
    last_token_
      (set_ofs (set_last_token
                  (set_ofs (set_last_token
                              (new_Lexer ("a #c" ++ String LF "  b")) 0) 2)
                  5) 7)
    = Some start
    /\ ofs_ (set_ofs (set_last_token
                        (new_Lexer ("a #c" ++ String LF "  b")) 0) 2) < start
    /\ nth_error (input_ (new_Lexer ("a #c" ++ String LF "  b")))
         (ofs_ (set_ofs (set_last_token
                           (new_Lexer ("a #c" ++ String LF "  b")) 0) 2))
       = Some "#"%char
    /\ nth_error (input_ (new_Lexer ("a #c" ++ String LF "  b"))) (start - 1)
       = Some LF.
Proof.
  apply (ReadToken_INDENT_behind_newline
           (new_Lexer ("a #c" ++ String LF "  b")) IDENT).
  - reflexivity.
  - discriminate.
  - discriminate.
  - reflexivity.
Defined.
